(** * fixproto3: renumbering of protobuf message field tags

    A shallow embedding of [src/index.ts]: the brace matcher
    [findMatchingBrace], the field renumberer [renumberMessageBody] with its
    regular expression, and the document rewriter [processProtoText].

    JavaScript strings are sequences of UTF-16 code units; they are modelled
    as lists of code units, each a number in [N].  Offsets are [Z] where the
    source lets them be negative (the value [-1] of [findMatchingBrace]) and
    [nat] inside the regular-expression engine. *)

From Stdlib Require Import List ZArith NArith Lia Bool String Ascii Arith.
From Stdlib Require Import DecimalString.
From Stdlib Require Import Sorted Permutation.
From Stdlib Require DecimalFacts.
Import ListNotations.

(** ** Strings *)

Definition char := N.
Definition jsstring := list char.

(** A literal of printable ASCII characters as a JavaScript string. *)
Definition str (s : string) : jsstring :=
  map N_of_ascii (list_ascii_of_string s).

Definition c_lf : char := 10%N.          (* "\n" *)
Definition c_dquote : char := 34%N.      (* the double quote *)
Definition c_squote : char := 39%N.      (* "'" *)
Definition c_star : char := 42%N.        (* "*" *)
Definition c_slash : char := 47%N.       (* "/" *)
Definition c_backslash : char := 92%N.   (* "\\" *)
Definition c_semicolon : char := 59%N.   (* ";" *)
Definition c_equals : char := 61%N.      (* "=" *)
Definition c_gt : char := 62%N.          (* ">" *)
Definition c_lbracket : char := 91%N.    (* "[" *)
Definition c_rbracket : char := 93%N.    (* "]" *)
Definition c_lbrace : char := 123%N.     (* "{" *)
Definition c_rbrace : char := 125%N.     (* "}" *)

Definition jslength (t : jsstring) : Z := Z.of_nat (List.length t).

(** [text[i]]: [None] stands for [undefined] (index out of range). *)
Definition charAt (t : jsstring) (i : Z) : option char :=
  if (i <? 0)%Z then None else nth_error t (Z.to_nat i).

(** [x === c] for a one-character string constant [c]. *)
Definition isChar (x : option char) (c : char) : bool :=
  match x with
  | Some a => N.eqb a c
  | None => false
  end.

(** Truthiness of a string value: only the empty string and [undefined]
    are falsy. *)
Definition truthy (x : option char) : bool :=
  match x with
  | Some _ => true
  | None => false
  end.

Definition jsstring_eqb (a b : jsstring) : bool :=
  if list_eq_dec N.eq_dec a b then true else false.

(** [s.slice(a, b)] and [s.slice(a)] of ECMAScript: a negative bound counts
    from the end, both bounds are clamped to the string. *)
Definition clampIndex (len k : Z) : Z :=
  if (k <? 0)%Z then Z.max (len + k) 0 else Z.min k len.

Definition slice (t : jsstring) (a b : Z) : jsstring :=
  let len := jslength t in
  let from := clampIndex len a in
  let to := clampIndex len b in
  firstn (Z.to_nat (Z.max (to - from) 0)) (skipn (Z.to_nat from) t).

Definition sliceFrom (t : jsstring) (a : Z) : jsstring :=
  slice t a (jslength t).

(** ** The brace matcher: [findMatchingBrace] *)

Module Brace.

Local Open Scope Z_scope.

(** The local variables of the loop. *)
Record scan := mkScan {
  i : Z;
  depth : Z;
  inSingleLineComment : bool;
  inMultiLineComment : bool;
  inDoubleQuote : bool;
  inSingleQuote : bool
}.

(** The mode of the specification: [Normal] is the state with no flag set. *)
Definition normal (s : scan) : bool :=
  negb (inSingleLineComment s) && negb (inMultiLineComment s)
  && negb (inDoubleQuote s) && negb (inSingleQuote s).

Inductive outcome :=
| Continue (s : scan)
| Return (r : Z).

Definition init (openPos : Z) : scan := mkScan openPos 0 false false false false.

Definition advance (k : Z) (s : scan) : scan :=
  mkScan (i s + k) (depth s) (inSingleLineComment s) (inMultiLineComment s)
         (inDoubleQuote s) (inSingleQuote s).

(** The tail of the loop body, lines 69 to 75. *)
Definition braces (ch : option char) (s : scan) : outcome :=
  if isChar ch c_lbrace then
    Continue (mkScan (i s + 1) (depth s + 1) (inSingleLineComment s)
                     (inMultiLineComment s) (inDoubleQuote s) (inSingleQuote s))
  else if isChar ch c_rbrace then
    let d := depth s - 1 in
    if d =? 0 then Return (i s)
    else Continue (mkScan (i s + 1) d (inSingleLineComment s)
                          (inMultiLineComment s) (inDoubleQuote s) (inSingleQuote s))
  else Continue (advance 1 s).

(** One iteration of the [while] loop, entered with [i < len].  [next] is
    [""] at the end of the text; [None] stands for it, as for [undefined]:
    the loop only compares [next] with one-character strings and tests its
    truthiness. *)
Definition step (text : jsstring) (s : scan) : outcome :=
  let len := jslength text in
  let ch := charAt text (i s) in
  let next := if i s + 1 <? len then charAt text (i s + 1) else None in
  if normal s then
    if isChar ch c_slash && isChar next c_slash then
      Continue (mkScan (i s + 2) (depth s) true (inMultiLineComment s)
                       (inDoubleQuote s) (inSingleQuote s))
    else if isChar ch c_slash && isChar next c_star then
      Continue (mkScan (i s + 2) (depth s) (inSingleLineComment s) true
                       (inDoubleQuote s) (inSingleQuote s))
    else if isChar ch c_dquote then
      Continue (mkScan (i s + 1) (depth s) (inSingleLineComment s)
                       (inMultiLineComment s) true (inSingleQuote s))
    else if isChar ch c_squote then
      Continue (mkScan (i s + 1) (depth s) (inSingleLineComment s)
                       (inMultiLineComment s) (inDoubleQuote s) true)
    else braces ch s
  else if inSingleLineComment s then
    Continue (mkScan (i s + 1) (depth s)
                     (if isChar ch c_lf then false else inSingleLineComment s)
                     (inMultiLineComment s) (inDoubleQuote s) (inSingleQuote s))
  else if inMultiLineComment s then
    if isChar ch c_star && isChar next c_slash then
      Continue (mkScan (i s + 2) (depth s) (inSingleLineComment s) false
                       (inDoubleQuote s) (inSingleQuote s))
    else Continue (advance 1 s)
  else if inDoubleQuote s then
    if isChar ch c_backslash && truthy next then Continue (advance 2 s)
    else Continue (mkScan (i s + 1) (depth s) (inSingleLineComment s)
                          (inMultiLineComment s)
                          (if isChar ch c_dquote then false else inDoubleQuote s)
                          (inSingleQuote s))
  else if inSingleQuote s then
    if isChar ch c_backslash && truthy next then Continue (advance 2 s)
    else Continue (mkScan (i s + 1) (depth s) (inSingleLineComment s)
                          (inMultiLineComment s) (inDoubleQuote s)
                          (if isChar ch c_squote then false else inSingleQuote s))
  else braces ch s.

(** The [while (i < len)] loop.  Every iteration moves [i] forward, so
    [len - i] iterations are enough; [None] is running out of them. *)
Fixpoint loop (fuel : nat) (text : jsstring) (s : scan) : option Z :=
  if i s <? jslength text then
    match fuel with
    | O => None
    | S fuel' =>
        match step text s with
        | Return r => Some r
        | Continue s' => loop fuel' text s'
        end
    end
  else Some (-1).

Definition fuelFor (text : jsstring) (openPos : Z) : nat :=
  Z.to_nat (jslength text - openPos).

Definition findMatchingBrace_opt (text : jsstring) (openPos : Z) : option Z :=
  loop (fuelFor text openPos) text (init openPos).

(** The states in which the loop body is entered, in order. *)
Fixpoint visited (fuel : nat) (text : jsstring) (s : scan) : list scan :=
  if i s <? jslength text then
    match fuel with
    | O => []
    | S fuel' =>
        s :: match step text s with
             | Return _ => []
             | Continue s' => visited fuel' text s'
             end
    end
  else [].

Definition scanStates (text : jsstring) (openPos : Z) : list scan :=
  visited (fuelFor text openPos) text (init openPos).

(** The scan state of the specification, read off the four flags. *)
Inductive mode :=
| Normal
| InLineComment
| InBlockComment
| InDoubleQuotedString
| InSingleQuotedString.

Definition modeOf (s : scan) : mode :=
  if inSingleLineComment s then InLineComment
  else if inMultiLineComment s then InBlockComment
  else if inDoubleQuote s then InDoubleQuotedString
  else if inSingleQuote s then InSingleQuotedString
  else Normal.

End Brace.

Definition findMatchingBrace (text : jsstring) (openPos : Z) : Z :=
  match Brace.findMatchingBrace_opt text openPos with
  | Some r => r
  | None => (-1)%Z
  end.

(** ** Regular expressions

    The two patterns of the program use literals, character classes and
    escapes, sequence, alternation, the greedy quantifiers [*], [+] and [?],
    capturing groups, [^] under the flag [m] and [\b].  Their meaning is the
    backtracking matcher of ECMAScript (section "Pattern Semantics"): a
    matcher takes a match state and a continuation and returns a match state
    or failure. *)

Module RegExp.

Local Open Scope N_scope.

Inductive regex :=
| Empty
| Chr (c : char)
| Class (p : char -> bool)
| Seq (a b : regex)
| Alt (a b : regex)
| Star (r : regex)
| Plus (r : regex)
| Opt (r : regex)
| Group (n : nat) (r : regex)
| Bol
| WordBoundary.

Declare Scope regex_scope.
Delimit Scope regex_scope with re.
Bind Scope regex_scope with regex.
Infix "+++" := Seq (at level 60, right associativity) : regex_scope.
Infix "<|>" := Alt (at level 65, right associativity) : regex_scope.

(** A literal run of characters. *)
Fixpoint litChars (s : jsstring) : regex :=
  match s with
  | [] => Empty
  | [c] => Chr c
  | c :: s' => Seq (Chr c) (litChars s')
  end.

Definition lit (s : string) : regex := litChars (str s).

(** *** Character classes *)

Definition between (lo hi c : char) : bool := (N.leb lo c && N.leb c hi)%bool.

Definition isDigit (c : char) : bool := between 48 57 c.
Definition isUpper (c : char) : bool := between 65 90 c.
Definition isLower (c : char) : bool := between 97 122 c.
Definition isLetter (c : char) : bool := (isUpper c || isLower c)%bool.

(** [\w] *)
Definition isWordChar (c : char) : bool :=
  (isLetter c || isDigit c || N.eqb c 95)%bool.

(** LineTerminator: LF, CR, LS, PS. *)
Definition isLineTerminator (c : char) : bool :=
  (N.eqb c 10 || N.eqb c 13 || N.eqb c 8232 || N.eqb c 8233)%bool.

(** [\s]: WhiteSpace (TAB, VT, FF, ZWNBSP and the space separators of
    Unicode) or LineTerminator. *)
Definition isSpace (c : char) : bool :=
  (N.eqb c 9 || N.eqb c 11 || N.eqb c 12 || N.eqb c 32 || N.eqb c 160
   || N.eqb c 5760 || between 8192 8202 c || N.eqb c 8239 || N.eqb c 8287
   || N.eqb c 12288 || N.eqb c 65279 || isLineTerminator c)%bool.

(** [[A-Za-z_]] *)
Definition isIdentStart (c : char) : bool := (isLetter c || N.eqb c 95)%bool.

(** [[A-Za-z0-9_.<>]] *)
Definition isTypeChar (c : char) : bool :=
  (isLetter c || isDigit c || N.eqb c 95 || N.eqb c 46 || N.eqb c 60
   || N.eqb c 62)%bool.

(** [[^c]] *)
Definition isNot (x c : char) : bool := negb (N.eqb c x).

(** *** Match states *)

Record mstate := mkState {
  endIndex : nat;
  captures : nat -> option (nat * nat)
}.

Inductive mresult :=
| Failure
| Matched (y : mstate)
| Exhausted.

Definition continuation := mstate -> mresult.
Definition matcher := mstate -> continuation -> mresult.

Definition noCaptures : nat -> option (nat * nat) := fun _ => None.

Definition setCapture (n : nat) (v : nat * nat) (y : mstate) : mstate :=
  mkState (endIndex y)
          (fun k => if Nat.eqb k n then Some v else captures y k).

Definition consume (x : mstate) : mstate :=
  mkState (S (endIndex x)) (captures x).

(** RepeatMatcher with [min = 0] and no upper bound, greedy: an iteration
    that matches the empty string is rejected, so every iteration moves
    [endIndex] forward; [fuel] counts the iterations left and [Exhausted]
    reports that it ran out. *)
Fixpoint repeatMatcher (m : matcher) (fuel : nat) (x : mstate)
         (c : continuation) : mresult :=
  match fuel with
  | O => Exhausted
  | S fuel' =>
      match m x (fun y => if Nat.eqb (endIndex y) (endIndex x) then Failure
                          else repeatMatcher m fuel' y c) with
      | Failure => c x
      | z => z
      end
  end.

Section Matcher.

Variable input : jsstring.

Definition inputLength : nat := List.length input.

(** [^] with the flag [m]. *)
Definition atLineStart (e : nat) : bool :=
  match e with
  | O => true
  | S e' => match nth_error input e' with
            | Some c => isLineTerminator c
            | None => false
            end
  end.

Definition wordCharAt (e : nat) : bool :=
  match nth_error input e with
  | Some c => isWordChar c
  | None => false
  end.

(** [\b]: exactly one of the two neighbours is a word character. *)
Definition atWordBoundary (e : nat) : bool :=
  xorb (match e with O => false | S e' => wordCharAt e' end) (wordCharAt e).

Definition iterations (x : mstate) : nat := S (inputLength - endIndex x)%nat.

(** The matcher of a pattern.  ECMAScript clears the captures of the groups
    inside a quantified pattern at each iteration; in the two patterns of
    the program no group stands under a quantifier, and [compile] has no
    such step. *)
Fixpoint compile (r : regex) : matcher :=
  match r with
  | Empty => fun x c => c x
  | Chr ch => fun x c =>
      match nth_error input (endIndex x) with
      | Some a => if N.eqb a ch then c (consume x) else Failure
      | None => Failure
      end
  | Class p => fun x c =>
      match nth_error input (endIndex x) with
      | Some a => if p a then c (consume x) else Failure
      | None => Failure
      end
  | Seq a b => fun x c => compile a x (fun y => compile b y c)
  | Alt a b => fun x c =>
      match compile a x c with
      | Failure => compile b x c
      | z => z
      end
  | Star r' => fun x c => repeatMatcher (compile r') (iterations x) x c
  | Plus r' => fun x c =>
      compile r' x (fun y => repeatMatcher (compile r') (iterations y) y c)
  | Opt r' => fun x c =>
      match compile r' x (fun y => if Nat.eqb (endIndex y) (endIndex x)
                                   then Failure else c y) with
      | Failure => c x
      | z => z
      end
  | Group n r' => fun x c =>
      compile r' x (fun y => c (setCapture n (endIndex x, endIndex y) y))
  | Bol => fun x c => if atLineStart (endIndex x) then c x else Failure
  | WordBoundary => fun x c =>
      if atWordBoundary (endIndex x) then c x else Failure
  end.

(** The match of the pattern at one index. *)
Definition matchAt (r : regex) (index : nat) : mresult :=
  compile r (mkState index noCaptures) Matched.

(** RegExpBuiltinExec of a global pattern: the first index from [lastIndex]
    up to the length of the input at which the pattern matches.  [n] is the
    number of candidate indices left. *)
Fixpoint tryFrom (r : regex) (n : nat) (index : nat) : option (nat * mstate) :=
  match n with
  | O => None
  | S n' =>
      match matchAt r index with
      | Matched y => Some (index, y)
      | _ => tryFrom r n' (S index)
      end
  end.

Definition exec (r : regex) (lastIndex : nat) : option (nat * mstate) :=
  tryFrom r (S inputLength - lastIndex)%nat lastIndex.

Definition substring (a b : nat) : jsstring :=
  firstn (b - a)%nat (skipn a input).

(** The text of capture [n], [None] for [undefined]. *)
Definition captureText (y : mstate) (n : nat) : option jsstring :=
  match captures y n with
  | Some (a, b) => Some (substring a b)
  | None => None
  end.

(** The results that [String.prototype.replace] collects for a global
    pattern: [exec] is called until it fails; after an empty match
    [lastIndex] is moved one further. *)
Fixpoint collect (fuel : nat) (r : regex) (lastIndex : nat)
  : option (list (nat * mstate)) :=
  match exec r lastIndex with
  | None => Some []
  | Some (index, y) =>
      match fuel with
      | O => None
      | S fuel' =>
          let e := endIndex y in
          let lastIndex' := if Nat.eqb e index then S e else e in
          option_map (cons (index, y)) (collect fuel' r lastIndex')
      end
  end.

Definition results (r : regex) : option (list (nat * mstate)) :=
  collect (S inputLength) r 0%nat.

(** The second half of [replace] with a function as replacement.  The
    function of the program keeps a counter between its calls: [f] takes and
    returns that state. *)
Fixpoint accumulate {St : Type}
         (f : St -> jsstring -> (nat -> option jsstring) -> jsstring * St)
         (rs : list (nat * mstate)) (st : St) (nextSourcePosition : nat)
  : jsstring :=
  match rs with
  | [] => substring nextSourcePosition inputLength
  | (position, y) :: rs' =>
      let matched := substring position (endIndex y) in
      let (replacement, st') := f st matched (captureText y) in
      if Nat.leb nextSourcePosition position then
        substring nextSourcePosition position ++ replacement
          ++ accumulate f rs' st' (endIndex y)
      else accumulate f rs' st' nextSourcePosition
  end.

Definition replace_opt {St : Type} (r : regex)
           (f : St -> jsstring -> (nat -> option jsstring) -> jsstring * St)
           (st : St) : option jsstring :=
  option_map (fun rs => accumulate f rs st 0%nat) (results r).

(** Iterations of a quantified pattern; each one moves forward. *)
Inductive iter (R : mstate -> mstate -> Prop) : mstate -> mstate -> Prop :=
| iter_done x : iter R x x
| iter_more x y z :
    R x y -> endIndex y <> endIndex x -> iter R y z -> iter R x z.

(** [denote r x y]: the pattern [r] can take the match state [x] to [y],
    along some path of the backtracking search. *)
Fixpoint denote (r : regex) (x y : mstate) : Prop :=
  match r with
  | Empty => y = x
  | Chr ch => nth_error input (endIndex x) = Some ch /\ y = consume x
  | Class p =>
      exists a, nth_error input (endIndex x) = Some a /\ p a = true
                /\ y = consume x
  | Seq a b => exists z, denote a x z /\ denote b z y
  | Alt a b => denote a x y \/ denote b x y
  | Star r' => iter (denote r') x y
  | Plus r' => exists z, denote r' x z /\ iter (denote r') z y
  | Opt r' => y = x \/ denote r' x y
  | Group n r' =>
      exists z, denote r' x z /\ y = setCapture n (endIndex x, endIndex z) z
  | Bol => atLineStart (endIndex x) = true /\ y = x
  | WordBoundary => atWordBoundary (endIndex x) = true /\ y = x
  end.

(** Patterns without capturing groups. *)
Fixpoint groupFree (r : regex) : Prop :=
  match r with
  | Seq a b | Alt a b => groupFree a /\ groupFree b
  | Star r' | Plus r' | Opt r' => groupFree r'
  | Group _ _ => False
  | _ => True
  end.

(** The results of a global search lie one after the other. *)
Inductive chain (r : regex) : nat -> list (nat * mstate) -> Prop :=
| chain_nil lastIndex : chain r lastIndex []
| chain_cons lastIndex found y rs :
    (lastIndex <= found)%nat ->
    matchAt r found = Matched y ->
    (found <= endIndex y)%nat ->
    chain r (endIndex y) rs ->
    chain r lastIndex ((found, y) :: rs).

End Matcher.

End RegExp.

Import RegExp.

(** ** The field renumberer: [renumberMessageBody] *)

Definition ws : regex := Class isSpace.

(** The first group, with its parentheses left out:
    [^\s*(?:optional|required|repeated)?\s*(?:map<[^>]+>|[A-Za-z0-9_.<>]+)\s+[A-Za-z_]\w*\s*=\s*] *)
Definition fieldPrefix : regex :=
  (Bol +++ Star ws
   +++ Opt (lit "optional" <|> lit "required" <|> lit "repeated")
   +++ Star ws
   +++ ((lit "map<" +++ Plus (Class (isNot c_gt)) +++ Chr c_gt)
        <|> Plus (Class isTypeChar))
   +++ Plus ws
   +++ Class isIdentStart +++ Star (Class isWordChar)
   +++ Star ws +++ Chr c_equals +++ Star ws)%re.

(** [(\d+)] *)
Definition fieldNumber : regex := Plus (Class isDigit).

(** [(\s*(?:\[[^\]]*\])?\s*;)] *)
Definition fieldSuffix : regex :=
  (Star ws +++ Opt (Chr c_lbracket +++ Star (Class (isNot c_rbracket)) +++ Chr c_rbracket)
   +++ Star ws +++ Chr c_semicolon)%re.

Definition fieldRegex : regex :=
  (Group 1 fieldPrefix +++ Group 2 fieldNumber +++ Group 3 fieldSuffix)%re.

(** [String(n)] for a natural number. *)
Definition String_of_nat (n : nat) : jsstring :=
  str (NilEmpty.string_of_uint (Nat.to_uint n)).

(** String concatenation turns [undefined] into the text "undefined". *)
Definition toText (x : option jsstring) : jsstring :=
  match x with
  | Some s => s
  | None => str "undefined"
  end.

(** The replacement function; [counter] is the variable it closes over. *)
Definition renumberField (counter : nat) (_m : jsstring)
           (group : nat -> option jsstring) : jsstring * nat :=
  let p1 := group 1%nat in
  let p3 := group 3%nat in
  let newNum := String_of_nat counter in
  (toText p1 ++ newNum ++ toText p3, S counter).

Definition renumberMessageBody_opt (body : jsstring) : option jsstring :=
  replace_opt body fieldRegex renumberField 1%nat.

Definition renumberMessageBody (body : jsstring) : jsstring :=
  match renumberMessageBody_opt body with
  | Some s => s
  | None => body
  end.

(** ** The document rewriter: [processProtoText] *)

(** The pattern [\bmessage\s+(NAME)\s*\{] with the flag [g], where the
    group NAME is [[A-Za-z_]\w*]. *)
Definition msgRegex : regex :=
  (WordBoundary +++ lit "message" +++ Plus ws
   +++ Group 1 (Class isIdentStart +++ Star (Class isWordChar))
   +++ Star ws +++ Chr c_lbrace)%re.

Record range := mkRange { open : Z; close : Z }.

(** [s.lastIndexOf(c)] for a one-character string [c]. *)
Fixpoint lastIndexOf_from (s : jsstring) (c : char) (k : Z) (found : Z) : Z :=
  match s with
  | [] => found
  | a :: s' => lastIndexOf_from s' c (k + 1)%Z (if N.eqb a c then k else found)
  end.

Definition lastIndexOf (s : jsstring) (c : char) : Z :=
  lastIndexOf_from s c 0%Z (-1)%Z.

(** The first loop of [processProtoText]: the span finder.  [lastIndex] is
    the property of [msgRegex] that [exec] reads and the loop sets; it grows
    at every iteration. *)
Fixpoint findRanges (fuel : nat) (text : jsstring) (lastIndex : nat)
  : option (list range) :=
  match exec text msgRegex lastIndex with
  | None => Some []
  | Some (matchStart, y) =>
      match fuel with
      | O => None
      | S fuel' =>
          let matchStr := substring text matchStart (endIndex y) in
          let braceIndexWithinMatch := lastIndexOf matchStr c_lbrace in
          let openPos := (Z.of_nat matchStart + braceIndexWithinMatch)%Z in
          let closePos := findMatchingBrace text openPos in
          if (closePos =? -1)%Z then findRanges fuel' text (endIndex y)
          else option_map (cons (mkRange openPos closePos))
                          (findRanges fuel' text (matchStart + 1))
      end
  end.

Definition findMessageSpans_opt (text : jsstring) : option (list range) :=
  findRanges (S (List.length text)) text 0.

Definition findMessageSpans (text : jsstring) : list range :=
  match findMessageSpans_opt text with
  | Some l => l
  | None => []
  end.

(** [ranges.sort((a, b) => b.open - a.open)]; the sort of an array is
    stable. *)
Definition compareRanges (a b : range) : Z := (open b - open a)%Z.

Fixpoint insertRange (x : range) (l : list range) : list range :=
  match l with
  | [] => [x]
  | y :: l' => if (compareRanges x y <=? 0)%Z then x :: l
               else y :: insertRange x l'
  end.

Definition sortRanges (l : list range) : list range :=
  fold_right insertRange [] l.

(** The body of the second loop. *)
Definition rewriteRange (st : jsstring * bool) (r : range) : jsstring * bool :=
  let (result, anyChange) := st in
  let bodyStart := (open r + 1)%Z in
  let bodyEnd := close r in
  let body := slice result bodyStart bodyEnd in
  let newBody := renumberMessageBody body in
  if negb (jsstring_eqb newBody body) then
    (slice result 0 bodyStart ++ newBody ++ sliceFrom result bodyEnd, true)
  else (result, anyChange).

Definition processProtoText (text : jsstring) : jsstring * bool :=
  let ranges := sortRanges (findMessageSpans text) in
  fold_left rewriteRange ranges (text, false).


(** ** Notions used to state the properties *)

(** The number tokens of a body: the second group of every match of the
    field pattern, as a pair of offsets. *)
Definition numberToken (r : nat * mstate) : nat * nat :=
  match captures (snd r) 2 with
  | Some ab => ab
  | None => (0, 0)
  end.

Definition numberTokens (body : jsstring) : list (nat * nat) :=
  match results body fieldRegex with
  | Some rs => map numberToken rs
  | None => []
  end.

(** The body with the given tokens replaced by [counter], [counter + 1],
    ... and every other character copied, from offset [from] on. *)
Fixpoint spliceTokens (body : jsstring) (toks : list (nat * nat))
         (counter from : nat) : jsstring :=
  match toks with
  | [] => skipn from body
  | (a, b) :: toks' =>
      substring body from a ++ String_of_nat counter
        ++ spliceTokens body toks' (S counter) b
  end.

(** Tokens are runs of digits, one after the other, from [from] on. *)
Fixpoint tokensFrom (body : jsstring) (from : nat) (toks : list (nat * nat))
  : Prop :=
  match toks with
  | [] => True
  | (a, b) :: toks' =>
      from <= a /\ a < b
      /\ (forall k, a <= k < b ->
                    exists d, nth_error body k = Some d /\ isDigit d = true)
      /\ tokensFrom body b toks'
  end.

(** Only white space from offset [p] up to offset [q]. *)
Definition spacesBetween (body : jsstring) (p q : nat) : Prop :=
  forall k, p <= k < q ->
            exists c, nth_error body k = Some c /\ isSpace c = true.

(** The offset of the opening brace of a match of the message pattern. *)
Definition openPosOf (text : jsstring) (matchStart : nat) (y : mstate) : Z :=
  (Z.of_nat matchStart
   + lastIndexOf (substring text matchStart (endIndex y)) c_lbrace)%Z.

(** * The documents and bodies of the examples *)

(** Lines of text, each ended by a line feed. *)
Definition unlines (l : list string) : jsstring :=
  List.concat (map (fun s => str s ++ [c_lf]) l).

(** Example 2 of the specification, on one line. *)
Definition nestedOneLine : jsstring :=
  str "message Outer { message Inner { int32 x = 9; } int32 y = 3; }".

(** The same document laid out in lines. *)
Definition nestedLines : jsstring :=
  unlines ["message Outer {";
           "  message Inner {";
           "    int32 x = 9;";
           "  }";
           "  int32 y = 3;";
           "}"]%string.

(** A nested message whose tenth field makes its text grow by one
    character, and an outer field right before the closing brace. *)
Definition tenFields : list string :=
  ["a b=1;"; "a b=2;"; "a b=3;"; "a b=4;"; "a b=5;";
   "a b=6;"; "a b=7;"; "a b=8;"; "a b=9;"; "a b=9;"]%string.

Definition staleDoc : jsstring :=
  unlines (["message O {"; "message I {"]%string ++ tenFields
           ++ ["}"; "a c=1;}"]%string).


(** A body with a field commented out by a block comment, and the same
    body without the comment. *)
Definition blockCommentBody : jsstring :=
  [c_lf] ++ unlines ["/*"; "int32 z = 7;"; "*/"; "int32 a = 5;"]%string.

Definition plainBody : jsstring :=
  [c_lf] ++ unlines ["int32 a = 5;"]%string.

(** A document whose first message is never closed. *)
Definition unclosedDoc : jsstring :=
  str "message A { message B { int32 x = 5; }".

(** A text with braces inside a comment and inside a string. *)
Definition bracesInComment : jsstring := str "{/*}*/ '{' }".

(** ** Lexically well-formed text, for the brace matcher *)

Module Lexical.

(** A character that is neither a brace, nor a quote, nor a slash. *)
Definition isPlain (c : char) : bool :=
  negb (N.eqb c c_lbrace) && negb (N.eqb c c_rbrace)
  && negb (N.eqb c c_dquote) && negb (N.eqb c c_squote)
  && negb (N.eqb c c_slash).

(** The inside of a string literal closed by [q]: escapes and characters
    other than [q] and the backslash. *)
Inductive stringBody (q : char) : jsstring -> Prop :=
| sb_nil : stringBody q []
| sb_char c s :
    c <> q -> c <> c_backslash -> stringBody q s -> stringBody q (c :: s)
| sb_escape c s :
    stringBody q s -> stringBody q (c_backslash :: c :: s).

(** The inside of a block comment: no star is followed by a slash. *)
Inductive blockBody : jsstring -> Prop :=
| bb_nil : blockBody []
| bb_char c s : c <> c_star -> blockBody s -> blockBody (c :: s)
| bb_star s :
    hd_error s <> Some c_slash -> blockBody s -> blockBody (c_star :: s).

(** Text in which comments and strings are closed and braces are paired. *)
Inductive balanced : jsstring -> Prop :=
| bal_nil : balanced []
| bal_plain c b : isPlain c = true -> balanced b -> balanced (c :: b)
| bal_slash c b :
    c <> c_slash -> c <> c_star -> balanced (c :: b) ->
    balanced (c_slash :: c :: b)
| bal_line c b :
    Forall (fun x => x <> c_lf) c -> balanced b ->
    balanced (c_slash :: c_slash :: c ++ c_lf :: b)
| bal_block c b :
    blockBody c -> balanced b ->
    balanced (c_slash :: c_star :: c ++ c_star :: c_slash :: b)
| bal_dquote s b :
    stringBody c_dquote s -> balanced b ->
    balanced (c_dquote :: s ++ c_dquote :: b)
| bal_squote s b :
    stringBody c_squote s -> balanced b ->
    balanced (c_squote :: s ++ c_squote :: b)
| bal_nest a b :
    balanced a -> balanced b -> balanced (c_lbrace :: a ++ c_rbrace :: b).

(** The loop of [findMatchingBrace] from a state, with the iterations that
    are left up to the end of the text. *)
Definition run (text : jsstring) (s : Brace.scan) : option Z :=
  Brace.loop (Z.to_nat (jslength text - Brace.i s)) text s.

(** The state at an offset, given as a number of characters. *)
Definition at_ (n : nat) (d : Z) (slc mlc dq sq : bool) : Brace.scan :=
  Brace.mkScan (Z.of_nat n) d slc mlc dq sq.

(** The number of flags that are set. *)
Definition flagCount (s : Brace.scan) : nat :=
  Nat.b2n (Brace.inSingleLineComment s) + Nat.b2n (Brace.inMultiLineComment s)
  + Nat.b2n (Brace.inDoubleQuote s) + Nat.b2n (Brace.inSingleQuote s).

(** A state and an outcome of the loop, seen from a text with [n] more
    characters in front. *)
Definition shiftScan (n : nat) (s : Brace.scan) : Brace.scan :=
  Brace.mkScan (Brace.i s + Z.of_nat n) (Brace.depth s)
               (Brace.inSingleLineComment s) (Brace.inMultiLineComment s)
               (Brace.inDoubleQuote s) (Brace.inSingleQuote s).

Definition shiftOutcome (n : nat) (o : Brace.outcome) : Brace.outcome :=
  match o with
  | Brace.Continue s => Brace.Continue (shiftScan n s)
  | Brace.Return r => Brace.Return (r + Z.of_nat n)
  end.

End Lexical.

(** The order in which [processProtoText] takes the spans: by descending
    offset of the opening brace. *)
Definition beforeInOrder (a b : range) : Prop := (open b <= open a)%Z.

(** A document in which renumbering the nested message and then the outer
    one gives the text back. *)
Definition restoredDoc : jsstring :=
  unlines ["message O {"; "a b=1;"; "message I {"; "a c=2;"; "}"; "}"]%string.

(** ** Notions for the matcher and for bodies of field declarations *)

(** Every optional pattern is free of capturing groups, as in the two
    patterns of the program. *)
Fixpoint optsGroupFree (r : regex) : Prop :=
  match r with
  | Seq a b | Alt a b => optsGroupFree a /\ optsGroupFree b
  | Star r' | Plus r' | Group _ r' => optsGroupFree r'
  | Opt r' => groupFree r' /\ optsGroupFree r'
  | _ => True
  end.

(** Every character from offset [p] up to offset [q] is in the class. *)
Definition charsIn (body : jsstring) (P : char -> bool) (p q : nat) : Prop :=
  forall k, p <= k < q -> exists c, nth_error body k = Some c /\ P c = true.

(** The continuation never reports that it ran out of iterations, on the
    states from [x] on. *)
Definition total_from (input : jsstring) (x : mstate) (c : continuation)
  : Prop :=
  forall z, endIndex x <= endIndex z <= inputLength input -> c z <> Exhausted.

Definition c_lt : char := 60%N.          (* "<" *)

Definition allOf (P : char -> bool) (s : jsstring) : Prop :=
  Forall (fun c => P c = true) s.

(** The type of a field: a name, or a map type with the text between its
    angle brackets. *)
Inductive fieldType :=
| PlainType (t : jsstring)
| MapType (inner : jsstring).

Definition typeText (t : fieldType) : jsstring :=
  match t with
  | PlainType s => s
  | MapType inner => str "map<" ++ inner ++ [c_gt]
  end.

(** The options of a field, with their brackets. *)
Definition optionsText (o : option jsstring) : jsstring :=
  match o with
  | None => []
  | Some s => c_lbracket :: s ++ [c_rbracket]
  end.

(** A field declaration on its own: the white space before it, a label or
    nothing, white space, the type, white space, the name, optional white
    space around [=], the digits of the tag, and then optional white space,
    options in brackets or nothing, optional white space and the
    semicolon. *)
Record fieldLine := mkFieldLine {
  fl_gap : jsstring;
  fl_label : jsstring;
  fl_sp0 : jsstring;
  fl_type : fieldType;
  fl_sp1 : jsstring;
  fl_name0 : char;
  fl_name : jsstring;
  fl_sp2 : jsstring;
  fl_sp3 : jsstring;
  fl_digits : jsstring;
  fl_sp4 : jsstring;
  fl_options : option jsstring;
  fl_sp5 : jsstring
}.

Definition fieldLead (f : fieldLine) : jsstring :=
  fl_gap f ++ fl_label f ++ fl_sp0 f ++ typeText (fl_type f) ++ fl_sp1 f
    ++ fl_name0 f :: fl_name f ++ fl_sp2 f ++ c_equals :: fl_sp3 f.

Definition fieldTail (f : fieldLine) : jsstring :=
  fl_sp4 f ++ optionsText (fl_options f) ++ fl_sp5 f ++ [c_semicolon].

Definition fieldSource (f : fieldLine) : jsstring :=
  fieldLead f ++ fl_digits f ++ fieldTail f.

Definition fieldRenumbered (n : nat) (f : fieldLine) : jsstring :=
  fieldLead f ++ String_of_nat n ++ fieldTail f.

Definition isPlainTypeChar (c : char) : bool :=
  isTypeChar c && negb (N.eqb c c_lt).

Definition isLabel (s : jsstring) : Prop :=
  s = [] \/ s = str "optional" \/ s = str "required" \/ s = str "repeated".

(** A type name without [<], or a map type whose text between the angle
    brackets has no [>] and no [=]. *)
Definition wellFormedType (t : fieldType) : Prop :=
  match t with
  | PlainType s => allOf isPlainTypeChar s /\ s <> []
  | MapType inner => inner <> [] /\ ~ In c_gt inner /\ ~ In c_equals inner
  end.

Definition wellFormedOptions (o : option jsstring) : Prop :=
  match o with
  | None => True
  | Some s => ~ In c_rbracket s
  end.

Record wellFormedField (f : fieldLine) : Prop := {
  wf_gap : allOf isSpace (fl_gap f);
  wf_label : isLabel (fl_label f);
  wf_sp0 : allOf isSpace (fl_sp0 f);
  wf_type : wellFormedType (fl_type f);
  wf_sp1 : allOf isSpace (fl_sp1 f);
  wf_sp1_ne : fl_sp1 f <> [];
  wf_name0 : isIdentStart (fl_name0 f) = true;
  wf_name : allOf isWordChar (fl_name f);
  wf_sp2 : allOf isSpace (fl_sp2 f);
  wf_sp3 : allOf isSpace (fl_sp3 f);
  wf_digits : allOf isDigit (fl_digits f);
  wf_digits_ne : fl_digits f <> [];
  wf_sp4 : allOf isSpace (fl_sp4 f);
  wf_options : wellFormedOptions (fl_options f);
  wf_sp5 : allOf isSpace (fl_sp5 f)
}.

(** The text of a map type and of the options is lexically well formed
    and has no opening brace. *)
Definition lexical (s : jsstring) : Prop :=
  Lexical.balanced s /\ ~ In c_lbrace s.

Definition lexicalText (o : option jsstring) : Prop :=
  match o with
  | None => True
  | Some s => lexical s
  end.

Definition mapInner (t : fieldType) : option jsstring :=
  match t with
  | PlainType _ => None
  | MapType inner => Some inner
  end.

Definition lexicalField (f : fieldLine) : Prop :=
  lexicalText (mapInner (fl_type f)) /\ lexicalText (fl_options f).

(** The white space before the field holds a line terminator. *)
Definition startsLine (f : fieldLine) : Prop :=
  Exists (fun c => isLineTerminator c = true) (fl_gap f).

Definition sourceOf (fs : list fieldLine) : jsstring :=
  List.concat (map fieldSource fs).

Fixpoint renumberedFrom (n : nat) (fs : list fieldLine) : jsstring :=
  match fs with
  | [] => []
  | f :: fs' => fieldRenumbered n f ++ renumberedFrom (S n) fs'
  end.

(** The offsets of the tags of the fields, the first field at [off]. *)
Fixpoint tokensOf (fs : list fieldLine) (off : nat) : list (nat * nat) :=
  match fs with
  | [] => []
  | f :: fs' =>
      let a := off + List.length (fieldLead f) in
      let b := a + List.length (fl_digits f) in
      (a, b) :: tokensOf fs' (b + List.length (fieldTail f))
  end.

Definition isPrefixChar (c : char) : bool := isSpace c || isTypeChar c.

Definition isSpaceOrWord (c : char) : bool := isSpace c || isWordChar c.

(** What follows the tag of a field, after white space up to offset [P1]:
    the semicolon, or options in brackets, white space and the semicolon
    at offset [P]. *)
Definition tailAt (body : jsstring) (P1 P : nat) : Prop :=
  (nth_error body P1 = Some c_semicolon /\ P = P1)
  \/ (nth_error body P1 = Some c_lbracket
      /\ exists R, P1 < R
                   /\ charsIn body (isNot c_rbracket) (S P1) R
                   /\ nth_error body R = Some c_rbracket
                   /\ R < P
                   /\ charsIn body isSpace (S R) P
                   /\ nth_error body P = Some c_semicolon).

(** Three fields, each on a line of its own: a plain one, one with a label
    and options, and one with a map type. *)
Definition nameField : fieldLine :=
  mkFieldLine (c_lf :: str "  ") [] [] (PlainType (str "string")) (str " ")
              110%N (str "ame") (str " ") (str " ") (str "5") [] None [].

Definition idField : fieldLine :=
  mkFieldLine (c_lf :: str "  ") (str "repeated") (str " ")
              (PlainType (str "int32")) (str " ")
              105%N (str "d") [] [] (str "12") (str " ")
              (Some (str "packed = true")) [].

Definition okField : fieldLine :=
  mkFieldLine [c_lf] [] [] (MapType (str "string, bool")) (str " ")
              111%N (str "k") [] [] (str "13") [] None [].

(** ** The header of a message *)

Definition messageHeader (ws1 : jsstring) (n0 : char) (name ws2 : jsstring)
  : jsstring :=
  str "message" ++ ws1 ++ n0 :: name ++ ws2.

(** The header of a well-formed message: the keyword, white space, a name,
    optional white space. *)
Record wellFormedHeader (ws1 : jsstring) (n0 : char) (name ws2 : jsstring)
  : Prop := {
  wh_ws1 : allOf isSpace ws1;
  wh_ws1_ne : ws1 <> [];
  wh_n0 : isIdentStart n0 = true;
  wh_name : allOf isWordChar name;
  wh_ws2 : allOf isSpace ws2
}.

(** The text ends with a word character. *)
Definition endsWord (before : jsstring) : Prop :=
  exists b c, before = b ++ [c] /\ isWordChar c = true.

(** A field with its tag replaced by the decimal text of [n]. *)
Definition retag (n : nat) (f : fieldLine) : fieldLine :=
  mkFieldLine (fl_gap f) (fl_label f) (fl_sp0 f) (fl_type f) (fl_sp1 f)
              (fl_name0 f) (fl_name f) (fl_sp2 f) (fl_sp3 f)
              (String_of_nat n) (fl_sp4 f) (fl_options f) (fl_sp5 f).

Fixpoint retagFrom (n : nat) (fs : list fieldLine) : list fieldLine :=
  match fs with
  | [] => []
  | f :: fs' => retag n f :: retagFrom (S n) fs'
  end.

(** An offset of a text, seen from the text with [n] more characters in
    front; -1 stays -1. *)
Definition shiftResult (n : nat) (r : Z) : Z :=
  if (r =? -1)%Z then (-1)%Z else (r + Z.of_nat n)%Z.

(** ** A document of messages one after the other *)

(** A message with the text before it: the text, the parts of the header
    and the body between the braces. *)
Record messageBlock := mkBlock {
  mb_before : jsstring;
  mb_ws1 : jsstring;
  mb_n0 : char;
  mb_name : jsstring;
  mb_ws2 : jsstring;
  mb_body : jsstring
}.

Definition blockHead (m : messageBlock) : jsstring :=
  mb_before m ++ messageHeader (mb_ws1 m) (mb_n0 m) (mb_name m) (mb_ws2 m).

Definition blockWith (m : messageBlock) (body : jsstring) : jsstring :=
  blockHead m ++ c_lbrace :: body ++ [c_rbrace].

Definition blockSource (m : messageBlock) : jsstring :=
  blockWith m (mb_body m).

Definition blockResult (m : messageBlock) : jsstring :=
  blockWith m (renumberMessageBody (mb_body m)).

Definition bodyChanged (m : messageBlock) : bool :=
  negb (jsstring_eqb (renumberMessageBody (mb_body m)) (mb_body m)).

(** The text before the message has no opening brace and does not end in
    a word character; the body is lexically well formed and has no opening
    brace, so no message is nested in it. *)
Record wellFormedBlock (m : messageBlock) : Prop := {
  wb_before : ~ In c_lbrace (mb_before m);
  wb_word : ~ endsWord (mb_before m);
  wb_header : wellFormedHeader (mb_ws1 m) (mb_n0 m) (mb_name m) (mb_ws2 m);
  wb_body : ~ In c_lbrace (mb_body m);
  wb_bal : Lexical.balanced (mb_body m)
}.

Definition siblings (ms : list messageBlock) : jsstring :=
  List.concat (map blockSource ms).

Definition siblingsResult (ms : list messageBlock) : jsstring :=
  List.concat (map blockResult ms).

(** The spans of the messages, the first message at offset [off]. *)
Fixpoint spansFrom (off : nat) (ms : list messageBlock) : list range :=
  match ms with
  | [] => []
  | m :: ms' =>
      let ob := off + List.length (blockHead m) in
      mkRange (Z.of_nat ob) (Z.of_nat (ob + 1 + List.length (mb_body m)))
        :: spansFrom (off + List.length (blockSource m)) ms'
  end.

(** A message whose body is a sequence of field declarations. *)
Record fieldMessage := mkFieldMessage {
  fm_before : jsstring;
  fm_ws1 : jsstring;
  fm_n0 : char;
  fm_name : jsstring;
  fm_ws2 : jsstring;
  fm_fields : list fieldLine;
  fm_trail : jsstring
}.

Definition fieldBlock (f : fieldMessage) (body : jsstring) : messageBlock :=
  mkBlock (fm_before f) (fm_ws1 f) (fm_n0 f) (fm_name f) (fm_ws2 f) body.

Definition fieldMessageSource (f : fieldMessage) : jsstring :=
  blockSource (fieldBlock f (sourceOf (fm_fields f) ++ fm_trail f)).

(** The message with its fields numbered from 1. *)
Definition fieldMessageNumbered (f : fieldMessage) : jsstring :=
  blockSource (fieldBlock f (renumberedFrom 1 (fm_fields f) ++ fm_trail f)).

Record wellFormedFieldMessage (f : fieldMessage) : Prop := {
  wfm_before : ~ In c_lbrace (fm_before f);
  wfm_word : ~ endsWord (fm_before f);
  wfm_header : wellFormedHeader (fm_ws1 f) (fm_n0 f) (fm_name f) (fm_ws2 f);
  wfm_fields : Forall wellFormedField (fm_fields f);
  wfm_lexical : Forall lexicalField (fm_fields f);
  wfm_lines : Forall startsLine (tl (fm_fields f));
  wfm_trail : allOf isSpace (fm_trail f)
}.

Definition retagMessage (f : fieldMessage) : fieldMessage :=
  mkFieldMessage (fm_before f) (fm_ws1 f) (fm_n0 f) (fm_name f) (fm_ws2 f)
                 (retagFrom 1 (fm_fields f)) (fm_trail f).

(** A document of such messages, and the document with the fields of
    every message numbered from 1. *)
Definition fieldDocument (fms : list fieldMessage) (after : jsstring)
  : jsstring :=
  List.concat (map fieldMessageSource fms) ++ after.

Definition numberedDocument (fms : list fieldMessage) (after : jsstring)
  : jsstring :=
  List.concat (map fieldMessageNumbered fms) ++ after.

(** A strictly ascending order of the opening offsets. *)
Definition opensBefore (a b : range) : Prop := (open a < open b)%Z.

(** Two messages, the tags of the second continuing those of the first. *)
Definition twoMessages : list fieldMessage :=
  [mkFieldMessage [] (str " ") 65%N [] (str " ") [nameField; idField] [c_lf];
   mkFieldMessage [c_lf] (str " ") 66%N [] [] [okField] [c_lf]].

(** Two messages on one line; the body of the first has a closing brace in
    a line comment, the field of the second has the tag 1 already. *)
Definition commentBlock : messageBlock :=
  mkBlock [] (str " ") 65%N [] (str " ") (str "int32 a = 4; // }" ++ [c_lf]).

Definition numberedBlock : messageBlock :=
  mkBlock (str " ") (str " ") 66%N [] [] (str "bool b = 1;").

(** ** What a run can change *)

(** The text without its decimal digits. *)
Definition nonDigits (s : jsstring) : jsstring :=
  filter (fun c => negb (isDigit c)) s.

(** No opening brace before offset [p]. *)
Definition noBraceBefore (text : jsstring) (p : nat) : Prop :=
  forall k, k < p -> nth_error text k <> Some c_lbrace.

(** [text.startsWith(s)] and [text.includes(s)]. *)
Fixpoint startsWith (s text : jsstring) : bool :=
  match s, text with
  | [], _ => true
  | c :: s', d :: text' => N.eqb c d && startsWith s' text'
  | _ :: _, [] => false
  end.

Fixpoint includes (s text : jsstring) : bool :=
  startsWith s text
  || match text with
     | [] => false
     | _ :: text' => includes s text'
     end.

(** ** Bodies of field declarations and line comments *)













(** * Properties of the brace matcher *)

Module BraceFacts.

Import Brace.
Local Open Scope Z_scope.

Lemma modeOf_normal (s : scan) : modeOf s = Normal <-> normal s = true.
Proof.
  unfold modeOf, normal.
  destruct (inSingleLineComment s), (inMultiLineComment s),
    (inDoubleQuote s), (inSingleQuote s); simpl; split; congruence.
Qed.

Ltac step_cases :=
  repeat match goal with
         | |- context [if ?b then _ else _] => destruct b eqn:?
         end.

Ltac unfold_step s :=
  unfold step, braces, advance, normal;
  destruct s as [p d slc mlc dq sq]; simpl;
  destruct slc, mlc, dq, sq; simpl.

Lemma step_advances (text : jsstring) (s s' : scan) :
  step text s = Continue s' -> i s + 1 <= i s' <= i s + 2.
Proof.
  revert s'. unfold_step s; intros s'; step_cases; intros H;
    inversion H; subst; simpl; lia.
Qed.

Lemma step_keeps_depth_outside_normal (text : jsstring) (s : scan) :
  normal s = false ->
  exists s', step text s = Continue s' /\ depth s' = depth s.
Proof.
  unfold_step s; intros H; try discriminate; step_cases;
    eexists; (split; [reflexivity | reflexivity]).
Qed.

Lemma step_depth_change (text : jsstring) (s s' : scan) :
  step text s = Continue s' -> depth s' <> depth s ->
  normal s = true
  /\ ((charAt text (i s) = Some c_lbrace /\ depth s' = depth s + 1)
      \/ (charAt text (i s) = Some c_rbrace /\ depth s' = depth s - 1)).
Proof.
  revert s'. unfold_step s; intros s';
    destruct (charAt text p) as [a|] eqn:Ha; simpl; step_cases; intros H;
    inversion H; subst; simpl; intros Hd; try congruence;
    (split; [reflexivity|]);
    repeat match goal with
           | E : N.eqb _ _ = true |- _ => apply N.eqb_eq in E; subst
           end;
    try (left; split; [reflexivity | lia]);
    try (right; split; [reflexivity | lia]).
Qed.

Lemma step_return (text : jsstring) (s : scan) (r : Z) :
  step text s = Return r ->
  r = i s /\ charAt text (i s) = Some c_rbrace /\ depth s = 1
  /\ normal s = true.
Proof.
  unfold_step s; destruct (charAt text p) as [a|] eqn:Ha; simpl; step_cases;
    intros H; inversion H; subst;
    repeat match goal with
           | E : N.eqb _ _ = true |- _ => apply N.eqb_eq in E; subst
           | E : (_ =? _) = true |- _ => apply Z.eqb_eq in E
           end;
    repeat split; try reflexivity; lia.
Qed.

Lemma step_depth_positive (text : jsstring) (s s' : scan) :
  1 <= depth s -> step text s = Continue s' -> 1 <= depth s'.
Proof.
  revert s'. unfold_step s; intros s' Hd; step_cases; intros H;
    inversion H; subst; simpl;
    repeat match goal with
           | E : (_ =? _) = false |- _ => apply Z.eqb_neq in E
           end; lia.
Qed.

(** [len - i] iterations are enough for the loop to end. *)
Lemma loop_total (fuel : nat) : forall (text : jsstring) (s : scan),
  jslength text - i s <= Z.of_nat fuel ->
  exists r, loop fuel text s = Some r.
Proof.
  induction fuel as [|fuel IH]; intros text s Hf; simpl.
  - destruct (i s <? jslength text) eqn:E; [apply Z.ltb_lt in E; lia|].
    eexists; reflexivity.
  - destruct (i s <? jslength text) eqn:E; [|eexists; reflexivity].
    destruct (step text s) as [s'|r] eqn:Hs; [|eexists; reflexivity].
    apply IH. apply step_advances in Hs. lia.
Qed.

Lemma findMatchingBrace_opt_total (text : jsstring) (openPos : Z) :
  exists r, findMatchingBrace_opt text openPos = Some r.
Proof.
  apply loop_total. unfold fuelFor, init; simpl. lia.
Qed.

Lemma findMatchingBrace_eq (text : jsstring) (openPos : Z) :
  findMatchingBrace_opt text openPos = Some (findMatchingBrace text openPos).
Proof.
  unfold findMatchingBrace.
  destruct (findMatchingBrace_opt_total text openPos) as [r ->]. reflexivity.
Qed.

(** Every visited state is a state in which [step] is run: the pairs of
    consecutive states of a scan are the pairs [(s, s')] with
    [step text s = Continue s'] for a visited [s]. *)
Lemma visited_in_range (fuel : nat) : forall text s0 s,
  In s (visited fuel text s0) -> i s0 <= i s < jslength text.
Proof.
  induction fuel as [|fuel IH]; intros text s0 s; simpl;
    destruct (i s0 <? jslength text) eqn:E; simpl; try tauto.
  apply Z.ltb_lt in E. intros [<-|H]; [lia|].
  destruct (step text s0) as [s1|r] eqn:Hs; [|destruct H].
  apply IH in H. apply step_advances in Hs. lia.
Qed.

(** The scan from a state of positive depth: what a returned offset is. *)
Lemma loop_returns_closing (fuel : nat) : forall text s r,
  1 <= depth s ->
  loop fuel text s = Some r -> r <> -1 ->
  i s <= r
  /\ charAt text r = Some c_rbrace
  /\ (forall s', In s' (visited fuel text s) -> 1 <= depth s' /\ i s' <= r)
  /\ (exists z, In z (visited fuel text s)
                /\ i z = r /\ depth z = 1 /\ normal z = true
                /\ step text z = Return r).
Proof.
  induction fuel as [|fuel IH]; intros text s r Hd; simpl;
    destruct (i s <? jslength text) eqn:E; try congruence.
  destruct (step text s) as [s1|r1] eqn:Hs.
  - intros Hl Hr.
    pose proof (step_advances _ _ _ Hs) as Ha.
    pose proof (step_depth_positive _ _ _ Hd Hs) as Hd1.
    destruct (IH text s1 r Hd1 Hl Hr) as (H1 & H2 & H3 & z & Hz & Hz').
    split; [lia|]. split; [exact H2|]. split.
    + intros s' [<-|Hin]; [split; [exact Hd | lia] | apply H3; exact Hin].
    + exists z. split; [right; exact Hz | exact Hz'].
  - intros Hl Hr. inversion Hl; subst r1.
    destruct (step_return _ _ _ Hs) as (-> & Hc & Hd' & Hn).
    split; [lia|]. split; [exact Hc|]. split.
    + intros s' [<-|[]]. split; lia.
    + exists s. split; [left; reflexivity|]. repeat split; assumption.
Qed.

Lemma charAt_Some_range (text : jsstring) (k : Z) (c : char) :
  charAt text k = Some c -> 0 <= k < jslength text.
Proof.
  unfold charAt, jslength. destruct (k <? 0) eqn:E; [discriminate|].
  apply Z.ltb_ge in E. intros H.
  assert (nth_error text (Z.to_nat k) <> None) as Hn by congruence.
  apply nth_error_Some in Hn. lia.
Qed.

Lemma first_step_opens (text : jsstring) (openPos : Z) :
  charAt text openPos = Some c_lbrace ->
  step text (init openPos) = Continue (mkScan (openPos + 1) 1 false false false false).
Proof.
  intros H. unfold step, init, normal; simpl. rewrite H. reflexivity.
Qed.

End BraceFacts.

(** * The matcher and its relational reading *)

Module RegExpFacts.

Section Denote.

Variable input : jsstring.

Lemma repeat_sound (m : matcher) (R : mstate -> mstate -> Prop) :
  (forall x c res, m x c = Matched res -> exists y, R x y /\ c y = Matched res) ->
  forall fuel x c res,
    repeatMatcher m fuel x c = Matched res ->
    exists y, iter R x y /\ c y = Matched res.
Proof.
  intros Hm. induction fuel as [|fuel IH]; intros x c res; simpl;
    [discriminate|].
  destruct (m x _) as [|z|] eqn:E; intros H; try discriminate.
  - exists x. split; [constructor | exact H].
  - inversion H; subst z. apply Hm in E. destruct E as (y1 & Hy1 & Hd).
    destruct (Nat.eqb (endIndex y1) (endIndex x)) eqn:Ee; [discriminate|].
    apply Nat.eqb_neq in Ee.
    apply IH in Hd. destruct Hd as (y & Hy & Hc).
    exists y. split; [econstructor; eassumption | exact Hc].
Qed.

(** Soundness of the backtracking search. *)
Lemma compile_sound (r : regex) : forall x c res,
  compile input r x c = Matched res ->
  exists y, denote input r x y /\ c y = Matched res.
Proof.
  induction r as [|ch|p|a IHa b IHb|a IHa b IHb|r IH|r IH|r IH|n r IH| |];
    intros x c res; cbn [compile].
  - intros H. exists x. split; [reflexivity | exact H].
  - destruct (nth_error input (endIndex x)) as [a|] eqn:E; [|discriminate].
    destruct (N.eqb a ch) eqn:Ea; [|discriminate].
    apply N.eqb_eq in Ea; subst a. intros H. exists (consume x).
    split; [split; [exact E | reflexivity] | exact H].
  - destruct (nth_error input (endIndex x)) as [a|] eqn:E; [|discriminate].
    destruct (p a) eqn:Ea; [|discriminate].
    intros H. exists (consume x).
    split; [exists a; repeat split; assumption | exact H].
  - intros H. apply IHa in H. destruct H as (z & Hz & H).
    apply IHb in H. destruct H as (y & Hy & H).
    exists y. split; [exists z; split; assumption | exact H].
  - destruct (compile input a x c) as [|z|] eqn:E; intros H;
      try discriminate.
    + apply IHb in H. destruct H as (y & Hy & H).
      exists y. split; [right; exact Hy | exact H].
    + rewrite H in E. apply IHa in E. destruct E as (y & Hy & E).
      exists y. split; [left; exact Hy | exact E].
  - intros H. eapply repeat_sound in H; [exact H | exact IH].
  - intros H. apply IH in H. destruct H as (z & Hz & H).
    eapply repeat_sound in H; [|exact IH]. destruct H as (y & Hy & H).
    exists y. split; [exists z; split; assumption | exact H].
  - destruct (compile input r x _) as [|z|] eqn:E; intros H;
      try discriminate.
    + exists x. split; [left; reflexivity | exact H].
    + rewrite H in E. apply IH in E. destruct E as (y & Hy & E).
      destruct (Nat.eqb (endIndex y) (endIndex x)); [discriminate|].
      exists y. split; [right; exact Hy | exact E].
  - intros H. apply IH in H. destruct H as (z & Hz & H).
    eexists. split; [exists z; split; [exact Hz | reflexivity] | exact H].
  - destruct (atLineStart input (endIndex x)) eqn:E; [|discriminate].
    intros H. exists x. split; [split; [exact E | reflexivity] | exact H].
  - destruct (atWordBoundary input (endIndex x)) eqn:E; [|discriminate].
    intros H. exists x. split; [split; [exact E | reflexivity] | exact H].
Qed.

Lemma iter_mono (R : mstate -> mstate -> Prop) :
  (forall x y, R x y -> endIndex x <= endIndex y) ->
  forall x y, iter R x y -> endIndex x <= endIndex y.
Proof.
  intros HR x y H. induction H as [|x y z Hxy _ _ IH]; [lia|].
  apply HR in Hxy. lia.
Qed.

(** A match never moves backwards. *)
Lemma denote_mono (r : regex) : forall x y,
  denote input r x y -> endIndex x <= endIndex y.
Proof.
  induction r as [|ch|p|a IHa b IHb|a IHa b IHb|r IH|r IH|r IH|n r IH| |];
    intros x y; simpl.
  - intros ->. lia.
  - intros [_ ->]. simpl. lia.
  - intros (a & _ & _ & ->). simpl. lia.
  - intros (z & Ha & Hb). apply IHa in Ha. apply IHb in Hb. lia.
  - intros [H|H]; auto.
  - apply iter_mono. exact IH.
  - intros (z & Hz & H). apply IH in Hz.
    apply (iter_mono _ IH) in H. lia.
  - intros [->|H]; [lia | auto].
  - intros (z & Hz & ->). apply IH in Hz. simpl. lia.
  - intros [_ ->]. lia.
  - intros [_ ->]. lia.
Qed.

Lemma iter_captures (R : mstate -> mstate -> Prop) :
  (forall x y, R x y -> captures y = captures x) ->
  forall x y, iter R x y -> captures y = captures x.
Proof.
  intros HR x y H. induction H as [|x y z Hxy _ _ IH]; [reflexivity|].
  apply HR in Hxy. congruence.
Qed.

(** A pattern without groups leaves the captures alone. *)
Lemma denote_captures (r : regex) : groupFree r -> forall x y,
  denote input r x y -> captures y = captures x.
Proof.
  induction r as [|ch|p|a IHa b IHb|a IHa b IHb|r IH|r IH|r IH|n r IH| |];
    simpl; intros G x y.
  - intros ->. reflexivity.
  - intros [_ ->]. reflexivity.
  - intros (a & _ & _ & ->). reflexivity.
  - destruct G as [Ga Gb]. intros (z & Ha & Hb).
    apply (IHa Ga) in Ha. apply (IHb Gb) in Hb. congruence.
  - destruct G as [Ga Gb]. intros [H|H]; auto.
  - apply iter_captures. exact (IH G).
  - intros (z & Hz & H). apply (IH G) in Hz.
    apply (iter_captures _ (IH G)) in H. congruence.
  - intros [->|H]; [reflexivity | auto].
  - destruct G.
  - intros [_ ->]. reflexivity.
  - intros [_ ->]. reflexivity.
Qed.

(** What a run of one character class has consumed. *)
Lemma iter_class (p : char -> bool) : forall x y,
  iter (denote input (Class p)) x y ->
  forall k, endIndex x <= k < endIndex y ->
            exists a, nth_error input k = Some a /\ p a = true.
Proof.
  intros x y H. induction H as [x|x y z Hxy _ _ IH]; intros k Hk; [lia|].
  destruct Hxy as (a & Ha & Hp & ->). simpl in *.
  destruct (Nat.eq_dec k (endIndex x)) as [->|Hne].
  - exists a. auto.
  - apply IH. lia.
Qed.

(** The matcher does not run out of iterations. *)
Lemma repeat_total (m : matcher) :
  (forall x c, endIndex x <= inputLength input ->
               (forall y, endIndex x <= endIndex y <= inputLength input ->
                          c y <> Exhausted) ->
               m x c <> Exhausted) ->
  forall fuel x c,
    endIndex x <= inputLength input ->
    inputLength input < fuel + endIndex x ->
    (forall y, endIndex x <= endIndex y <= inputLength input ->
               c y <> Exhausted) ->
    repeatMatcher m fuel x c <> Exhausted.
Proof.
  intros Hm. induction fuel as [|fuel IH]; intros x c Hx Hf Hc; simpl;
    [lia|].
  destruct (m x _) as [|z|] eqn:E; [apply Hc; lia | discriminate |].
  exfalso. revert E. apply Hm; [exact Hx|].
  intros y Hy. destruct (Nat.eqb (endIndex y) (endIndex x)) eqn:Ee;
    [discriminate|].
  apply Nat.eqb_neq in Ee. apply IH; [lia | lia |].
  intros y' Hy'. apply Hc. lia.
Qed.

Lemma compile_total (r : regex) : forall x c,
  endIndex x <= inputLength input ->
  (forall y, endIndex x <= endIndex y <= inputLength input ->
             c y <> Exhausted) ->
  compile input r x c <> Exhausted.
Proof.
  induction r as [|ch|p|a IHa b IHb|a IHa b IHb|r IH|r IH|r IH|n r IH| |];
    intros x c Hx Hc; cbn [compile].
  - apply Hc. lia.
  - destruct (nth_error input (endIndex x)) as [a|] eqn:E; [|discriminate].
    destruct (N.eqb a ch); [|discriminate].
    assert (nth_error input (endIndex x) <> None) as Hn by congruence.
    apply nth_error_Some in Hn. apply Hc. unfold inputLength. simpl. lia.
  - destruct (nth_error input (endIndex x)) as [a|] eqn:E; [|discriminate].
    destruct (p a); [|discriminate].
    assert (nth_error input (endIndex x) <> None) as Hn by congruence.
    apply nth_error_Some in Hn. apply Hc. unfold inputLength. simpl. lia.
  - apply IHa; [exact Hx|]. intros y Hy. apply IHb; [lia|].
    intros z Hz. apply Hc. lia.
  - destruct (compile input a x c) as [|z|] eqn:E; [|discriminate|].
    + apply IHb; assumption.
    + exfalso. revert E. apply IHa; assumption.
  - apply repeat_total; [exact IH | exact Hx | unfold iterations; lia
                        | exact Hc].
  - apply IH; [exact Hx|]. intros y Hy.
    apply repeat_total; [exact IH | lia | unfold iterations; lia |].
    intros z Hz. apply Hc. lia.
  - destruct (compile input r x _) as [|z|] eqn:E; [|discriminate|].
    + apply Hc. lia.
    + exfalso. revert E. apply IH; [exact Hx|]. intros y Hy.
      destruct (Nat.eqb (endIndex y) (endIndex x)); [discriminate|].
      apply Hc. exact Hy.
  - apply IH; [exact Hx|]. intros y Hy. apply Hc. simpl. exact Hy.
  - destruct (atLineStart input (endIndex x)); [|discriminate].
    apply Hc. lia.
  - destruct (atWordBoundary input (endIndex x)); [|discriminate].
    apply Hc. lia.
Qed.


(** *** [exec] and the results of a global search *)

Lemma tryFrom_spec (r : regex) (n : nat) : forall index found y,
  tryFrom input r n index = Some (found, y) ->
  index <= found < index + n /\ matchAt input r found = Matched y.
Proof.
  induction n as [|n IH]; intros index found y; simpl; [discriminate|].
  destruct (matchAt input r index) as [|z|] eqn:E; intros H;
    try (apply IH in H; destruct H as [H1 H2]; split; [lia | exact H2]).
  inversion H; subst. split; [lia | exact E].
Qed.

Lemma tryFrom_none (r : regex) (n : nat) : forall index,
  (forall k y, index <= k < index + n -> matchAt input r k <> Matched y) ->
  tryFrom input r n index = None.
Proof.
  induction n as [|n IH]; intros index H; simpl; [reflexivity|].
  destruct (matchAt input r index) as [|z|] eqn:E;
    try (apply IH; intros k y Hk; apply H; lia).
  exfalso. apply (H index z); [lia | exact E].
Qed.

Lemma exec_spec (r : regex) (lastIndex found : nat) (y : mstate) :
  exec input r lastIndex = Some (found, y) ->
  lastIndex <= found <= inputLength input
  /\ matchAt input r found = Matched y
  /\ found <= endIndex y.
Proof.
  unfold exec. intros H. apply tryFrom_spec in H. destruct H as [H1 H2].
  split; [lia|]. split; [exact H2|].
  apply compile_sound in H2. destruct H2 as (y' & Hd & Hy).
  inversion Hy; subst y'. apply denote_mono in Hd. exact Hd.
Qed.

Lemma chain_weaken (r : regex) (a b : nat) (rs : list (nat * mstate)) :
  chain input r b rs -> a <= b -> chain input r a rs.
Proof.
  intros H Hab. destruct H; constructor; try assumption. lia.
Qed.

Lemma collect_chain (r : regex) (fuel : nat) : forall lastIndex rs,
  collect input fuel r lastIndex = Some rs -> chain input r lastIndex rs.
Proof.
  induction fuel as [|fuel IH]; intros lastIndex rs; simpl;
    destruct (exec input r lastIndex) as [[found y]|] eqn:E;
    intros H; try discriminate; try (inversion H; constructor).
  destruct (collect input fuel r _) as [rs'|] eqn:Ec; [|discriminate].
  inversion H; subst rs. apply exec_spec in E. destruct E as (E1 & E2 & E3).
  constructor; try assumption; [lia|].
  apply IH in Ec. eapply chain_weaken; [exact Ec|].
  destruct (Nat.eqb (endIndex y) found); lia.
Qed.

Lemma collect_total (r : regex) (fuel : nat) : forall lastIndex,
  S (inputLength input) - lastIndex <= fuel ->
  exists rs, collect input fuel r lastIndex = Some rs.
Proof.
  induction fuel as [|fuel IH]; intros lastIndex Hf; simpl;
    destruct (exec input r lastIndex) as [[found y]|] eqn:E;
    try (eexists; reflexivity).
  - apply exec_spec in E. lia.
  - apply exec_spec in E. destruct E as (E1 & _ & E3).
    destruct (IH (if Nat.eqb (endIndex y) found then S (endIndex y)
                  else endIndex y)) as [rs Hrs].
    + destruct (Nat.eqb (endIndex y) found) eqn:Ee;
        [apply Nat.eqb_eq in Ee | apply Nat.eqb_neq in Ee]; lia.
    + rewrite Hrs. eexists; reflexivity.
Qed.

(** *** Substrings *)

Lemma substring_app (a b c : nat) :
  a <= b <= c ->
  substring input a b ++ substring input b c = substring input a c.
Proof.
  intros H. unfold substring.
  replace (skipn b input) with (skipn (b - a) (skipn a input))
    by (rewrite skipn_skipn; f_equal; lia).
  replace (c - a) with ((b - a) + (c - b)) by lia.
  generalize (skipn a input) as l. generalize (b - a) as n.
  generalize (c - b) as m. clear.
  intros m n. induction n as [|n IH]; intros l; simpl; [reflexivity|].
  destruct l as [|x l]; simpl.
  - rewrite firstn_nil. reflexivity.
  - rewrite IH. reflexivity.
Qed.

Lemma substring_to_end (a : nat) :
  substring input a (inputLength input) = skipn a input.
Proof.
  unfold substring, inputLength. apply firstn_all2.
  rewrite length_skipn. lia.
Qed.

End Denote.

End RegExpFacts.

(** * Properties of the field renumberer *)

Module FieldFacts.

Import RegExpFacts.

Section Body.

Variable body : jsstring.

Lemma fieldNumber_groupFree : groupFree fieldNumber.
Proof. exact I. Qed.

Lemma fieldSuffix_groupFree : groupFree fieldSuffix.
Proof. simpl. tauto. Qed.

(** The three groups of a match lie side by side and cover it. *)
Lemma field_match_shape (found : nat) (y : mstate) :
  matchAt body fieldRegex found = Matched y ->
  exists a b,
    captures y 1 = Some (found, a)
    /\ captures y 2 = Some (a, b)
    /\ captures y 3 = Some (b, endIndex y)
    /\ found <= a /\ a < b /\ b <= endIndex y
    /\ (forall k, a <= k < b ->
                  exists d, nth_error body k = Some d /\ isDigit d = true).
Proof.
  intros H. apply compile_sound in H. destruct H as (y' & Hd & Hy).
  inversion Hy; subst y'; clear Hy.
  destruct Hd as (z1 & (w1 & Hp & ->) & z2 & (w2 & Hn & ->) & w3 & Hs & ->).
  pose proof (denote_mono _ _ _ _ Hp) as Mp.
  pose proof (denote_mono _ _ _ _ Hn) as Mn.
  pose proof (denote_mono _ _ _ _ Hs) as Ms.
  pose proof (denote_captures _ _ fieldNumber_groupFree _ _ Hn) as Cn.
  pose proof (denote_captures _ _ fieldSuffix_groupFree _ _ Hs) as Cs.
  simpl in Mp, Mn, Ms, Cn, Cs.
  destruct Hn as (z & (d & Hd & Hdig & ->) & Hit).
  pose proof (iter_mono _ (denote_mono body (Class isDigit)) _ _ Hit) as Mi.
  pose proof (iter_class body _ _ _ Hit) as Hall.
  simpl in Mi, Hall, Hd.
  exists (endIndex w1), (endIndex w2). simpl.
  rewrite Cs. simpl. rewrite Cn. simpl.
  repeat split; try lia.
  intros k Hk. destruct (Nat.eq_dec k (endIndex w1)) as [->|Hne].
  - exists d. auto.
  - apply Hall. lia.
Qed.

Lemma accumulate_splice (rs : list (nat * mstate)) :
  forall counter next from,
    from <= next -> chain body fieldRegex next rs ->
    substring body from next ++ accumulate body renumberField rs counter next
    = spliceTokens body (map numberToken rs) counter from.
Proof.
  induction rs as [|[found y] rs IH]; intros counter next from Hf Hc; simpl.
  - rewrite substring_to_end.
    unfold substring.
    replace (skipn next body) with (skipn (next - from) (skipn from body))
      by (rewrite skipn_skipn; f_equal; lia).
    apply firstn_skipn.
  - inversion Hc as [|? ? ? ? Hle Hm He Hrest]; subst.
    destruct (field_match_shape _ _ Hm) as (a & b & C1 & C2 & C3 & H1 & H2 & H3 & _).
    unfold numberToken at 1. simpl. rewrite C2.
    unfold captureText. rewrite C1, C3. simpl.
    destruct (Nat.leb_spec next found) as [_|Hlt]; [|lia].
    rewrite <- (IH (S counter) (endIndex y) b H3 Hrest).
    rewrite <- (substring_app body from next a) by lia.
    rewrite <- (substring_app body next found a) by lia.
    repeat rewrite <- app_assoc. reflexivity.
Qed.

Lemma chain_tokens (rs : list (nat * mstate)) : forall next from,
  from <= next -> chain body fieldRegex next rs ->
  tokensFrom body from (map numberToken rs).
Proof.
  induction rs as [|[found y] rs IH]; intros next from Hf Hc; simpl;
    [exact I|].
  inversion Hc as [|? ? ? ? Hle Hm He Hrest]; subst.
  destruct (field_match_shape _ _ Hm) as (a & b & C1 & C2 & C3 & H1 & H2 & H3 & Hd).
  unfold numberToken at 1. simpl. rewrite C2.
  split; [lia|]. split; [exact H2|]. split; [exact Hd|].
  apply (IH (endIndex y)); [exact H3 | exact Hrest].
Qed.


Lemma renumberMessageBody_splice :
  renumberMessageBody body = spliceTokens body (numberTokens body) 1 0.
Proof.
  unfold renumberMessageBody, renumberMessageBody_opt, replace_opt,
    numberTokens, results.
  destruct (collect_total body fieldRegex (S (inputLength body)) 0) as [rs Hrs];
    [lia|].
  rewrite Hrs. simpl.
  apply collect_chain in Hrs.
  rewrite <- (accumulate_splice rs 1 0 0 (Nat.le_refl 0) Hrs).
  reflexivity.
Qed.

Lemma numberTokens_ok : tokensFrom body 0 (numberTokens body).
Proof.
  unfold numberTokens, results.
  destruct (collect body _ fieldRegex 0) as [rs|] eqn:Hrs; [|exact I].
  apply collect_chain in Hrs.
  exact (chain_tokens rs 0 0 (Nat.le_refl 0) Hrs).
Qed.

(** *** Where a match can begin *)

Lemma isTypeChar_range (c : char) :
  isTypeChar c = true -> (46 <= c <= 122)%N.
Proof.
  unfold isTypeChar, isLetter, isUpper, isLower, isDigit, between.
  rewrite !orb_true_iff, !andb_true_iff, !N.eqb_eq, !N.leb_le. lia.
Qed.

Lemma isSpace_range (c : char) :
  isSpace c = true -> (c <= 32 \/ 160 <= c)%N.
Proof.
  unfold isSpace, isLineTerminator, between.
  rewrite !orb_true_iff, !andb_true_iff, !N.eqb_eq, !N.leb_le. lia.
Qed.

Lemma space_not_typeChar (c : char) : isSpace c = true -> isTypeChar c = false.
Proof.
  intros Hs. destruct (isTypeChar c) eqn:Ht; [|reflexivity].
  apply isTypeChar_range in Ht. apply isSpace_range in Hs. lia.
Qed.

Lemma litChars_first (c : char) (s : jsstring) (x y : mstate) :
  denote body (litChars (c :: s)) x y -> nth_error body (endIndex x) = Some c.
Proof.
  destruct s as [|c' s]; simpl.
  - intros [H _]. exact H.
  - intros (z & [H _] & _). exact H.
Qed.

(** A match begins at a line start, and the first character after the
    white space there belongs to a label or a type. *)
Lemma field_match_start (found : nat) (y : mstate) :
  matchAt body fieldRegex found = Matched y ->
  atLineStart body found = true
  /\ exists q a, found <= q /\ spacesBetween body found q
                 /\ nth_error body q = Some a /\ isTypeChar a = true.
Proof.
  intros H. apply compile_sound in H. destruct H as (y' & Hd & _).
  destruct Hd as (z1 & (w1 & Hp & _) & _).
  destruct Hp as (z0 & [Hb ->] & x1 & Hw1 & x2 & Hopt & x3 & Hw2 & x4 & Hty & _).
  simpl in Hb. split; [exact Hb|].
  pose proof (iter_mono _ (denote_mono body ws) _ _ Hw1) as M1.
  pose proof (iter_class body _ _ _ Hw1) as S1.
  pose proof (iter_mono _ (denote_mono body ws) _ _ Hw2) as M2.
  pose proof (iter_class body _ _ _ Hw2) as S2.
  simpl in M1, S1.
  destruct Hopt as [->|Hlabel].
  - assert (exists a, nth_error body (endIndex x3) = Some a
                      /\ isTypeChar a = true) as (a & Ha & Ht).
    { destruct Hty as [Hmap|Hplus].
      - destruct Hmap as (z & Hl & _).
        apply (litChars_first 109%N (str "ap<")) in Hl.
        exists 109%N. split; [exact Hl | reflexivity].
      - destruct Hplus as (z & (a & Ha & Ht & _) & _). exists a. auto. }
    exists (endIndex x3), a. split; [lia|]. split; [|auto].
    intros k Hk. destruct (Nat.lt_ge_cases k (endIndex x1)).
    + apply S1. lia.
    + apply S2. lia.
  - assert (exists a, nth_error body (endIndex x1) = Some a
                      /\ isTypeChar a = true) as (a & Ha & Ht).
    { destruct Hlabel as [Hl|[Hl|Hl]].
      - apply (litChars_first 111%N (str "ptional")) in Hl.
        exists 111%N. split; [exact Hl | reflexivity].
      - apply (litChars_first 114%N (str "equired")) in Hl.
        exists 114%N. split; [exact Hl | reflexivity].
      - apply (litChars_first 114%N (str "epeated")) in Hl.
        exists 114%N. split; [exact Hl | reflexivity]. }
    exists (endIndex x1), a. split; [lia|]. split; [|auto].
    intros k Hk. apply S1. lia.
Qed.


Lemma no_results :
  (forall k y, k <= inputLength body -> matchAt body fieldRegex k <> Matched y) ->
  renumberMessageBody body = body.
Proof.
  intros H.
  unfold renumberMessageBody, renumberMessageBody_opt, replace_opt, results.
  assert (exec body fieldRegex 0 = None) as E.
  { unfold exec. apply tryFrom_none. intros k y Hk. apply H. lia. }
  simpl. rewrite E. simpl. rewrite substring_to_end. reflexivity.
Qed.

End Body.


End FieldFacts.

(** * Properties of the span finder *)

Module SpanFacts.

Import Brace BraceFacts RegExpFacts.

(** The scan reports [-1] exactly when no iteration returns: the buffer
    ends first. *)
Lemma loop_not_found (fuel : nat) : forall text s,
  (jslength text - i s <= Z.of_nat fuel)%Z ->
  (loop fuel text s = Some (-1)%Z
   <-> forall z, In z (visited fuel text s) ->
                 exists z', step text z = Continue z').
Proof.
  induction fuel as [|fuel IH]; intros text s Hf; simpl;
    destruct (i s <? jslength text)%Z eqn:E;
    try (apply Z.ltb_lt in E; lia);
    try (split; [intros _ z [] | reflexivity]).
  destruct (step text s) as [s1|r] eqn:Hs.
  - pose proof (step_advances _ _ _ Hs) as Ha.
    rewrite (IH text s1) by lia. split.
    + intros H z [<-|Hz]; [eexists; exact Hs | apply H; exact Hz].
    + intros H z Hz. apply H. right. exact Hz.
  - split.
    + intros H. inversion H; subst r.
      apply step_return in Hs. destruct Hs as (Hi & Hc & _).
      apply charAt_Some_range in Hc. lia.
    + intros H. destruct (H s (or_introl eq_refl)) as [z' Hz'].
      congruence.
Qed.

Lemma findMatchingBrace_not_found (text : jsstring) (openPos : Z) :
  findMatchingBrace text openPos = (-1)%Z
  <-> forall z, In z (scanStates text openPos) ->
                exists z', step text z = Continue z'.
Proof.
  rewrite <- (loop_not_found (fuelFor text openPos) text (init openPos))
    by (unfold fuelFor, init; simpl; lia).
  fold (findMatchingBrace_opt text openPos).
  rewrite findMatchingBrace_eq. split; congruence.
Qed.

Section Text.

Variable text : jsstring.

(** A match of the message pattern is not empty. *)
Lemma msg_match_nonempty (found : nat) (y : mstate) :
  matchAt text msgRegex found = Matched y -> found < endIndex y.
Proof.
  intros H. apply compile_sound in H. destruct H as (y' & Hd & Hy).
  inversion Hy; subst y'; clear Hy.
  destruct Hd as (z0 & [_ ->] & z1 & Hl & Hrest).
  change (lit "message") with (Seq (Chr 109%N) (lit "essage")) in Hl.
  destruct Hl as (z & [_ ->] & Hl).
  apply denote_mono in Hl.
  change (exists z2, denote text (Plus ws) z1 z2 /\ _)
    with (denote text (Seq (Plus ws)
            (Seq (Group 1 (Seq (Class isIdentStart) (Star (Class isWordChar))))
                 (Seq (Star ws) (Chr c_lbrace)))) z1 y) in Hrest.
  apply denote_mono in Hrest. simpl in *. lia.
Qed.


(** Every recorded span has a matched closing brace. *)
Lemma findRanges_sound (fuel : nat) : forall lastIndex l,
  findRanges fuel text lastIndex = Some l ->
  forall r, In r l ->
            close r <> (-1)%Z /\ findMatchingBrace text (open r) = close r.
Proof.
  induction fuel as [|fuel IH]; intros lastIndex l; simpl;
    destruct (exec text msgRegex lastIndex) as [[found y]|] eqn:E;
    intros H; try discriminate;
    try (inversion H; subst l; intros r []).
  destruct (findMatchingBrace text _ =? -1)%Z eqn:Ec.
  - exact (IH _ _ H).
  - destruct (findRanges fuel text (found + 1)) as [l'|] eqn:El;
      [|discriminate].
    inversion H; subst l. intros r [<-|Hr].
    + simpl. apply Z.eqb_neq in Ec. split; [exact Ec | reflexivity].
    + exact (IH _ _ El r Hr).
Qed.

Lemma findMessageSpans_sound (r : range) :
  In r (findMessageSpans text) ->
  close r <> (-1)%Z /\ findMatchingBrace text (open r) = close r.
Proof.
  unfold findMessageSpans, findMessageSpans_opt.
  destruct (findRanges _ text 0) as [l|] eqn:E; [|intros []].
  exact (findRanges_sound _ _ _ E r).
Qed.

End Text.

Lemma In_insertRange (x r : range) (l : list range) :
  In r (insertRange x l) <-> r = x \/ In r l.
Proof.
  induction l as [|y l IH]; simpl.
  - split; intros [H|H]; auto.
  - destruct (compareRanges x y <=? 0)%Z; simpl.
    + split; intros [H|H]; auto.
    + rewrite IH. split; intros [H|[H|H]]; auto.
Qed.

Lemma In_sortRanges (r : range) (l : list range) :
  In r (sortRanges l) <-> In r l.
Proof.
  induction l as [|x l IH]; simpl; [tauto|].
  rewrite In_insertRange, IH. split; intros [H|H]; auto.
Qed.

End SpanFacts.

(** * The properties of the specification *)

Import Brace BraceFacts RegExpFacts FieldFacts SpanFacts.

(** C1 (sequentiality), evaluated on a nested document laid out in lines.
    The body of [Outer] is renumbered after the body of [Inner] and with
    one counter for all the field lines it contains, those of [Inner]
    included: the only direct field of [Outer], [y], gets the tag 2 and not
    the tag 1 that the claim requires. *)
Theorem nested_fields_share_the_outer_counter :
  processProtoText nestedLines
  = (unlines ["message Outer {";
              "  message Inner {";
              "    int32 x = 1;";
              "  }";
              "  int32 y = 2;";
              "}"]%string, true).
Proof. vm_compute. reflexivity. Qed.

(** C2, as stated: on the one-line document of example 2 the result would
    carry the tag 1 on both [x] and [y].  It does not. *)
Lemma example2_y_is_not_renumbered :
  fst (processProtoText nestedOneLine)
  <> str "message Outer { message Inner { int32 x = 1; } int32 y = 1; }".
Proof. vm_compute. discriminate. Qed.

(** C2, amended: on the one-line document of example 2 the field [x] of
    [Inner] gets the tag 1, and the field [y] of [Outer] keeps the tag 3:
    its declaration does not begin at a line start, so the field pattern
    does not match it. *)
Theorem example2_result :
  processProtoText nestedOneLine
  = (str "message Outer { message Inner { int32 x = 1; } int32 y = 3; }", true).
Proof. vm_compute. reflexivity. Qed.

(** C3 (idempotence), evaluated on [staleDoc].  The first run makes the
    nested message one character longer and then cuts the outer body with
    the closing offset computed before: the field [c] misses its semicolon
    and is left alone.  The second run renumbers it, so the second result
    differs from the first. *)
Theorem second_run_changes_the_result :
  fst (processProtoText staleDoc)
  = unlines (["message O {"; "message I {";
              "a b=1;"; "a b=2;"; "a b=3;"; "a b=4;"; "a b=5;";
              "a b=6;"; "a b=7;"; "a b=8;"; "a b=9;"; "a b=10;";
              "}"; "a c=1;}"]%string)
  /\ fst (processProtoText (fst (processProtoText staleDoc)))
     = unlines (["message O {"; "message I {";
                 "a b=1;"; "a b=2;"; "a b=3;"; "a b=4;"; "a b=5;";
                 "a b=6;"; "a b=7;"; "a b=8;"; "a b=9;"; "a b=10;";
                 "}"; "a c=11;}"]%string)
  /\ fst (processProtoText (fst (processProtoText staleDoc)))
     <> fst (processProtoText staleDoc).
Proof. vm_compute. repeat split; try reflexivity. discriminate. Qed.

(** C4 (comment and string immunity).  At every state [s] in which a scan
    of [findMatchingBrace] runs its loop body: if the mode is not [Normal],
    the iteration goes on with the same depth, whatever the character, a
    brace included; if an iteration changes the depth, the mode is
    [Normal] and the character is a brace, counted as +1 or -1; and the
    scan returns only in mode [Normal]. *)
Theorem depth_changes_only_in_normal_mode
        (text : jsstring) (openPos : Z) (s : scan)
        (Hs : In s (scanStates text openPos)) :
  (modeOf s <> Normal ->
   exists s', step text s = Continue s' /\ depth s' = depth s)
  /\ (forall s', step text s = Continue s' -> depth s' <> depth s ->
                 modeOf s = Normal
                 /\ ((charAt text (i s) = Some c_lbrace
                      /\ depth s' = (depth s + 1)%Z)
                     \/ (charAt text (i s) = Some c_rbrace
                         /\ depth s' = (depth s - 1)%Z)))
  /\ (forall r, step text s = Return r ->
                modeOf s = Normal /\ charAt text (i s) = Some c_rbrace).
Proof.
  split; [|split].
  - intros Hm. apply step_keeps_depth_outside_normal.
    destruct (normal s) eqn:E; [|reflexivity].
    apply modeOf_normal in E. contradiction.
  - intros s' H1 H2. destruct (step_depth_change _ _ _ H1 H2) as [Hn Hc].
    split; [apply modeOf_normal; exact Hn | exact Hc].
  - intros r H. apply step_return in H. destruct H as (_ & Hc & _ & Hn).
    split; [apply modeOf_normal; exact Hn | exact Hc].
Qed.

(** The closing brace inside the block comment of [bracesInComment]. *)
Lemma depth_changes_only_in_normal_mode_witness :
  let s := mkScan 3 1 false true false false in
  In s (scanStates bracesInComment 0)
  /\ charAt bracesInComment 3 = Some c_rbrace
  /\ exists s', step bracesInComment s = Continue s' /\ depth s' = 1%Z.
Proof.
  intros s.
  assert (In s (scanStates bracesInComment 0)) as Hin
      by (vm_compute; right; right; left; reflexivity).
  split; [exact Hin|]. split; [reflexivity|].
  apply (depth_changes_only_in_normal_mode bracesInComment 0 s Hin).
  discriminate.
Defined.

(** C5 (the matching brace).  When [text[openPos]] is an opening brace, the
    first iteration takes the depth from 0 to 1; when the scan then returns
    an offset [closePos], that offset lies after [openPos] and holds a
    closing brace; the depth was at least 1 at every position visited after
    [openPos], and 1 in mode [Normal] at [closePos], where the closing
    brace takes it to 0 for the first time; the body
    [text.slice(openPos + 1, closePos)] is the text strictly between the
    two braces. *)
Theorem matching_brace_closes_at_depth_zero
        (text : jsstring) (openPos closePos : Z)
        (Hopen : charAt text openPos = Some c_lbrace)
        (Hfound : findMatchingBrace text openPos = closePos)
        (Hclose : closePos <> (-1)%Z) :
  step text (init openPos)
  = Continue (mkScan (openPos + 1) 1 false false false false)
  /\ (openPos < closePos)%Z
  /\ charAt text closePos = Some c_rbrace
  /\ (forall s, In s (scanStates text openPos) ->
                (i s <= closePos)%Z
                /\ ((openPos < i s)%Z -> (1 <= depth s)%Z))
  /\ (exists z, In z (scanStates text openPos)
                /\ i z = closePos /\ depth z = 1%Z /\ modeOf z = Normal
                /\ step text z = Return closePos)
  /\ Z.of_nat (List.length (slice text (openPos + 1) closePos))
     = (closePos - openPos - 1)%Z.
Proof.
  pose proof (first_step_opens _ _ Hopen) as Hstep.
  pose proof (charAt_Some_range _ _ _ Hopen) as Hrange.
  pose proof (findMatchingBrace_eq text openPos) as Heq.
  rewrite Hfound in Heq. unfold findMatchingBrace_opt, scanStates in *.
  destruct (fuelFor text openPos) as [|fuel] eqn:Hfuel;
    [unfold fuelFor in Hfuel; lia|].
  simpl in Heq |- *.
  assert ((openPos <? jslength text)%Z = true) as Hlt
      by (apply Z.ltb_lt; lia).
  rewrite Hlt in *. rewrite Hstep in *.
  set (s1 := mkScan (openPos + 1) 1 false false false false) in *.
  destruct (loop_returns_closing fuel text s1 closePos) as (H1 & H2 & H3 & z & Hz & Hi & Hd & Hn & Hr);
    [simpl; lia | exact Heq | exact Hclose |].
  simpl in H1.
  pose proof (charAt_Some_range _ _ _ H2) as Hrange2.
  split; [reflexivity|]. split; [lia|]. split; [exact H2|]. split; [|split].
  - intros s [<-|Hs]; simpl; [lia|].
    destruct (H3 s Hs) as [Hs1 Hs2]. split; [exact Hs2 | intros _; exact Hs1].
  - exists z. split; [right; exact Hz|].
    repeat split; try assumption. apply modeOf_normal. exact Hn.
  - unfold slice, clampIndex, jslength in *.
    destruct (openPos + 1 <? 0)%Z eqn:E1; [apply Z.ltb_lt in E1; lia|].
    destruct (closePos <? 0)%Z eqn:E2; [apply Z.ltb_lt in E2; lia|].
    rewrite length_firstn, length_skipn. lia.
Qed.

(** The scan of [bracesInComment] from its first character. *)
Lemma matching_brace_closes_at_depth_zero_witness :
  charAt bracesInComment 0 = Some c_lbrace
  /\ findMatchingBrace bracesInComment 0 = 11%Z
  /\ (0 < 11)%Z
  /\ charAt bracesInComment 11 = Some c_rbrace.
Proof.
  assert (charAt bracesInComment 0 = Some c_lbrace) as H1 by reflexivity.
  assert (findMatchingBrace bracesInComment 0 = 11%Z) as H2
      by (vm_compute; reflexivity).
  assert (11%Z <> (-1)%Z) as H3 by discriminate.
  destruct (matching_brace_closes_at_depth_zero bracesInComment 0 11 H1 H2 H3)
    as (_ & Hlt & Hc & _).
  repeat split; assumption.
Defined.

(** C6 (unmatched brace).  When [exec] finds an occurrence of the message
    pattern and the scan from its opening brace reaches the end of the
    buffer without returning, [findMatchingBrace] gives -1; no span with
    that opening brace is recorded, so none is rewritten; and the loop
    goes on from the end of the match, which lies further in the text. *)
Theorem unmatched_message_is_skipped
        (text : jsstring) (lastIndex matchStart : nat) (y : mstate)
        (Hexec : exec text msgRegex lastIndex = Some (matchStart, y))
        (Hend : forall s, In s (scanStates text (openPosOf text matchStart y)) ->
                          exists s', step text s = Continue s') :
  findMatchingBrace text (openPosOf text matchStart y) = (-1)%Z
  /\ (forall r, In r (sortRanges (findMessageSpans text)) ->
                open r <> openPosOf text matchStart y)
  /\ (forall fuel, findRanges (S fuel) text lastIndex
                   = findRanges fuel text (endIndex y))
  /\ lastIndex < endIndex y.
Proof.
  apply findMatchingBrace_not_found in Hend.
  split; [exact Hend|]. split; [|split].
  - intros r Hr Ho. apply (proj1 (In_sortRanges _ _)) in Hr.
    apply findMessageSpans_sound in Hr. destruct Hr as [Hc Hm].
    rewrite Ho, Hend in Hm. congruence.
  - intros fuel. simpl. rewrite Hexec.
    fold (openPosOf text matchStart y). rewrite Hend. reflexivity.
  - apply exec_spec in Hexec. destruct Hexec as (E1 & E2 & _).
    apply msg_match_nonempty in E2. lia.
Qed.

(** In [unclosedDoc] the message [A] is never closed: it is skipped, and
    the message [B] after it is still found. *)
Lemma unmatched_message_is_skipped_witness :
  exists y,
    exec unclosedDoc msgRegex 0 = Some (0, y)
    /\ findMatchingBrace unclosedDoc (openPosOf unclosedDoc 0 y) = (-1)%Z
    /\ findMessageSpans unclosedDoc = [mkRange 22 37].
Proof.
  eexists. split; [vm_compute; reflexivity|].
  split; [|vm_compute; reflexivity].
  refine (proj1 (unmatched_message_is_skipped unclosedDoc 0 0 _ _ _)).
  - vm_compute. reflexivity.
  - apply findMatchingBrace_not_found. vm_compute. reflexivity.
Defined.

(** C7 (non-interference).  The result of [renumberMessageBody] is the body
    with the number tokens of the matches, and nothing else, replaced: the
    tokens are runs of digits that lie one after the other, each is
    replaced by the decimal text of the counter, and every character
    outside them is copied. *)
Theorem only_number_tokens_change (body : jsstring) :
  tokensFrom body 0 (numberTokens body)
  /\ renumberMessageBody body = spliceTokens body (numberTokens body) 1 0.
Proof.
  split; [apply numberTokens_ok | apply renumberMessageBody_splice].
Qed.

(** C9 (block comments).  The field pattern is applied to the raw body: in
    [blockCommentBody] the declaration inside the block comment is
    rewritten to the tag 1 and the field after it gets the tag 2, while
    the same field gets the tag 1 in [plainBody], without the comment. *)
Theorem block_comment_field_is_renumbered :
  renumberMessageBody blockCommentBody
  = [c_lf] ++ unlines ["/*"; "int32 z = 1;"; "*/"; "int32 a = 2;"]%string
  /\ renumberMessageBody plainBody = [c_lf] ++ unlines ["int32 a = 1;"]%string.
Proof. vm_compute. split; reflexivity. Qed.



(** * Further properties of the brace matcher *)

Module LexicalFacts.

Import Brace BraceFacts Lexical.
Local Open Scope Z_scope.

Lemma loop_more_fuel (fuel : nat) : forall fuel' text s r,
  loop fuel text s = Some r -> (fuel <= fuel')%nat ->
  loop fuel' text s = Some r.
Proof.
  induction fuel as [|fuel IH]; intros fuel' text s r; simpl;
    destruct (i s <? jslength text) eqn:E; try discriminate.
  - intros H _. destruct fuel'; simpl; rewrite E; exact H.
  - intros H Hf. destruct fuel' as [|fuel']; [lia|]. simpl. rewrite E.
    destruct (step text s) as [s'|r']; [|exact H].
    apply (IH fuel' text s' r H). lia.
  - intros H _. destruct fuel'; simpl; rewrite E; exact H.
Qed.

Lemma run_end (text : jsstring) (s : scan) :
  jslength text <= i s -> run text s = Some (-1).
Proof.
  intros H. unfold run.
  destruct (Z.to_nat (jslength text - i s)); simpl;
    destruct (i s <? jslength text) eqn:E; try reflexivity;
    apply Z.ltb_lt in E; lia.
Qed.

(** One iteration of the loop. *)
Lemma run_step (text : jsstring) (s : scan) :
  i s < jslength text ->
  run text s = match step text s with
               | Return r => Some r
               | Continue s' => run text s'
               end.
Proof.
  intros H. unfold run.
  destruct (Z.to_nat (jslength text - i s)) as [|fuel] eqn:Ef; [lia|].
  simpl. apply Z.ltb_lt in H. rewrite H.
  destruct (step text s) as [s'|r] eqn:Hs; [|reflexivity].
  apply step_advances in Hs.
  destruct (loop_total (Z.to_nat (jslength text - i s')) text s') as [r Hr];
    [lia|].
  rewrite Hr. apply (loop_more_fuel _ _ _ _ _ Hr). lia.
Qed.

Lemma findMatchingBrace_run (text : jsstring) (openPos r : Z) :
  run text (init openPos) = Some r -> findMatchingBrace text openPos = r.
Proof.
  unfold run, findMatchingBrace, findMatchingBrace_opt, fuelFor.
  simpl. intros ->. reflexivity.
Qed.

(** *** The characters under the scanner *)

Lemma charAt_app (pre rest : jsstring) (c : char) :
  charAt (pre ++ c :: rest) (Z.of_nat (List.length pre)) = Some c.
Proof.
  unfold charAt. destruct (Z.of_nat (List.length pre) <? 0) eqn:E;
    [apply Z.ltb_lt in E; lia|].
  rewrite Nat2Z.id, nth_error_app2 by lia.
  rewrite Nat.sub_diag. reflexivity.
Qed.

Lemma next_app (pre rest : jsstring) (c : char) :
  (if Z.of_nat (List.length pre) + 1 <? jslength (pre ++ c :: rest)
   then charAt (pre ++ c :: rest) (Z.of_nat (List.length pre) + 1)
   else None) = hd_error rest.
Proof.
  unfold jslength. rewrite length_app. simpl.
  destruct rest as [|c' rest]; simpl.
  - destruct (_ <? _) eqn:E; [apply Z.ltb_lt in E; lia | reflexivity].
  - destruct (_ <? _) eqn:E; [|apply Z.ltb_ge in E; lia].
    replace (Z.of_nat (List.length pre) + 1)
      with (Z.of_nat (List.length (pre ++ [c])))
      by (rewrite length_app; simpl; lia).
    replace (pre ++ c :: c' :: rest) with ((pre ++ [c]) ++ c' :: rest)
      by (rewrite <- app_assoc; reflexivity).
    apply charAt_app.
Qed.

Lemma in_text (pre rest : jsstring) (c : char) :
  Z.of_nat (List.length pre) < jslength (pre ++ c :: rest).
Proof. unfold jslength. rewrite length_app. simpl. lia. Qed.

(** The step at the character [c] that follows [pre]. *)
Lemma step_here (pre rest : jsstring) (c : char) (d : Z) (f1 f2 f3 f4 : bool) :
  step (pre ++ c :: rest) (at_ (List.length pre) d f1 f2 f3 f4)
  = let s := at_ (List.length pre) d f1 f2 f3 f4 in
    let ch := Some c in
    let next := hd_error rest in
    if normal s then
      if isChar ch c_slash && isChar next c_slash then
        Continue (mkScan (i s + 2) d true f2 f3 f4)
      else if isChar ch c_slash && isChar next c_star then
        Continue (mkScan (i s + 2) d f1 true f3 f4)
      else if isChar ch c_dquote then
        Continue (mkScan (i s + 1) d f1 f2 true f4)
      else if isChar ch c_squote then
        Continue (mkScan (i s + 1) d f1 f2 f3 true)
      else braces ch s
    else if f1 then
      Continue (mkScan (i s + 1) d (if isChar ch c_lf then false else f1)
                       f2 f3 f4)
    else if f2 then
      if isChar ch c_star && isChar next c_slash then
        Continue (mkScan (i s + 2) d f1 false f3 f4)
      else Continue (advance 1 s)
    else if f3 then
      if isChar ch c_backslash && truthy next then Continue (advance 2 s)
      else Continue (mkScan (i s + 1) d f1 f2
                            (if isChar ch c_dquote then false else f3) f4)
    else if f4 then
      if isChar ch c_backslash && truthy next then Continue (advance 2 s)
      else Continue (mkScan (i s + 1) d f1 f2 f3
                            (if isChar ch c_squote then false else f4))
    else braces ch s.
Proof.
  unfold step, at_. cbn [i depth inSingleLineComment inMultiLineComment
                         inDoubleQuote inSingleQuote].
  rewrite charAt_app, next_app. reflexivity.
Qed.

Lemma isChar_same (c : char) : isChar (Some c) c = true.
Proof. apply N.eqb_refl. Qed.

Lemma isChar_other (a c : char) : a <> c -> isChar (Some a) c = false.
Proof. intros H. apply N.eqb_neq. exact H. Qed.

Lemma at_next (pre : jsstring) (a : char) (k : Z) d f1 f2 f3 f4 :
  k = 1 ->
  mkScan (Z.of_nat (List.length pre) + k) d f1 f2 f3 f4
  = at_ (List.length (pre ++ [a])) d f1 f2 f3 f4.
Proof.
  intros ->. unfold at_. rewrite length_app. simpl. f_equal. lia.
Qed.

Lemma at_next2 (pre : jsstring) (a b : char) (k : Z) d f1 f2 f3 f4 :
  k = 2 ->
  mkScan (Z.of_nat (List.length pre) + k) d f1 f2 f3 f4
  = at_ (List.length (pre ++ [a; b])) d f1 f2 f3 f4.
Proof.
  intros ->. unfold at_. rewrite length_app. simpl. f_equal. lia.
Qed.

(** Run one iteration at the character after [pre]. *)
Ltac one_step :=
  rewrite run_step by apply in_text;
  rewrite step_here;
  cbv zeta; unfold normal, braces, advance, at_;
  cbn [i depth inSingleLineComment inMultiLineComment inDoubleQuote
       inSingleQuote negb andb hd_error truthy].

Lemma scan_line (c : jsstring) :
  Forall (fun x => x <> c_lf) c ->
  forall pre rest d,
    run (pre ++ c ++ c_lf :: rest)
        (at_ (List.length pre) d true false false false)
    = run (pre ++ c ++ c_lf :: rest)
          (at_ (List.length (pre ++ c ++ [c_lf])) d false false false false).
Proof.
  induction 1 as [|a c Ha _ IH]; intros pre rest d.
  - simpl app. one_step. rewrite isChar_same.
    rewrite (at_next pre c_lf) by reflexivity. reflexivity.
  - simpl app. one_step. rewrite (isChar_other _ _ Ha).
    rewrite (at_next pre a) by reflexivity.
    replace (pre ++ a :: c ++ c_lf :: rest)
      with ((pre ++ [a]) ++ c ++ c_lf :: rest)
      by (rewrite <- app_assoc; reflexivity).
    rewrite IH. rewrite <- !app_assoc. reflexivity.
Qed.

Ltac list_eq := repeat rewrite <- app_assoc; simpl; reflexivity.

Ltac same_state :=
  f_equal; unfold at_; f_equal;
  repeat (rewrite length_app || rewrite length_cons); simpl; lia.

Lemma scan_line_eq (text pre c rest : jsstring) (d : Z) :
  Forall (fun x => x <> c_lf) c ->
  text = pre ++ c ++ c_lf :: rest ->
  run text (at_ (List.length pre) d true false false false)
  = run text (at_ (List.length (pre ++ c ++ [c_lf])) d false false false false).
Proof. intros H ->. apply scan_line. exact H. Qed.

Lemma scan_block (c : jsstring) :
  blockBody c ->
  forall pre rest d,
    run (pre ++ c ++ c_star :: c_slash :: rest)
        (at_ (List.length pre) d false true false false)
    = run (pre ++ c ++ c_star :: c_slash :: rest)
          (at_ (List.length (pre ++ c ++ [c_star; c_slash])) d
               false false false false).
Proof.
  induction 1 as [|a c Ha _ IH|c Hc _ IH]; intros pre rest d.
  - simpl app. one_step. rewrite !isChar_same. simpl.
    rewrite (at_next2 pre c_star c_slash) by reflexivity. reflexivity.
  - simpl app. one_step. rewrite (isChar_other _ _ Ha). simpl.
    rewrite (at_next pre a) by reflexivity.
    replace (pre ++ a :: c ++ c_star :: c_slash :: rest)
      with ((pre ++ [a]) ++ c ++ c_star :: c_slash :: rest) by list_eq.
    rewrite IH. same_state.
  - simpl app. one_step. rewrite isChar_same.
    assert (isChar (hd_error (c ++ c_star :: c_slash :: rest)) c_slash = false)
      as ->.
    { destruct c as [|x c]; [reflexivity|]. simpl in *.
      apply N.eqb_neq. congruence. }
    simpl.
    rewrite (at_next pre c_star) by reflexivity.
    replace (pre ++ c_star :: c ++ c_star :: c_slash :: rest)
      with ((pre ++ [c_star]) ++ c ++ c_star :: c_slash :: rest) by list_eq.
    rewrite IH. same_state.
Qed.

Lemma scan_block_eq (text pre c rest : jsstring) (d : Z) :
  blockBody c ->
  text = pre ++ c ++ c_star :: c_slash :: rest ->
  run text (at_ (List.length pre) d false true false false)
  = run text (at_ (List.length (pre ++ c ++ [c_star; c_slash])) d
                  false false false false).
Proof. intros H ->. apply scan_block. exact H. Qed.

Lemma scan_dquote (s : jsstring) :
  stringBody c_dquote s ->
  forall pre rest d,
    run (pre ++ s ++ c_dquote :: rest)
        (at_ (List.length pre) d false false true false)
    = run (pre ++ s ++ c_dquote :: rest)
          (at_ (List.length (pre ++ s ++ [c_dquote])) d
               false false false false).
Proof.
  induction 1 as [|a s Ha Hb _ IH|a s _ IH]; intros pre rest d.
  - simpl app. one_step. rewrite isChar_same. simpl.
    rewrite (at_next pre c_dquote) by reflexivity. reflexivity.
  - simpl app. one_step.
    rewrite (isChar_other _ _ Ha), (isChar_other _ _ Hb). simpl.
    rewrite (at_next pre a) by reflexivity.
    replace (pre ++ a :: s ++ c_dquote :: rest)
      with ((pre ++ [a]) ++ s ++ c_dquote :: rest) by list_eq.
    rewrite IH. same_state.
  - simpl app. one_step. rewrite isChar_same. simpl.
    rewrite (at_next2 pre c_backslash a) by reflexivity.
    replace (pre ++ c_backslash :: a :: s ++ c_dquote :: rest)
      with ((pre ++ [c_backslash; a]) ++ s ++ c_dquote :: rest) by list_eq.
    rewrite IH. same_state.
Qed.

Lemma scan_squote (s : jsstring) :
  stringBody c_squote s ->
  forall pre rest d,
    run (pre ++ s ++ c_squote :: rest)
        (at_ (List.length pre) d false false false true)
    = run (pre ++ s ++ c_squote :: rest)
          (at_ (List.length (pre ++ s ++ [c_squote])) d
               false false false false).
Proof.
  induction 1 as [|a s Ha Hb _ IH|a s _ IH]; intros pre rest d.
  - simpl app. one_step. rewrite isChar_same. simpl.
    rewrite (at_next pre c_squote) by reflexivity. reflexivity.
  - simpl app. one_step.
    rewrite (isChar_other _ _ Ha), (isChar_other _ _ Hb). simpl.
    rewrite (at_next pre a) by reflexivity.
    replace (pre ++ a :: s ++ c_squote :: rest)
      with ((pre ++ [a]) ++ s ++ c_squote :: rest) by list_eq.
    rewrite IH. same_state.
  - simpl app. one_step. rewrite isChar_same. simpl.
    rewrite (at_next2 pre c_backslash a) by reflexivity.
    replace (pre ++ c_backslash :: a :: s ++ c_squote :: rest)
      with ((pre ++ [c_backslash; a]) ++ s ++ c_squote :: rest) by list_eq.
    rewrite IH. same_state.
Qed.

Lemma isPlain_chars (c : char) :
  isPlain c = true ->
  N.eqb c c_lbrace = false /\ N.eqb c c_rbrace = false
  /\ N.eqb c c_dquote = false /\ N.eqb c c_squote = false
  /\ N.eqb c c_slash = false.
Proof.
  unfold isPlain. rewrite !andb_true_iff, !negb_true_iff. tauto.
Qed.

(** The scanner crosses well-formed text and comes out in mode [Normal]
    with the depth it came in with. *)
Lemma scan_balanced (b : jsstring) :
  balanced b ->
  forall text pre rest d,
    1 <= d -> text = pre ++ b ++ rest ->
    run text (at_ (List.length pre) d false false false false)
    = run text (at_ (List.length (pre ++ b)) d false false false false).
Proof.
  induction 1 as [|c b Hc _ IH|c b Hc1 Hc2 _ IH|c b Hc _ IH|c b Hc _ IH
                  |s b Hs _ IH|s b Hs _ IH|a b _ IHa _ IHb];
    intros text pre rest d Hd ->.
  - rewrite app_nil_r. reflexivity.
  - simpl app. one_step. unfold isChar.
    destruct (isPlain_chars c Hc) as (-> & -> & -> & -> & ->). simpl.
    rewrite (at_next pre c) by reflexivity.
    rewrite (IH _ (pre ++ [c]) rest d Hd) by list_eq. same_state.
  - simpl app. one_step. rewrite isChar_same.
    rewrite (isChar_other _ _ Hc1), (isChar_other _ _ Hc2). simpl.
    rewrite (at_next pre c_slash) by reflexivity.
    rewrite (IH _ (pre ++ [c_slash]) rest d Hd) by list_eq. same_state.
  - simpl app. one_step. rewrite !isChar_same. simpl.
    rewrite (at_next2 pre c_slash c_slash) by reflexivity.
    rewrite (scan_line_eq _ (pre ++ [c_slash; c_slash]) c (b ++ rest) d Hc)
      by list_eq.
    rewrite (IH _ ((pre ++ [c_slash; c_slash]) ++ c ++ [c_lf]) rest d Hd)
      by list_eq.
    same_state.
  - simpl app. one_step. rewrite !isChar_same. simpl.
    rewrite (at_next2 pre c_slash c_star) by reflexivity.
    rewrite (scan_block_eq _ (pre ++ [c_slash; c_star]) c (b ++ rest) d Hc)
      by list_eq.
    rewrite (IH _ ((pre ++ [c_slash; c_star]) ++ c ++ [c_star; c_slash])
                rest d Hd) by list_eq.
    same_state.
  - simpl app. one_step. rewrite isChar_same. simpl.
    rewrite (at_next pre c_dquote) by reflexivity.
    replace (pre ++ c_dquote :: (s ++ c_dquote :: b) ++ rest)
      with ((pre ++ [c_dquote]) ++ s ++ c_dquote :: (b ++ rest)) by list_eq.
    rewrite (scan_dquote s Hs).
    rewrite (IH _ ((pre ++ [c_dquote]) ++ s ++ [c_dquote]) rest d Hd)
      by list_eq.
    same_state.
  - simpl app. one_step. rewrite isChar_same. simpl.
    rewrite (at_next pre c_squote) by reflexivity.
    replace (pre ++ c_squote :: (s ++ c_squote :: b) ++ rest)
      with ((pre ++ [c_squote]) ++ s ++ c_squote :: (b ++ rest)) by list_eq.
    rewrite (scan_squote s Hs).
    rewrite (IH _ ((pre ++ [c_squote]) ++ s ++ [c_squote]) rest d Hd)
      by list_eq.
    same_state.
  - simpl app. one_step. rewrite isChar_same. simpl.
    rewrite (at_next pre c_lbrace) by reflexivity.
    rewrite (IHa _ (pre ++ [c_lbrace]) (c_rbrace :: b ++ rest) (d + 1))
      by (try lia; list_eq).
    replace (pre ++ c_lbrace :: (a ++ c_rbrace :: b) ++ rest)
      with (((pre ++ [c_lbrace]) ++ a) ++ c_rbrace :: (b ++ rest)) by list_eq.
    one_step. rewrite isChar_same. simpl.
    replace (d + 1 - 1) with d by lia.
    destruct (d =? 0) eqn:E; [apply Z.eqb_eq in E; lia|].
    rewrite (at_next ((pre ++ [c_lbrace]) ++ a) c_rbrace) by reflexivity.
    rewrite (IHb _ ((((pre ++ [c_lbrace]) ++ a)) ++ [c_rbrace]) rest d Hd)
      by list_eq.
    same_state.
Qed.

(** *** Text that ends inside a comment or a string *)

Lemma line_to_end (c : jsstring) :
  Forall (fun x => x <> c_lf) c ->
  forall pre d,
    run (pre ++ c) (at_ (List.length pre) d true false false false)
    = Some (-1).
Proof.
  induction 1 as [|a c Ha _ IH]; intros pre d.
  - apply run_end. unfold jslength. rewrite app_nil_r. simpl. lia.
  - one_step. rewrite (isChar_other _ _ Ha).
    rewrite (at_next pre a) by reflexivity.
    replace (pre ++ a :: c) with ((pre ++ [a]) ++ c) by list_eq.
    apply IH.
Qed.

Lemma block_to_end (c : jsstring) :
  blockBody c ->
  forall pre d,
    run (pre ++ c) (at_ (List.length pre) d false true false false)
    = Some (-1).
Proof.
  induction 1 as [|a c Ha _ IH|c Hc _ IH]; intros pre d.
  - apply run_end. unfold jslength. rewrite app_nil_r. simpl. lia.
  - one_step. rewrite (isChar_other _ _ Ha). simpl.
    rewrite (at_next pre a) by reflexivity.
    replace (pre ++ a :: c) with ((pre ++ [a]) ++ c) by list_eq.
    apply IH.
  - one_step. rewrite isChar_same.
    assert (isChar (hd_error c) c_slash = false) as ->.
    { destruct c as [|x c]; [reflexivity|]. simpl in *.
      apply N.eqb_neq. congruence. }
    simpl. rewrite (at_next pre c_star) by reflexivity.
    replace (pre ++ c_star :: c) with ((pre ++ [c_star]) ++ c) by list_eq.
    apply IH.
Qed.

Lemma dquote_to_end (s : jsstring) :
  stringBody c_dquote s ->
  forall pre d,
    run (pre ++ s) (at_ (List.length pre) d false false true false)
    = Some (-1).
Proof.
  induction 1 as [|a s Ha Hb _ IH|a s _ IH]; intros pre d.
  - apply run_end. unfold jslength. rewrite app_nil_r. simpl. lia.
  - one_step. rewrite (isChar_other _ _ Ha), (isChar_other _ _ Hb). simpl.
    rewrite (at_next pre a) by reflexivity.
    replace (pre ++ a :: s) with ((pre ++ [a]) ++ s) by list_eq.
    apply IH.
  - one_step. rewrite isChar_same. simpl.
    rewrite (at_next2 pre c_backslash a) by reflexivity.
    replace (pre ++ c_backslash :: a :: s)
      with ((pre ++ [c_backslash; a]) ++ s) by list_eq.
    apply IH.
Qed.

Lemma squote_to_end (s : jsstring) :
  stringBody c_squote s ->
  forall pre d,
    run (pre ++ s) (at_ (List.length pre) d false false false true)
    = Some (-1).
Proof.
  induction 1 as [|a s Ha Hb _ IH|a s _ IH]; intros pre d.
  - apply run_end. unfold jslength. rewrite app_nil_r. simpl. lia.
  - one_step. rewrite (isChar_other _ _ Ha), (isChar_other _ _ Hb). simpl.
    rewrite (at_next pre a) by reflexivity.
    replace (pre ++ a :: s) with ((pre ++ [a]) ++ s) by list_eq.
    apply IH.
  - one_step. rewrite isChar_same. simpl.
    rewrite (at_next2 pre c_backslash a) by reflexivity.
    replace (pre ++ c_backslash :: a :: s)
      with ((pre ++ [c_backslash; a]) ++ s) by list_eq.
    apply IH.
Qed.

(** The scan from an opening brace, up to the end of well-formed text. *)
Lemma scan_opening (pre b rest : jsstring) :
  balanced b ->
  run (pre ++ c_lbrace :: b ++ rest) (init (Z.of_nat (List.length pre)))
  = run (pre ++ c_lbrace :: b ++ rest)
        (at_ (List.length (pre ++ c_lbrace :: b)) 1 false false false false).
Proof.
  intros Hb.
  change (init (Z.of_nat (List.length pre)))
    with (at_ (List.length pre) 0 false false false false).
  one_step. rewrite isChar_same. simpl.
  rewrite (at_next pre c_lbrace) by reflexivity.
  rewrite (scan_balanced b Hb _ (pre ++ [c_lbrace]) rest 1) by (try lia; list_eq).
  same_state.
Qed.

(** The matching brace of well-formed text. *)
Lemma matched_balanced (pre b rest : jsstring)
        (Hb : balanced b) :
  findMatchingBrace (pre ++ c_lbrace :: b ++ c_rbrace :: rest)
                    (Z.of_nat (List.length pre))
  = Z.of_nat (List.length pre + 1 + List.length b).
Proof.
  apply findMatchingBrace_run.
  rewrite (scan_opening pre b (c_rbrace :: rest) Hb).
  replace (pre ++ c_lbrace :: b ++ c_rbrace :: rest)
    with ((pre ++ c_lbrace :: b) ++ c_rbrace :: rest) by list_eq.
  one_step. rewrite isChar_same. simpl.
  f_equal. repeat (rewrite length_app || rewrite length_cons). lia.
Qed.

(** *** What a scan can return *)

Lemma loop_result (fuel : nat) : forall text s r,
  loop fuel text s = Some r -> r <> -1 ->
  i s <= r /\ charAt text r = Some c_rbrace.
Proof.
  induction fuel as [|fuel IH]; intros text s r; simpl;
    destruct (i s <? jslength text) eqn:E; try congruence.
  destruct (step text s) as [s1|r1] eqn:Hs; intros Hl Hr.
  - apply step_advances in Hs. destruct (IH _ _ _ Hl Hr) as [H1 H2].
    split; [lia | exact H2].
  - inversion Hl; subst r1. apply step_return in Hs.
    destruct Hs as (-> & Hc & _). split; [lia | exact Hc].
Qed.

Lemma result_range (text : jsstring) (openPos : Z) :
  findMatchingBrace text openPos = (-1)%Z
  \/ ((openPos < findMatchingBrace text openPos)%Z
      /\ (0 <= findMatchingBrace text openPos < jslength text)%Z
      /\ charAt text (findMatchingBrace text openPos) = Some c_rbrace).
Proof.
  pose proof (findMatchingBrace_eq text openPos) as Heq.
  destruct (Z.eq_dec (findMatchingBrace text openPos) (-1)) as [E|E];
    [left; exact E | right].
  set (r := findMatchingBrace text openPos) in *.
  unfold findMatchingBrace_opt in Heq.
  destruct (loop_result _ _ _ _ Heq E) as [H1 H2].
  pose proof (charAt_Some_range _ _ _ H2) as H3.
  split; [|split; assumption].
  destruct (fuelFor text openPos) as [|fuel]; simpl in Heq;
    destruct (openPos <? jslength text)%Z eqn:El; try congruence.
  destruct (step text (init openPos)) as [s1|r1] eqn:Hs.
  - apply step_advances in Hs. apply loop_result in Heq; [|exact E].
    simpl in Hs. lia.
  - apply step_return in Hs. destruct Hs as (_ & _ & Hd & _).
    simpl in Hd. lia.
Qed.

Lemma step_flags (text : jsstring) (s s' : scan) :
  (flagCount s <= 1)%nat -> step text s = Continue s' ->
  (flagCount s' <= 1)%nat.
Proof.
  revert s'. unfold flagCount. unfold_step s; intros s' Hc; simpl in Hc;
    try lia; step_cases; intros H; inversion H; subst; simpl; lia.
Qed.

Lemma visited_invariant (P : scan -> Prop) (text : jsstring) :
  (forall s s', P s -> step text s = Continue s' -> P s') ->
  forall fuel s0, P s0 -> forall s, In s (visited fuel text s0) -> P s.
Proof.
  intros Hstep. induction fuel as [|fuel IH]; intros s0 H0 s; simpl;
    destruct (i s0 <? jslength text); simpl; try tauto.
  intros [<-|H]; [exact H0|].
  destruct (step text s0) as [s1|r] eqn:Hs; [|destruct H].
  exact (IH s1 (Hstep _ _ H0 Hs) s H).
Qed.

(** *** The text before the offset *)

Lemma charAt_shift (pre t : jsstring) (k : Z) :
  0 <= k -> charAt (pre ++ t) (k + Z.of_nat (List.length pre)) = charAt t k.
Proof.
  intros Hk. unfold charAt.
  destruct (k + Z.of_nat (List.length pre) <? 0) eqn:E1;
    [apply Z.ltb_lt in E1; lia|].
  destruct (k <? 0) eqn:E2; [apply Z.ltb_lt in E2; lia|].
  rewrite nth_error_app2 by lia. f_equal. lia.
Qed.

Lemma jslength_shift (pre t : jsstring) :
  jslength (pre ++ t) = jslength t + Z.of_nat (List.length pre).
Proof. unfold jslength. rewrite length_app. lia. Qed.

Lemma step_shift (pre t : jsstring) (s : scan) :
  0 <= i s ->
  step (pre ++ t) (shiftScan (List.length pre) s)
  = shiftOutcome (List.length pre) (step t s).
Proof.
  intros Hi. unfold step, shiftScan.
  cbn [i depth inSingleLineComment inMultiLineComment inDoubleQuote
         inSingleQuote].
  rewrite charAt_shift by exact Hi.
  rewrite jslength_shift.
  replace (i s + Z.of_nat (List.length pre) + 1
           <? jslength t + Z.of_nat (List.length pre))
    with (i s + 1 <? jslength t)
    by (destruct (i s + 1 <? jslength t) eqn:E1;
        destruct (i s + Z.of_nat (List.length pre) + 1
                  <? jslength t + Z.of_nat (List.length pre)) eqn:E2;
        try reflexivity;
        [apply Z.ltb_lt in E1; apply Z.ltb_ge in E2
        |apply Z.ltb_ge in E1; apply Z.ltb_lt in E2]; lia).
  replace (i s + Z.of_nat (List.length pre) + 1)
    with (i s + 1 + Z.of_nat (List.length pre)) by lia.
  rewrite charAt_shift by lia.
  unfold normal, braces, advance.
  cbn [i depth inSingleLineComment inMultiLineComment inDoubleQuote
         inSingleQuote].
  destruct s as [p d slc mlc dq sq]; simpl.
  destruct slc, mlc, dq, sq; simpl; step_cases;
    unfold shiftOutcome, shiftScan; simpl;
    first [reflexivity | f_equal; f_equal; lia | f_equal; lia].
Qed.

Lemma loop_shift (pre t : jsstring) (fuel : nat) : forall s,
  0 <= i s ->
  loop fuel (pre ++ t) (shiftScan (List.length pre) s)
  = option_map (shiftResult (List.length pre)) (loop fuel t s).
Proof.
  induction fuel as [|fuel IH]; intros s Hi; simpl; rewrite jslength_shift;
    (replace (i s + Z.of_nat (List.length pre)
              <? jslength t + Z.of_nat (List.length pre))
      with (i s <? jslength t)
      by (destruct (i s <? jslength t) eqn:E1;
          destruct (i s + Z.of_nat (List.length pre)
                    <? jslength t + Z.of_nat (List.length pre)) eqn:E2;
          try reflexivity;
          [apply Z.ltb_lt in E1; apply Z.ltb_ge in E2
          |apply Z.ltb_ge in E1; apply Z.ltb_lt in E2]; lia));
    destruct (i s <? jslength t) eqn:E; try reflexivity.
  rewrite step_shift by exact Hi.
  destruct (step t s) as [s'|r] eqn:Hs; simpl.
  - apply IH. apply step_advances in Hs. lia.
  - apply step_return in Hs. destruct Hs as (-> & _).
    unfold shiftResult.
    destruct (i s =? -1) eqn:E1; [apply Z.eqb_eq in E1; lia | reflexivity].
Qed.

Lemma findMatchingBrace_shift (pre t : jsstring) (k : nat) :
  findMatchingBrace (pre ++ t) (Z.of_nat (List.length pre + k))
  = shiftResult (List.length pre) (findMatchingBrace t (Z.of_nat k)).
Proof.
  pose proof (findMatchingBrace_eq t (Z.of_nat k)) as H.
  unfold findMatchingBrace at 1. unfold findMatchingBrace_opt in *.
  replace (fuelFor (pre ++ t) (Z.of_nat (List.length pre + k)))
    with (fuelFor t (Z.of_nat k))
    by (unfold fuelFor; rewrite jslength_shift; f_equal; lia).
  replace (init (Z.of_nat (List.length pre + k)))
    with (shiftScan (List.length pre) (init (Z.of_nat k)))
    by (unfold shiftScan, init; simpl; f_equal; lia).
  rewrite loop_shift by (simpl; lia). rewrite H. reflexivity.
Qed.

End LexicalFacts.

(** * Further properties of the span finder and of the rewriter *)

Module RewriterFacts.

Import Brace BraceFacts RegExpFacts SpanFacts.

(** *** The sort *)

Lemma insertRange_perm (x : range) (l : list range) :
  Permutation (x :: l) (insertRange x l).
Proof.
  induction l as [|y l IH]; simpl; [reflexivity|].
  destruct (compareRanges x y <=? 0)%Z; [reflexivity|].
  rewrite perm_swap. constructor. exact IH.
Qed.

Lemma sortRanges_perm (l : list range) : Permutation l (sortRanges l).
Proof.
  induction l as [|x l IH]; simpl; [constructor|].
  rewrite <- insertRange_perm. constructor. exact IH.
Qed.

Lemma insertRange_sorted (x : range) (l : list range) :
  StronglySorted beforeInOrder l ->
  StronglySorted beforeInOrder (insertRange x l).
Proof.
  induction 1 as [|y l Hl IH Hy]; simpl; [repeat constructor|].
  unfold compareRanges.
  destruct (open y - open x <=? 0)%Z eqn:E.
  - apply Z.leb_le in E. constructor; [constructor; assumption|].
    constructor; [unfold beforeInOrder; lia|].
    rewrite Forall_forall in *. intros z Hz. specialize (Hy z Hz).
    unfold beforeInOrder in *. lia.
  - apply Z.leb_gt in E. constructor; [exact IH|].
    rewrite Forall_forall in *. intros z Hz.
    apply (Permutation_in _ (Permutation_sym (insertRange_perm x l))) in Hz.
    destruct Hz as [<-|Hz]; [unfold beforeInOrder; lia | exact (Hy z Hz)].
Qed.

Lemma sortRanges_sorted (l : list range) :
  StronglySorted beforeInOrder (sortRanges l).
Proof.
  induction l as [|x l IH]; simpl; [constructor|].
  apply insertRange_sorted. exact IH.
Qed.

(** *** The flag [changed] *)

Lemma rewrite_keeps_flag (ranges : list range) : forall result,
  snd (fold_left rewriteRange ranges (result, true)) = true.
Proof.
  induction ranges as [|r ranges IH]; intros result; simpl; [reflexivity|].
  destruct (negb _); apply IH.
Qed.

Lemma rewrite_unchanged (ranges : list range) : forall result,
  snd (fold_left rewriteRange ranges (result, false)) = false ->
  fst (fold_left rewriteRange ranges (result, false)) = result.
Proof.
  induction ranges as [|r ranges IH]; intros result; simpl; [reflexivity|].
  destruct (negb _).
  - rewrite rewrite_keeps_flag. discriminate.
  - apply IH.
Qed.

(** *** Matches of the message pattern *)

Section Text.

Variable text : jsstring.

(** A match of the message pattern ends with an opening brace. *)
Lemma msg_match_brace (found : nat) (y : mstate) :
  matchAt text msgRegex found = Matched y ->
  exists e, endIndex y = S e /\ found < S e
            /\ nth_error text e = Some c_lbrace.
Proof.
  intros H. pose proof (msg_match_nonempty _ _ _ H) as Hlt.
  apply compile_sound in H. destruct H as (y' & Hd & Hy).
  inversion Hy; subst y'; clear Hy.
  destruct Hd as (z0 & _ & z1 & _ & z2 & _ & z3 & _ & z4 & _ & Hb & ->).
  exists (endIndex z4). simpl in *. repeat split; [lia | exact Hb].
Qed.

Lemma lastIndexOf_from_last (l : jsstring) (c : char) : forall k found,
  lastIndexOf_from (l ++ [c]) c k found = (k + Z.of_nat (List.length l))%Z.
Proof.
  induction l as [|a l IH]; intros k found; simpl.
  - rewrite N.eqb_refl. lia.
  - rewrite IH. lia.
Qed.

Lemma substring_last (a e : nat) (c : char) :
  a <= e -> nth_error text e = Some c ->
  substring text a (S e) = substring text a e ++ [c].
Proof.
  intros Hle Hc. rewrite <- (substring_app text a e (S e)) by lia.
  f_equal. unfold substring. replace (S e - e) with 1 by lia.
  revert Hc. generalize text as l. clear. induction e as [|e IH];
    intros [|x l]; simpl; try discriminate.
  - intros H. inversion H. reflexivity.
  - apply IH.
Qed.

Lemma substring_length (a e : nat) :
  a <= e <= List.length text -> List.length (substring text a e) = e - a.
Proof.
  intros H. unfold substring. rewrite length_firstn, length_skipn. lia.
Qed.

(** The offset that the loop computes for a match is that of its brace,
    the last character of the match. *)
Lemma openPos_last (found : nat) (y : mstate) :
  matchAt text msgRegex found = Matched y ->
  exists e, endIndex y = S e /\ found < e
            /\ nth_error text e = Some c_lbrace
            /\ openPosOf text found y = Z.of_nat e.
Proof.
  intros H. pose proof H as H'. apply msg_match_brace in H.
  destruct H as (e & He & Hlt & Hc).
  assert (e < List.length text) as Hlen
      by (apply nth_error_Some; congruence).
  assert (found + 7 <= S e) as H7.
  { rewrite <- He. clear - H'.
    apply compile_sound in H'. destruct H' as (y' & Hd & Hy).
    inversion Hy; subst y'; clear Hy.
    destruct Hd as (z0 & [_ ->] & z1 & Hl & Hrest).
    assert (endIndex z1 = found + 7) as E.
    { simpl in Hl.
      destruct Hl as (a1 & [_ ->] & a2 & [_ ->] & a3 & [_ ->] & a4 & [_ ->]
                      & a5 & [_ ->] & a6 & [_ ->] & [_ ->]).
      simpl. lia. }
    change (exists z2, denote text (Plus ws) z1 z2 /\ _)
      with (denote text (Seq (Plus ws)
              (Seq (Group 1 (Seq (Class isIdentStart) (Star (Class isWordChar))))
                   (Seq (Star ws) (Chr c_lbrace)))) z1 y) in Hrest.
    apply denote_mono in Hrest. lia. }
  exists e. split; [exact He|]. split; [lia|]. split; [exact Hc|].
  unfold openPosOf. rewrite He.
  rewrite (substring_last found e c_lbrace) by (try lia; exact Hc).
  unfold lastIndexOf. rewrite lastIndexOf_from_last.
  rewrite substring_length by lia. lia.
Qed.

Lemma openPos_is_brace (found : nat) (y : mstate) :
  matchAt text msgRegex found = Matched y ->
  charAt text (openPosOf text found y) = Some c_lbrace
  /\ (Z.of_nat found < openPosOf text found y)%Z.
Proof.
  intros H. destruct (openPos_last _ _ H) as (e & _ & Hlt & Hc & ->).
  split; [|lia].
  unfold charAt. destruct (Z.of_nat e <? 0)%Z eqn:E;
    [apply Z.ltb_lt in E; lia|].
  rewrite Nat2Z.id. exact Hc.
Qed.

(** Every span that the loop records. *)
Lemma findRanges_spans (fuel : nat) : forall lastIndex l,
  findRanges fuel text lastIndex = Some l ->
  forall r, In r l ->
            charAt text (open r) = Some c_lbrace
            /\ close r <> (-1)%Z
            /\ findMatchingBrace text (open r) = close r.
Proof.
  induction fuel as [|fuel IH]; intros lastIndex l; simpl;
    destruct (exec text msgRegex lastIndex) as [[found y]|] eqn:E;
    intros H; try discriminate;
    try (inversion H; subst l; intros r []).
  fold (openPosOf text found y) in H.
  destruct (findMatchingBrace text _ =? -1)%Z eqn:Ec.
  - exact (IH _ _ H).
  - destruct (findRanges fuel text (found + 1)) as [l'|] eqn:El;
      [|discriminate].
    inversion H; subst l. intros r [<-|Hr]; [|exact (IH _ _ El r Hr)].
    simpl. apply Z.eqb_neq in Ec. apply exec_spec in E.
    destruct E as (_ & Hm & _). apply openPos_is_brace in Hm.
    destruct Hm as [Hm _]. repeat split; assumption.
Qed.

(** No match, no span. *)
Lemma no_brace_no_span :
  ~ In c_lbrace text -> findMessageSpans text = [].
Proof.
  intros Hn. unfold findMessageSpans, findMessageSpans_opt.
  assert (exec text msgRegex 0 = None) as E.
  { unfold exec. apply tryFrom_none. intros k y _ H.
    apply msg_match_brace in H. destruct H as (e & _ & _ & Hc).
    apply Hn. eapply nth_error_In. exact Hc. }
  simpl. rewrite E. reflexivity.
Qed.

End Text.

End RewriterFacts.

(** * Completeness of the backtracking search *)

Module MatcherFacts.

Import RegExpFacts.

Section Input.

Variable input : jsstring.

Lemma iter_bound (R : mstate -> mstate -> Prop) :
  (forall x y, R x y -> endIndex x <= inputLength input ->
               endIndex y <= inputLength input) ->
  forall x y, iter R x y -> endIndex x <= inputLength input ->
              endIndex y <= inputLength input.
Proof.
  intros HR x y H. induction H as [|x y z Hxy _ _ IH]; [tauto|].
  intros Hx. apply IH. exact (HR _ _ Hxy Hx).
Qed.

(** A match stays inside the input. *)
Lemma denote_bound (r : regex) : forall x y,
  denote input r x y -> endIndex x <= inputLength input ->
  endIndex y <= inputLength input.
Proof.
  induction r as [|ch|p|a IHa b IHb|a IHa b IHb|r IH|r IH|r IH|n r IH| |];
    intros x y; simpl.
  - intros ->. tauto.
  - intros [H ->] _. simpl.
    assert (nth_error input (endIndex x) <> None) as Hn by congruence.
    apply nth_error_Some in Hn. exact Hn.
  - intros (a & H & _ & ->) _. simpl.
    assert (nth_error input (endIndex x) <> None) as Hn by congruence.
    apply nth_error_Some in Hn. exact Hn.
  - intros (z & Ha & Hb) Hx. exact (IHb _ _ Hb (IHa _ _ Ha Hx)).
  - intros [H|H]; eauto.
  - apply iter_bound. exact IH.
  - intros (z & Hz & H) Hx. apply (iter_bound _ IH _ _ H). eauto.
  - intros [->|H]; [tauto | eauto].
  - intros (z & Hz & ->) Hx. simpl. eauto.
  - intros [_ ->]. tauto.
  - intros [_ ->]. tauto.
Qed.

Lemma total_from_later (x y : mstate) (c : continuation) :
  total_from input x c -> endIndex x <= endIndex y -> total_from input y c.
Proof. intros H Hxy z Hz. apply H. lia. Qed.

Lemma repeat_complete (m : matcher) (R : mstate -> mstate -> Prop) :
  (forall x y c res,
      endIndex x <= inputLength input -> R x y -> c y = Matched res ->
      total_from input x c -> exists res', m x c = Matched res') ->
  (forall x c, endIndex x <= inputLength input -> total_from input x c ->
               m x c <> Exhausted) ->
  (forall x y, R x y -> endIndex x <= endIndex y) ->
  (forall x y, R x y -> endIndex x <= inputLength input ->
               endIndex y <= inputLength input) ->
  forall x y, iter R x y ->
  forall fuel c res,
    endIndex x <= inputLength input ->
    inputLength input < fuel + endIndex x ->
    c y = Matched res -> total_from input x c ->
    exists res', repeatMatcher m fuel x c = Matched res'.
Proof.
  intros Hm Ht Hmono Hbound x y H.
  induction H as [x|x y z Hxy Hne Hit IH]; intros fuel c res Hx Hf Hc Htot;
    (destruct fuel as [|fuel]; [lia|]); simpl.
  - destruct (m x _) as [|w|] eqn:E; [eauto | eauto |].
    exfalso. revert E. apply Ht; [exact Hx|].
    intros w Hw. destruct (Nat.eqb (endIndex w) (endIndex x)) eqn:Ee;
      [discriminate|].
    apply Nat.eqb_neq in Ee.
    apply (repeat_total input); [exact Ht | lia | lia |].
    intros w' Hw'. apply Htot. lia.
  - pose proof (Hmono _ _ Hxy) as Hle.
    pose proof (Hbound _ _ Hxy Hx) as Hy.
    destruct (IH fuel c res Hy) as [res' Hres'];
      [lia | exact Hc | apply (total_from_later x); assumption |].
    destruct (Hm x y (fun w => if Nat.eqb (endIndex w) (endIndex x)
                               then Failure
                               else repeatMatcher m fuel w c) res' Hx Hxy)
      as [res'' Hres''].
    + destruct (Nat.eqb (endIndex y) (endIndex x)) eqn:Ee;
        [apply Nat.eqb_eq in Ee; contradiction | exact Hres'].
    + intros w Hw. destruct (Nat.eqb (endIndex w) (endIndex x)) eqn:Ee;
        [discriminate|].
      apply Nat.eqb_neq in Ee.
      apply (repeat_total input); [exact Ht | lia | lia |].
      intros w' Hw'. apply Htot. lia.
    + rewrite Hres''. eauto.
Qed.

Lemma same_state (x y : mstate) :
  endIndex y = endIndex x -> captures y = captures x -> y = x.
Proof. destruct x, y; simpl; intros -> ->; reflexivity. Qed.

(** Completeness: when some path of the pattern leads to a state that the
    continuation accepts, the search succeeds. *)
Lemma compile_complete (r : regex) : optsGroupFree r ->
  forall x y c res,
    endIndex x <= inputLength input ->
    denote input r x y -> c y = Matched res -> total_from input x c ->
    exists res', compile input r x c = Matched res'.
Proof.
  induction r as [|ch|p|a IHa b IHb|a IHa b IHb|r IH|r IH|r IH|n r IH| |];
    intros G x y c res Hx; cbn [compile].
  - intros -> Hc _. eauto.
  - intros [H ->] Hc _. rewrite H, N.eqb_refl. eauto.
  - intros (a & H & Hp & ->) Hc _. rewrite H, Hp. eauto.
  - destruct G as [Ga Gb]. intros (z & Ha & Hb) Hc Htot.
    pose proof (denote_mono _ _ _ _ Ha) as Hxz.
    pose proof (denote_bound _ _ _ Ha Hx) as Hz.
    destruct (IHb Gb z y c res Hz Hb Hc) as [r1 Hr1];
      [apply (total_from_later x); assumption|].
    apply (IHa Ga x z _ r1 Hx Ha Hr1).
    intros w Hw. apply compile_total; [lia|].
    intros w' Hw'. apply Htot. lia.
  - destruct G as [Ga Gb]. intros [H|H] Hc Htot.
    + destruct (IHa Ga x y c res Hx H Hc Htot) as [r1 ->]. eauto.
    + destruct (compile input a x c) as [|w|] eqn:E; [|eauto|].
      * exact (IHb Gb x y c res Hx H Hc Htot).
      * exfalso. revert E. apply compile_total; assumption.
  - intros H Hc Htot.
    apply (repeat_complete _ (denote input r)) with (y := y) (res := res);
      try assumption.
    + intros x' y' c' res' Hx' Hd Hc' Ht'. exact (IH G x' y' c' res' Hx' Hd Hc' Ht').
    + intros x' c' Hx' Ht'. apply compile_total; assumption.
    + apply denote_mono.
    + apply denote_bound.
    + unfold iterations. lia.
  - intros (z & Hz & H) Hc Htot.
    pose proof (denote_mono _ _ _ _ Hz) as Hxz.
    pose proof (denote_bound _ _ _ Hz Hx) as Hzb.
    destruct (repeat_complete (compile input r) (denote input r))
      with (x := z) (y := y) (fuel := iterations input z) (c := c) (res := res)
      as [r1 Hr1]; try assumption.
    + intros x' y' c' res' Hx' Hd Hc' Ht'. exact (IH G x' y' c' res' Hx' Hd Hc' Ht').
    + intros x' c' Hx' Ht'. apply compile_total; assumption.
    + apply denote_mono.
    + apply denote_bound.
    + unfold iterations. lia.
    + apply (total_from_later x); assumption.
    + apply (IH G x z _ r1 Hx Hz Hr1).
      intros w Hw. apply (repeat_total input).
      * intros x' c' Hx' Ht'. apply compile_total; assumption.
      * lia.
      * unfold iterations. lia.
      * intros w' Hw'. apply Htot. lia.
  - destruct G as [Gf G]. intros H Hc Htot.
    assert (total_from input x (fun w => if Nat.eqb (endIndex w) (endIndex x)
                                   then Failure else c w)) as Htot'.
    { intros w Hw. destruct (Nat.eqb (endIndex w) (endIndex x));
        [discriminate | apply Htot; exact Hw]. }
    destruct H as [->|H].
    + destruct (compile input r x _) as [|w|] eqn:E; [eauto | eauto |].
      exfalso. revert E. apply compile_total; assumption.
    + destruct (Nat.eq_dec (endIndex y) (endIndex x)) as [Ee|Ee].
      * pose proof (denote_captures _ _ Gf _ _ H) as Hcap.
        rewrite (same_state _ _ Ee Hcap) in Hc.
        destruct (compile input r x _) as [|w|] eqn:E; [eauto | eauto |].
        exfalso. revert E. apply compile_total; assumption.
      * destruct (IH G x y (fun w => if Nat.eqb (endIndex w) (endIndex x)
                                     then Failure else c w) res Hx H)
          as [r1 ->]; [|exact Htot'|eauto].
        apply Nat.eqb_neq in Ee. rewrite Ee. exact Hc.
  - intros (z & Hz & ->) Hc Htot.
    apply (IH G x z _ res Hx Hz Hc).
    intros w Hw. apply Htot. simpl. exact Hw.
  - intros [H ->] Hc _. rewrite H. eauto.
  - intros [H ->] Hc _. rewrite H. eauto.
Qed.

Lemma matchAt_complete (r : regex) (index : nat) (y : mstate) :
  optsGroupFree r -> index <= inputLength input ->
  denote input r (mkState index noCaptures) y ->
  exists y', matchAt input r index = Matched y'.
Proof.
  intros G Hi Hd. unfold matchAt.
  apply (compile_complete r G _ y Matched y); [exact Hi | exact Hd | reflexivity|].
  intros z _. discriminate.
Qed.

(** [exec] finds a match when there is one from [lastIndex] on, at the
    first index that has one. *)
Lemma tryFrom_finds (r : regex) (n : nat) : forall index k y,
  index <= k < index + n -> matchAt input r k = Matched y ->
  exists found y', tryFrom input r n index = Some (found, y')
                   /\ index <= found <= k.
Proof.
  induction n as [|n IH]; intros index k y Hk Hm; [lia|]. simpl.
  destruct (matchAt input r index) as [|w|] eqn:E.
  - destruct (Nat.eq_dec k index) as [->|Hne]; [congruence|].
    destruct (IH (S index) k y) as (found & y' & H1 & H2); [lia | exact Hm|].
    exists found, y'. split; [exact H1 | lia].
  - exists index, w. split; [reflexivity | lia].
  - destruct (Nat.eq_dec k index) as [->|Hne]; [congruence|].
    destruct (IH (S index) k y) as (found & y' & H1 & H2); [lia | exact Hm|].
    exists found, y'. split; [exact H1 | lia].
Qed.

Lemma exec_finds (r : regex) (lastIndex k : nat) (y : mstate) :
  lastIndex <= k <= inputLength input -> matchAt input r k = Matched y ->
  exists found y', exec input r lastIndex = Some (found, y')
                   /\ lastIndex <= found <= k.
Proof.
  intros Hk Hm. unfold exec. apply (tryFrom_finds r _ lastIndex k y); [lia|].
  exact Hm.
Qed.

(** *** Runs of a character class *)

Lemma charsIn_join (P : char -> bool) (a b c : nat) :
  charsIn input P a b -> charsIn input P b c -> charsIn input P a c.
Proof.
  intros H1 H2 k Hk. destruct (Nat.lt_ge_cases k b); [apply H1 | apply H2]; lia.
Qed.

Lemma charsIn_weaken (P Q : char -> bool) (a b : nat) :
  (forall c, P c = true -> Q c = true) ->
  charsIn input P a b -> charsIn input Q a b.
Proof.
  intros HPQ H k Hk. destruct (H k Hk) as (c & Hc & Hp). exists c. auto.
Qed.

Lemma iter_class_range (p : char -> bool) (caps : nat -> option (nat * nat))
      (n : nat) : forall a,
  charsIn input p a (a + n) ->
  iter (denote input (Class p)) (mkState a caps) (mkState (a + n) caps).
Proof.
  induction n as [|n IH]; intros a H.
  - rewrite Nat.add_0_r. constructor.
  - destruct (H a) as (c & Hc & Hp); [lia|].
    apply (iter_more _ _ (mkState (S a) caps)).
    + exists c. repeat split; assumption.
    + simpl. lia.
    + replace (a + S n) with (S a + n) by lia. apply IH.
      intros k Hk. apply H. lia.
Qed.

Lemma star_class_range (p : char -> bool) (caps : nat -> option (nat * nat))
      (a b : nat) :
  a <= b -> charsIn input p a b ->
  denote input (Star (Class p)) (mkState a caps) (mkState b caps).
Proof.
  intros Hab H. replace b with (a + (b - a)) by lia.
  apply iter_class_range. replace (a + (b - a)) with b by lia. exact H.
Qed.

Lemma plus_class_range (p : char -> bool) (caps : nat -> option (nat * nat))
      (a b : nat) :
  a < b -> charsIn input p a b ->
  denote input (Plus (Class p)) (mkState a caps) (mkState b caps).
Proof.
  intros Hab H. destruct (H a) as (c & Hc & Hp); [lia|].
  exists (mkState (S a) caps). split.
  - exists c. repeat split; assumption.
  - apply (star_class_range p caps (S a) b); [lia|].
    intros k Hk. apply H. lia.
Qed.

End Input.

End MatcherFacts.

(** * Bodies made of field declarations *)

Module FieldLineFacts.

Import RegExpFacts FieldFacts MatcherFacts.

Section Body.

Variable body : jsstring.

Lemma litChars_denote (s : jsstring) : forall x y,
  denote body (litChars s) x y ->
  endIndex y = endIndex x + List.length s
  /\ forall j, j < List.length s ->
               nth_error body (endIndex x + j) = nth_error s j.
Proof.
  induction s as [|c s IH]; intros x y.
  - simpl. intros ->. split; [lia | intros j Hj; lia].
  - destruct s as [|c' s].
    + simpl. intros [H ->]. simpl. split; [lia|].
      intros j Hj. replace j with 0 by lia. rewrite Nat.add_0_r. exact H.
    + change (litChars (c :: c' :: s)) with (Seq (Chr c) (litChars (c' :: s))).
      intros (z & [H ->] & Hd). apply IH in Hd. destruct Hd as [He Hn].
      simpl in He, Hn |- *. split; [lia|].
      intros j Hj. destruct j as [|j].
      * rewrite Nat.add_0_r. exact H.
      * replace (endIndex x + S j) with (S (endIndex x + j)) by lia.
        apply (Hn j). lia.
Qed.

Lemma lit_chars_in (s : jsstring) (P : char -> bool) (x y : mstate) :
  allOf P s -> denote body (litChars s) x y ->
  charsIn body P (endIndex x) (endIndex y).
Proof.
  intros Hs Hd. apply litChars_denote in Hd. destruct Hd as [He Hn].
  intros k Hk.
  replace k with (endIndex x + (k - endIndex x)) by lia.
  rewrite Hn by lia.
  destruct (nth_error s (k - endIndex x)) as [c|] eqn:E;
    [|apply nth_error_None in E; lia].
  exists c. split; [reflexivity|].
  unfold allOf in Hs. rewrite Forall_forall in Hs. apply Hs.
  eapply nth_error_In. exact E.
Qed.

Lemma charsIn_one (P : char -> bool) (k : nat) (c : char) :
  nth_error body k = Some c -> P c = true -> charsIn body P k (S k).
Proof.
  intros Hc Hp j Hj. replace j with k by lia. exists c. auto.
Qed.

Lemma space_prefix (c : char) : isSpace c = true -> isPrefixChar c = true.
Proof. unfold isPrefixChar. intros ->. reflexivity. Qed.

Lemma type_prefix (c : char) : isTypeChar c = true -> isPrefixChar c = true.
Proof. unfold isPrefixChar. intros ->. apply orb_true_r. Qed.

Lemma word_type (c : char) : isWordChar c = true -> isTypeChar c = true.
Proof.
  unfold isWordChar, isTypeChar. rewrite !orb_true_iff. tauto.
Qed.

Lemma ident_type (c : char) : isIdentStart c = true -> isTypeChar c = true.
Proof.
  unfold isIdentStart, isTypeChar. rewrite !orb_true_iff. tauto.
Qed.

Lemma isDigit_range (c : char) : isDigit c = true -> (48 <= c <= 57)%N.
Proof.
  unfold isDigit, between. rewrite andb_true_iff, !N.leb_le. tauto.
Qed.

Lemma space_not_digit (c : char) :
  isSpace c = true -> isDigit c = true -> False.
Proof.
  intros Hs Hd. apply isSpace_range in Hs. apply isDigit_range in Hd. lia.
Qed.

Lemma litChars_intro (s : jsstring) :
  forall i caps,
    (forall j, j < List.length s -> nth_error body (i + j) = nth_error s j) ->
    denote body (litChars s) (mkState i caps)
           (mkState (i + List.length s) caps).
Proof.
  induction s as [|c s IH]; intros i caps H.
  - simpl. rewrite Nat.add_0_r. reflexivity.
  - pose proof (H 0 ltac:(simpl; lia)) as H0. rewrite Nat.add_0_r in H0.
    simpl in H0.
    assert (denote body (litChars s) (mkState (S i) caps)
                   (mkState (S i + List.length s) caps)) as Hs.
    { apply IH. intros j Hj.
      replace (S i + j) with (i + S j) by lia. apply (H (S j)). simpl. lia. }
    replace (i + List.length (c :: s)) with (S i + List.length s)
      by (simpl; lia).
    destruct s as [|c' s].
    + simpl. split; [exact H0|]. unfold consume. simpl. f_equal. lia.
    + change (litChars (c :: c' :: s))
        with (Seq (Chr c) (litChars (c' :: s))).
      exists (mkState (S i) caps). split; [split; [exact H0 | reflexivity]|].
      exact Hs.
Qed.

(** The parts of the first group of a match: white space and a label, the
    type, which is a map type or a run of the type class, and the name with
    the white space around it, up to the [=]. *)
Lemma prefix_parts (x w : mstate) :
  denote body fieldPrefix x w ->
  exists a b q,
    endIndex x <= a /\ a < b /\ b < q /\ q < endIndex w
    /\ charsIn body isPrefixChar (endIndex x) a
    /\ (charsIn body isTypeChar a b
        \/ (nth_error body (a + 3) = Some c_lt
            /\ a + 4 < b
            /\ charsIn body isPrefixChar a (a + 3)
            /\ charsIn body (isNot c_gt) (a + 4) (b - 1)))
    /\ charsIn body isPrefixChar b q
    /\ nth_error body q = Some c_equals
    /\ charsIn body isSpace (S q) (endIndex w).
Proof.
  intros Hp.
  destruct Hp as (z0 & [_ ->] & x1 & Hw1 & x2 & Hopt & x3 & Hw2 & x4 & Hty
                  & x5 & Hw3 & x6 & Hid & x7 & Hnm & x8 & Hw4 & x9 & Heq & Hw5).
  pose proof (iter_mono _ (denote_mono body ws) _ _ Hw1) as M1.
  pose proof (iter_class body _ _ _ Hw1) as C1.
  pose proof (iter_mono _ (denote_mono body ws) _ _ Hw2) as M2.
  pose proof (iter_class body _ _ _ Hw2) as C2.
  pose proof (denote_mono _ _ _ _ Hw3) as M3.
  pose proof (iter_mono _ (denote_mono body (Class isWordChar)) _ _ Hnm) as M4.
  pose proof (iter_class body _ _ _ Hnm) as C4.
  pose proof (iter_mono _ (denote_mono body ws) _ _ Hw4) as M5.
  pose proof (iter_class body _ _ _ Hw4) as C5.
  pose proof (iter_mono _ (denote_mono body ws) _ _ Hw5) as M6.
  pose proof (iter_class body _ _ _ Hw5) as C6.
  destruct Heq as [Heq ->]. simpl in M6, C6.
  destruct Hid as (ci & Hci & Hpi & ->). simpl in M4, C4.
  (* the label, if any *)
  assert (endIndex x1 <= endIndex x2
          /\ charsIn body isPrefixChar (endIndex x1) (endIndex x2)) as [M12 C12].
  { destruct Hopt as [->|Hl].
    - split; [lia | intros k Hk; lia].
    - assert (forall s, allOf isTypeChar (str s) ->
                        denote body (lit s) x1 x2 ->
                        endIndex x1 <= endIndex x2
                        /\ charsIn body isPrefixChar (endIndex x1) (endIndex x2))
        as Hlit.
      { intros s Hs Hd. split.
        - apply denote_mono in Hd. exact Hd.
        - apply (charsIn_weaken body isTypeChar); [exact type_prefix|].
          exact (lit_chars_in _ _ _ _ Hs Hd). }
      destruct Hl as [Hl|[Hl|Hl]]; (refine (Hlit _ _ Hl));
        unfold allOf, str; simpl; repeat constructor. }
  (* the white space after the type *)
  assert (endIndex x4 < endIndex x5
          /\ charsIn body isPrefixChar (endIndex x4) (endIndex x5)) as [M45 C45].
  { destruct Hw3 as (z & (c & Hc & Hpc & ->) & Hit).
    pose proof (iter_class body _ _ _ Hit) as Cit.
    pose proof (iter_mono _ (denote_mono body ws) _ _ Hit) as Mit.
    simpl in Cit, Mit. split; [lia|].
    apply (charsIn_weaken body isSpace); [exact space_prefix|].
    apply (charsIn_join body _ _ (S (endIndex x4)));
      [exact (charsIn_one _ _ _ Hc Hpc) | exact Cit]. }
  (* the type *)
  assert (endIndex x3 < endIndex x4
          /\ (charsIn body isTypeChar (endIndex x3) (endIndex x4)
              \/ (nth_error body (endIndex x3 + 3) = Some c_lt
                  /\ endIndex x3 + 4 < endIndex x4
                  /\ charsIn body isPrefixChar (endIndex x3) (endIndex x3 + 3)
                  /\ charsIn body (isNot c_gt) (endIndex x3 + 4)
                             (endIndex x4 - 1)))) as [M34 C34].
  { destruct Hty as [Hmap|Hplus].
    - destruct Hmap as (z & Hl & z' & Hin & [Hg ->]).
      pose proof (litChars_denote _ _ _ Hl) as [El Hn]. simpl in El.
      destruct Hin as (z1 & (c & Hc & Hpc & ->) & Hit).
      pose proof (iter_class body _ _ _ Hit) as Ci.
      pose proof (iter_mono _ (denote_mono body (Class (isNot c_gt))) _ _ Hit)
        as Mi.
      simpl in Ci, Mi. unfold consume. cbn [endIndex].
      split; [lia|]. right.
      split; [exact (Hn 3 ltac:(simpl; lia))|]. split; [lia|]. split.
      + intros k Hk. replace k with (endIndex x3 + (k - endIndex x3)) by lia.
        rewrite Hn by (simpl; lia).
        destruct (k - endIndex x3) as [|[|[|n]]] eqn:E; [| | |lia];
          eexists; (split; [reflexivity|]); reflexivity.
      + replace (S (endIndex z') - 1) with (endIndex z') by lia.
        rewrite <- El.
        apply (charsIn_join body _ _ (S (endIndex z)));
          [exact (charsIn_one _ _ _ Hc Hpc) | exact Ci].
    - split; [|left].
      + destruct Hplus as (z & (c & Hc & Hpc & ->) & Hit).
        pose proof (iter_mono _ (denote_mono body (Class isTypeChar)) _ _ Hit)
          as Mit.
        simpl in Mit. lia.
      + destruct Hplus as (z & (c & Hc & Hpc & ->) & Hit).
        pose proof (iter_class body _ _ _ Hit) as Cit. simpl in Cit.
        apply (charsIn_join body _ _ (S (endIndex x3)));
          [exact (charsIn_one _ _ _ Hc Hpc) | exact Cit]. }
  exists (endIndex x3), (endIndex x4), (endIndex x8). simpl in *.
  split; [lia|]. split; [lia|]. split; [lia|]. split; [lia|].
  split.
  { apply (charsIn_join body _ _ (endIndex x1));
      [apply (charsIn_weaken body isSpace); [exact space_prefix | exact C1]|].
    apply (charsIn_join body _ _ (endIndex x2)); [exact C12|].
    apply (charsIn_weaken body isSpace); [exact space_prefix | exact C2]. }
  split; [exact C34|]. split.
  { apply (charsIn_join body _ _ (endIndex x5)); [exact C45|].
    apply (charsIn_join body _ _ (S (endIndex x5))).
    { apply (charsIn_one _ _ ci); [exact Hci|].
      apply type_prefix, ident_type. exact Hpi. }
    apply (charsIn_join body _ _ (endIndex x7)).
    { apply (charsIn_weaken body isWordChar); [|exact C4].
      intros c Hc. apply type_prefix, word_type. exact Hc. }
    apply (charsIn_weaken body isSpace); [exact space_prefix | exact C5]. }
  split; [exact Heq | exact C6].
Qed.

(** The [=] of a match that begins before an [=] of the body, when no
    other [=] lies in between and every [<] in between has a [>] after it
    before that [=]. *)
Lemma prefix_equals (x w : mstate) (Q : nat) :
  denote body fieldPrefix x w ->
  endIndex x <= Q -> nth_error body Q = Some c_equals ->
  (forall j, endIndex x <= j < Q -> nth_error body j <> Some c_equals) ->
  (forall m, endIndex x <= m < Q -> nth_error body m = Some c_lt ->
             exists g, m < g < Q /\ nth_error body g = Some c_gt) ->
  Q < endIndex w /\ charsIn body isSpace (S Q) (endIndex w).
Proof.
  intros Hp HxQ HQ HnoEq Hmap.
  destruct (prefix_parts _ _ Hp)
    as (a & b & q & Hxa & Hab & Hbq & Hqw & Ca & Cty & Cb & Hq & Csp).
  assert (forall P lo hi, charsIn body P lo hi -> P c_equals = false ->
                          lo <= Q < hi -> False) as Hx.
  { intros P lo hi HP Hn Hr. destruct (HP Q Hr) as (c & Hc & Hpc).
    rewrite HQ in Hc. inversion Hc; subst c. congruence. }
  assert (q = Q) as ->.
  { destruct (Nat.lt_trichotomy q Q) as [H|[H|H]]; [|exact H|]; exfalso.
    - exact (HnoEq q ltac:(lia) Hq).
    - destruct (Nat.lt_ge_cases Q a) as [H3|H3];
        [exact (Hx _ _ _ Ca eq_refl ltac:(lia))|].
      destruct (Nat.lt_ge_cases Q b) as [H4|H4];
        [|exact (Hx _ _ _ Cb eq_refl ltac:(lia))].
      destruct Cty as [Cty|(Hlt & Hb4 & Clit & Cin)];
        [exact (Hx _ _ _ Cty eq_refl ltac:(lia))|].
      destruct (Nat.lt_ge_cases Q (a + 3)) as [H5|H5];
        [exact (Hx _ _ _ Clit eq_refl ltac:(lia))|].
      assert (Q <> a + 3) by (intros ->; rewrite HQ in Hlt; discriminate).
      destruct (Hmap (a + 3) ltac:(lia) Hlt) as (g & Hg1 & Hg2).
      destruct (Cin g ltac:(lia)) as (c & Hc & Hpc).
      rewrite Hg2 in Hc. inversion Hc; subst c. discriminate. }
  split; [lia | exact Csp].
Qed.

(** The character after the tag of a match is no digit. *)
Lemma suffix_first (z w : mstate) :
  denote body fieldSuffix z w ->
  exists c, nth_error body (endIndex z) = Some c /\ isDigit c = false.
Proof.
  intros Hs.
  destruct Hs as (s1 & Hw1 & s2 & Hopt & s3 & Hw2 & Hsemi & ->).
  pose proof (iter_mono _ (denote_mono body ws) _ _ Hw1) as M1.
  pose proof (iter_class body _ _ _ Hw1) as C1.
  pose proof (iter_mono _ (denote_mono body ws) _ _ Hw2) as M2.
  pose proof (iter_class body _ _ _ Hw2) as C2.
  assert (forall k, (exists c, nth_error body k = Some c /\ isSpace c = true) ->
                    exists c, nth_error body k = Some c /\ isDigit c = false)
    as Hsp.
  { intros k (c & Hc & Hsc). exists c. split; [exact Hc|].
    destruct (isDigit c) eqn:E; [|reflexivity].
    exfalso. exact (space_not_digit _ Hsc E). }
  destruct (Nat.eq_dec (endIndex z) (endIndex s1)) as [E1|E1];
    [|apply Hsp, C1; lia].
  rewrite E1.
  destruct Hopt as [->|(t & [Ht _] & _)];
    [|exists c_lbracket; split; [exact Ht | reflexivity]].
  destruct (Nat.eq_dec (endIndex s1) (endIndex s3)) as [E2|E2];
    [|apply Hsp, C2; lia].
  rewrite E2. exists c_semicolon. split; [exact Hsemi | reflexivity].
Qed.

(** The end of the third group of a match. *)
Lemma suffix_end (z w : mstate) (P1 P : nat) :
  denote body fieldSuffix z w ->
  endIndex z <= P1 -> charsIn body isSpace (endIndex z) P1 ->
  tailAt body P1 P ->
  endIndex w = S P.
Proof.
  intros Hs HzP Csp Htail.
  destruct Hs as (s1 & Hw1 & s2 & Hopt & s3 & Hw2 & Hsemi & ->).
  pose proof (iter_mono _ (denote_mono body ws) _ _ Hw1) as M1.
  pose proof (iter_class body _ _ _ Hw1) as C1.
  pose proof (iter_mono _ (denote_mono body ws) _ _ Hw2) as M2.
  pose proof (iter_class body _ _ _ Hw2) as C2.
  assert (forall k lo hi c, charsIn body isSpace lo hi -> lo <= k < hi ->
                            nth_error body k = Some c -> isSpace c = false ->
                            False) as Hx.
  { intros k lo hi c HP Hr Hk Hn. destruct (HP k Hr) as (c' & Hc & Hpc).
    rewrite Hk in Hc. inversion Hc; subst c'. congruence. }
  assert (exists c, nth_error body P1 = Some c /\ isSpace c = false)
    as (c1 & Hc1 & Hn1).
  { destruct Htail as [[H _]|[H _]]; eexists; (split; [exact H|]);
      reflexivity. }
  assert (endIndex s1 <= P1) as Hs1.
  { destruct (Nat.le_gt_cases (endIndex s1) P1) as [H|H]; [exact H | exfalso].
    exact (Hx P1 _ _ c1 C1 ltac:(lia) Hc1 Hn1). }
  simpl. f_equal.
  destruct Hopt as [->|(t1 & [Hb ->] & t2 & Hit & [Hrb ->])].
  - (* no options in the match *)
    destruct (Nat.lt_trichotomy (endIndex s3) P1) as [H|[H|H]].
    + exfalso. exact (Hx (endIndex s3) _ _ _ Csp ltac:(lia) Hsemi eq_refl).
    + destruct Htail as [[_ ->]|[Hbr _]]; [exact H|].
      rewrite H, Hbr in Hsemi. discriminate.
    + exfalso. exact (Hx P1 _ _ c1 C2 ltac:(lia) Hc1 Hn1).
  - (* options in the match *)
    pose proof (iter_mono _ (denote_mono body (Class (isNot c_rbracket))) _ _ Hit)
      as Mi.
    pose proof (iter_class body _ _ _ Hit) as Ci. simpl in Mi, Ci, M2, C2.
    assert (endIndex s1 = P1) as E1.
    { destruct (Nat.eq_dec (endIndex s1) P1) as [E|E]; [exact E | exfalso].
      exact (Hx (endIndex s1) _ _ _ Csp ltac:(lia) Hb eq_refl). }
    rewrite E1 in *.
    destruct Htail as [[Hs _]|(_ & R & HR & Cin & HRb & HRP & CR & HP)];
      [rewrite Hs in Hb; discriminate|].
    assert (endIndex t2 = R) as E2.
    { destruct (Nat.lt_trichotomy (endIndex t2) R) as [H|[H|H]];
        [|exact H|]; exfalso.
      - destruct (Cin (endIndex t2) ltac:(lia)) as (c & Hc & Hpc).
        rewrite Hrb in Hc. inversion Hc; subst c. discriminate.
      - destruct (Ci R ltac:(lia)) as (c & Hc & Hpc).
        rewrite HRb in Hc. inversion Hc; subst c. discriminate. }
    rewrite E2 in *.
    destruct (Nat.lt_trichotomy (endIndex s3) P) as [H|[H|H]];
      [|exact H|]; exfalso.
    + exact (Hx (endIndex s3) _ _ _ CR ltac:(lia) Hsemi eq_refl).
    + exact (Hx P _ _ _ C2 ltac:(lia) HP eq_refl).
Qed.

(** The parts of a match. *)
Lemma field_match_parts (found : nat) (y : mstate) :
  matchAt body fieldRegex found = Matched y ->
  exists w1 z1 w2 z2 w3,
    denote body fieldPrefix (mkState found noCaptures) w1
    /\ endIndex z1 = endIndex w1
    /\ denote body fieldNumber z1 w2
    /\ endIndex z2 = endIndex w2
    /\ denote body fieldSuffix z2 w3
    /\ endIndex y = endIndex w3
    /\ numberToken (found, y) = (endIndex w1, endIndex w2).
Proof.
  intros H. apply compile_sound in H. destruct H as (y' & Hd & Hy).
  inversion Hy; subst y'; clear Hy.
  destruct Hd as (z1 & (w1 & Hp & ->) & z2 & (w2 & Hn & ->) & w3 & Hs & ->).
  pose proof (denote_captures _ _ fieldSuffix_groupFree _ _ Hs) as Cs.
  exists w1, (setCapture 1 (found, endIndex w1) w1), w2,
    (setCapture 2 (endIndex w1, endIndex w2) w2), w3.
  repeat (split; [first [assumption | reflexivity]|]).
  unfold numberToken. simpl. rewrite Cs. reflexivity.
Qed.

(** A match that begins before the [=] of a field laid out in the body
    has its tag and its end where the digits and the semicolon of that
    field are. *)
Lemma field_match_unique (P0 Q A B P1 P found : nat) (y : mstate) :
  (forall j, P0 <= j < Q -> nth_error body j <> Some c_equals) ->
  (forall m, P0 <= m < Q -> nth_error body m = Some c_lt ->
             exists g, m < g < Q /\ nth_error body g = Some c_gt) ->
  nth_error body Q = Some c_equals ->
  charsIn body isSpace (S Q) A -> Q < A ->
  charsIn body isDigit A B -> A < B ->
  charsIn body isSpace B P1 -> B <= P1 ->
  tailAt body P1 P ->
  P0 <= found <= Q ->
  matchAt body fieldRegex found = Matched y ->
  numberToken (found, y) = (A, B) /\ endIndex y = S P.
Proof.
  intros HnoEq Hmap HQ HsA HQA HdAB HAB HsB HBP Htail Hfound Hm.
  destruct (field_match_parts _ _ Hm)
    as (w1 & z1 & w2 & z2 & w3 & Hp & E1 & Hn & E2 & Hs & Ey & Htok).
  destruct (prefix_equals _ _ Q Hp) as [Hq2 Hq4]; simpl;
    [lia | exact HQ | intros j Hj; apply HnoEq; lia
     | intros m Hj; apply Hmap; lia|].
  (* the digits of the match *)
  assert (endIndex w1 < endIndex w2
          /\ charsIn body isDigit (endIndex w1) (endIndex w2)) as [Hab Hdig].
  { destruct Hn as (z & (d & Hd & Hdd & ->) & Hit).
    pose proof (iter_mono _ (denote_mono body (Class isDigit)) _ _ Hit) as Mi.
    pose proof (iter_class body _ _ _ Hit) as Ci. simpl in Mi, Ci.
    rewrite <- E1. split; [lia|].
    apply (charsIn_join body _ _ (S (endIndex z1)));
      [exact (charsIn_one _ _ _ Hd Hdd) | exact Ci]. }
  destruct (suffix_first _ _ Hs) as (cb & Hcb & Hncb). rewrite E2 in Hcb.
  set (a := endIndex w1) in *. set (b := endIndex w2) in *.
  (* the start of the digits *)
  assert (a = A) as Ea.
  { destruct (Hdig a) as (d & Hd & Hdd); [lia|].
    destruct (HdAB A) as (d' & Hd' & Hdd'); [lia|].
    destruct (Nat.lt_trichotomy a A) as [H|[H|H]]; [|exact H|]; exfalso.
    - destruct (HsA a) as (c & Hc & Hsc); [lia|].
      rewrite Hd in Hc. inversion Hc; subst c.
      exact (space_not_digit _ Hsc Hdd).
    - destruct (Hq4 A) as (c & Hc & Hsc); [lia|].
      rewrite Hd' in Hc. inversion Hc; subst c.
      exact (space_not_digit _ Hsc Hdd'). }
  (* the end of the digits *)
  assert (exists c, nth_error body B = Some c /\ isDigit c = false)
    as (cB & HcB & HncB).
  { destruct (Nat.eq_dec B P1) as [->|Hne].
    - destruct Htail as [[H _]|[H _]]; eexists; (split; [exact H|]);
        reflexivity.
    - destruct (HsB B) as (c & Hc & Hsc); [lia|].
      exists c. split; [exact Hc|].
      destruct (isDigit c) eqn:E; [|reflexivity].
      exfalso. exact (space_not_digit _ Hsc E). }
  assert (b = B) as Eb.
  { destruct (Nat.lt_trichotomy b B) as [H|[H|H]]; [|exact H|]; exfalso.
    - destruct (HdAB b) as (d & Hd & Hdd); [lia|].
      rewrite Hcb in Hd. inversion Hd; subst d. congruence.
    - destruct (Hdig B) as (d & Hd & Hdd); [lia|].
      rewrite HcB in Hd. inversion Hd; subst d. congruence. }
  rewrite Htok, Ey. fold a b. rewrite Ea, Eb. split; [reflexivity|].
  apply (suffix_end z2 w3 P1 P Hs); [rewrite E2, Eb | rewrite E2, Eb|];
    assumption.
Qed.

(** What every match needs from the body. *)
Lemma field_match_needs (found : nat) (y : mstate) :
  matchAt body fieldRegex found = Matched y ->
  In c_equals body /\ In c_semicolon body
  /\ Exists (fun c => isDigit c = true) body.
Proof.
  intros Hm.
  destruct (field_match_parts _ _ Hm)
    as (w1 & z1 & w2 & z2 & w3 & Hp & _ & Hn & _ & Hs & _).
  split; [|split].
  - destruct Hp as (z0 & _ & x1 & _ & x2 & _ & x3 & _ & x4 & _
                    & x5 & _ & x6 & _ & x7 & _ & x8 & _ & x9 & [Heq _] & _).
    eapply nth_error_In. exact Heq.
  - destruct Hs as (s1 & _ & s2 & _ & s3 & _ & Hsemi & _).
    eapply nth_error_In. exact Hsemi.
  - destruct Hn as (z & (d & Hd & Hdd & _) & _).
    apply Exists_exists. exists d. split; [|exact Hdd].
    eapply nth_error_In. exact Hd.
Qed.

Lemma fieldRegex_optsGroupFree : optsGroupFree fieldRegex.
Proof. simpl. tauto. Qed.

(** A field declaration laid out in the body, from a line start on, is
    matched. *)
Lemma field_match_exists (K0 T0 L1 T S1 N S2 Q A B P1 P : nat) (n0 : char) :
  atLineStart body K0 = true ->
  K0 <= T0 -> charsIn body isSpace K0 T0 ->
  (L1 = T0
   \/ exists s, (s = "optional" \/ s = "required" \/ s = "repeated")%string
                /\ L1 = T0 + List.length (str s)
                /\ forall j, j < List.length (str s) ->
                             nth_error body (T0 + j) = nth_error (str s) j) ->
  L1 <= T -> charsIn body isSpace L1 T ->
  ((T < S1 /\ charsIn body isTypeChar T S1)
   \/ ((forall j, j < 4 -> nth_error body (T + j) = nth_error (str "map<") j)
       /\ T + 4 < S1 - 1
       /\ charsIn body (isNot c_gt) (T + 4) (S1 - 1)
       /\ nth_error body (S1 - 1) = Some c_gt)) ->
  S1 < N -> charsIn body isSpace S1 N ->
  nth_error body N = Some n0 -> isIdentStart n0 = true ->
  S N <= S2 -> charsIn body isWordChar (S N) S2 ->
  S2 <= Q -> charsIn body isSpace S2 Q ->
  nth_error body Q = Some c_equals ->
  S Q <= A -> charsIn body isSpace (S Q) A ->
  A < B -> charsIn body isDigit A B ->
  B <= P1 -> charsIn body isSpace B P1 ->
  tailAt body P1 P ->
  exists y, matchAt body fieldRegex K0 = Matched y.
Proof.
  intros Hbol HT0 CT0 Hlab HT CT Hty HN CN Hn0 Hid HS2 CS2 HQ CQ Heq HA CA HB CB
         HP1 CP1 Htail.
  assert (P1 <= P /\ nth_error body P = Some c_semicolon) as [HP Hsemi].
  { destruct Htail as [[H ->]|(_ & R & HR & _ & _ & HRP & _ & H)];
      (split; [lia | exact H]). }
  assert (P < inputLength body) as Hlen
      by (apply nth_error_Some; congruence).
  assert (T0 <= L1) as HL1
      by (destruct Hlab as [->|(s & _ & -> & _)]; lia).
  assert (T < S1) as HS1 by (destruct Hty as [[H _]|(_ & H & _)]; lia).
  assert (forall caps, denote body fieldPrefix (mkState K0 caps)
                              (mkState A caps)) as Dp.
  { intros caps.
    exists (mkState K0 caps). split; [split; [exact Hbol | reflexivity]|].
    exists (mkState T0 caps). split; [apply star_class_range; assumption|].
    exists (mkState L1 caps). split.
    { destruct Hlab as [->|(s & Hs & -> & Hlit)]; [left; reflexivity|].
      right. destruct Hs as [->|[->| ->]];
        [left | right; left | right; right];
        apply (litChars_intro _ T0 caps Hlit). }
    exists (mkState T caps). split; [apply star_class_range; assumption|].
    exists (mkState S1 caps). split.
    { destruct Hty as [[_ CS1]|(Hlit & Hin & Cin & Hgt)].
      - right. apply plus_class_range; assumption.
      - left. exists (mkState (T + 4) caps).
        split; [exact (litChars_intro (str "map<") T caps Hlit)|].
        exists (mkState (S1 - 1) caps).
        split; [apply plus_class_range; assumption|].
        split; [exact Hgt|]. unfold consume. simpl. f_equal. lia. }
    exists (mkState N caps). split; [apply plus_class_range; assumption|].
    exists (mkState (S N) caps).
    split; [exists n0; repeat split; assumption|].
    exists (mkState S2 caps). split; [apply star_class_range; assumption|].
    exists (mkState Q caps). split; [apply star_class_range; assumption|].
    exists (mkState (S Q) caps). split; [split; [exact Heq | reflexivity]|].
    apply star_class_range; assumption. }
  assert (forall caps, denote body fieldNumber (mkState A caps)
                              (mkState B caps)) as Dn
      by (intros caps; apply plus_class_range; assumption).
  assert (forall caps, denote body fieldSuffix (mkState B caps)
                              (mkState (S P) caps)) as Ds.
  { intros caps.
    exists (mkState P1 caps). split; [apply star_class_range; assumption|].
    destruct Htail as [[Hs ->]|(Hb & R & HR & Cin & HRb & HRP & CR & Hs)].
    - exists (mkState P1 caps). split; [left; reflexivity|].
      exists (mkState P1 caps). split; [constructor|].
      split; [exact Hs | reflexivity].
    - exists (mkState (S R) caps). split.
      { right. exists (mkState (S P1) caps).
        split; [split; [exact Hb | reflexivity]|].
        exists (mkState R caps).
        split; [apply star_class_range; [lia | exact Cin]|].
        split; [exact HRb | reflexivity]. }
      exists (mkState P caps).
      split; [apply star_class_range; [lia | exact CR]|].
      split; [exact Hs | reflexivity]. }
  eapply (matchAt_complete body fieldRegex K0);
    [exact fieldRegex_optsGroupFree | lia |].
  eexists. split; [eexists; split; [apply Dp | reflexivity]|].
  eexists. split; [eexists; split; [apply Dn | reflexivity]|].
  eexists. split; [apply Ds | reflexivity].
Qed.

End Body.

Lemma seg_at (body l1 seg l2 : jsstring) (P : char -> bool) (a b : nat) :
  body = l1 ++ seg ++ l2 -> allOf P seg ->
  a = List.length l1 -> b = List.length l1 + List.length seg ->
  charsIn body P a b.
Proof.
  intros -> Hs -> -> k Hk. rewrite nth_error_app2 by lia.
  rewrite nth_error_app1 by lia.
  destruct (nth_error seg _) as [c|] eqn:E;
    [|apply nth_error_None in E; lia].
  exists c. split; [reflexivity|].
  unfold allOf in Hs. rewrite Forall_forall in Hs. apply Hs.
  eapply nth_error_In. exact E.
Qed.

Lemma char_at (body l1 l2 : jsstring) (c : char) (k : nat) :
  body = l1 ++ c :: l2 -> k = List.length l1 -> nth_error body k = Some c.
Proof.
  intros -> ->. rewrite nth_error_app2 by lia. rewrite Nat.sub_diag.
  reflexivity.
Qed.

Lemma lit_at (body l1 seg l2 : jsstring) (a : nat) :
  body = l1 ++ seg ++ l2 -> a = List.length l1 ->
  forall j, j < List.length seg -> nth_error body (a + j) = nth_error seg j.
Proof.
  intros -> -> j Hj. rewrite nth_error_app2 by lia.
  replace (List.length l1 + j - List.length l1) with j by lia.
  apply nth_error_app1. exact Hj.
Qed.

Lemma next_seg (body l seg r : jsstring) :
  body = l ++ seg ++ r -> body = (l ++ seg) ++ r.
Proof. intros ->. apply app_assoc. Qed.

Lemma inner_seg (body l a b r : jsstring) :
  body = l ++ (a ++ b) ++ r -> body = l ++ a ++ b ++ r.
Proof. intros ->. rewrite <- app_assoc. reflexivity. Qed.

Lemma allOf_weaken (P Q : char -> bool) (s : jsstring) :
  (forall c, P c = true -> Q c = true) -> allOf P s -> allOf Q s.
Proof.
  intros H Hs. unfold allOf in *. rewrite Forall_forall in *. auto.
Qed.

Lemma not_in_allOf (c : char) (s : jsstring) : ~ In c s -> allOf (isNot c) s.
Proof.
  intros H. apply Forall_forall. intros x Hx. unfold isNot.
  apply negb_true_iff, N.eqb_neq. intros ->. exact (H Hx).
Qed.

Lemma plain_type (c : char) : isPlainTypeChar c = true -> isTypeChar c = true.
Proof. unfold isPlainTypeChar. rewrite andb_true_iff. tauto. Qed.

Lemma label_word (s : jsstring) : isLabel s -> allOf isWordChar s.
Proof. intros [->|[->|[->| ->]]]; repeat constructor. Qed.

Ltac bool_to_prop :=
  repeat (rewrite andb_true_iff || rewrite orb_true_iff
          || rewrite negb_true_iff || rewrite N.eqb_neq || rewrite N.eqb_eq
          || rewrite N.leb_le).

Lemma spaceOrWord_not (x c : char) :
  x = c_equals \/ x = c_lt -> isSpaceOrWord c = true -> isNot x c = true.
Proof.
  intros Hx H. unfold isSpaceOrWord in H. apply orb_true_iff in H.
  unfold isNot. apply negb_true_iff, N.eqb_neq.
  destruct H as [H|H].
  - apply isSpace_range in H. unfold c_equals, c_lt in Hx. lia.
  - revert H.
    unfold isWordChar, isLetter, isUpper, isLower, isDigit, between.
    bool_to_prop. unfold c_equals, c_lt in Hx. lia.
Qed.

Lemma plainType_not (x c : char) :
  x = c_equals \/ x = c_lt -> isPlainTypeChar c = true -> isNot x c = true.
Proof.
  intros Hx. unfold isNot.
  unfold isPlainTypeChar, isTypeChar, isLetter, isUpper, isLower, isDigit,
    between.
  bool_to_prop. unfold c_equals, c_lt in *. lia.
Qed.

Lemma space_spaceOrWord (c : char) :
  isSpace c = true -> isSpaceOrWord c = true.
Proof. unfold isSpaceOrWord. intros ->. reflexivity. Qed.

Lemma word_spaceOrWord (c : char) :
  isWordChar c = true -> isSpaceOrWord c = true.
Proof. unfold isSpaceOrWord. intros ->. apply orb_true_r. Qed.

Lemma ident_word (c : char) : isIdentStart c = true -> isWordChar c = true.
Proof.
  unfold isIdentStart, isWordChar. intros H.
  apply orb_true_iff in H. destruct H as [->| ->];
    [reflexivity | rewrite orb_true_r; reflexivity].
Qed.

Ltac pos_len :=
  repeat (rewrite length_app || rewrite length_cons); simpl; lia.

(** A well-formed field in a body: [exec] from the start of the field
    finds a match whose tag is the digits of the field and which ends
    after its semicolon. *)
Lemma field_in_context (pre rest : jsstring) (f : fieldLine) :
  wellFormedField f -> pre = [] \/ startsLine f ->
  exists found y,
    exec (pre ++ fieldSource f ++ rest) fieldRegex (List.length pre)
    = Some (found, y)
    /\ numberToken (found, y)
       = (List.length pre + List.length (fieldLead f),
          List.length pre + List.length (fieldLead f)
          + List.length (fl_digits f))
    /\ endIndex y = List.length pre + List.length (fieldSource f)
    /\ found < endIndex y.
Proof.
  intros Hwf Hstart.
  destruct Hwf as [Wgap Wlab Wsp0 Wty Wsp1 Wsp1ne Wn0 Wnm Wsp2 Wsp3 Wdg Wdgne
                   Wsp4 Wopt Wsp5].
  destruct f as [gap lab sp0 ty sp1 n0 nm sp2 sp3 dg sp4 opt sp5].
  unfold startsLine in Hstart.
  cbn [fl_gap fl_label fl_sp0 fl_type fl_sp1 fl_name0 fl_name fl_sp2 fl_sp3
       fl_digits fl_sp4 fl_options fl_sp5] in *.
  remember (typeText ty) as tyt eqn:Etyt.
  remember (optionsText opt) as ot eqn:Eot.
  assert (List.length (fieldLead (mkFieldLine gap lab sp0 ty sp1 n0 nm sp2 sp3
                                              dg sp4 opt sp5))
          = List.length gap + List.length lab + List.length sp0
            + List.length tyt + List.length sp1 + 1 + List.length nm
            + List.length sp2 + 1 + List.length sp3) as Llead
      by (unfold fieldLead; cbn [fl_gap fl_label fl_sp0 fl_type fl_sp1
                                 fl_name0 fl_name fl_sp2 fl_sp3];
          rewrite <- Etyt; pos_len).
  assert (List.length (fieldSource (mkFieldLine gap lab sp0 ty sp1 n0 nm sp2
                                                sp3 dg sp4 opt sp5))
          = List.length gap + List.length lab + List.length sp0
            + List.length tyt + List.length sp1 + 1 + List.length nm
            + List.length sp2 + 1 + List.length sp3 + List.length dg
            + List.length sp4 + List.length ot + List.length sp5 + 1) as Lsrc
      by (unfold fieldSource; rewrite length_app, Llead; unfold fieldTail;
          cbn [fl_digits fl_sp4 fl_options fl_sp5]; rewrite <- Eot; pos_len).
  rewrite Llead, Lsrc.
  remember (pre ++ fieldSource (mkFieldLine gap lab sp0 ty sp1 n0 nm sp2 sp3
                                            dg sp4 opt sp5) ++ rest)
    as body eqn:Ebody0.
  assert (body = pre ++ gap ++ lab ++ sp0 ++ tyt ++ sp1 ++ n0 :: nm ++ sp2
                     ++ c_equals :: sp3 ++ dg ++ sp4 ++ ot ++ sp5
                     ++ c_semicolon :: rest) as E0.
  { rewrite Ebody0, Etyt, Eot. unfold fieldSource, fieldLead, fieldTail.
    cbn [fl_gap fl_label fl_sp0 fl_type fl_sp1 fl_name0 fl_name fl_sp2 fl_sp3
         fl_digits fl_sp4 fl_options fl_sp5].
    repeat (rewrite <- app_assoc || rewrite <- app_comm_cons). reflexivity. }
  clear Ebody0 Llead Lsrc.
  set (P0 := List.length pre).
  set (T0 := P0 + List.length gap).
  set (L1 := T0 + List.length lab).
  set (T := L1 + List.length sp0).
  set (S1 := T + List.length tyt).
  set (N := S1 + List.length sp1).
  set (S2 := S N + List.length nm).
  set (Q := S2 + List.length sp2).
  set (A := S Q + List.length sp3).
  set (B := A + List.length dg).
  set (P1a := B + List.length sp4).
  set (P2 := P1a + List.length ot).
  set (P := P2 + List.length sp5).
  pose proof (next_seg _ _ _ _ E0) as E1.
  pose proof (next_seg _ _ _ _ E1) as E2.
  pose proof (next_seg _ _ _ _ E2) as E3.
  pose proof (next_seg _ _ _ _ E3) as E4.
  pose proof (next_seg _ _ _ _ E4) as E5.
  pose proof (next_seg body _ [n0] _ E5) as E6.
  pose proof (next_seg _ _ _ _ E6) as E7.
  pose proof (next_seg _ _ _ _ E7) as E8.
  pose proof (next_seg body _ [c_equals] _ E8) as E9.
  pose proof (next_seg _ _ _ _ E9) as E10.
  pose proof (next_seg _ _ _ _ E10) as E11.
  pose proof (next_seg _ _ _ _ E11) as E12.
  pose proof (next_seg _ _ _ _ E12) as E13.
  pose proof (next_seg _ _ _ _ E13) as E14.
  assert (0 < List.length sp1) as Lsp1
      by (destruct sp1; [congruence | simpl; lia]).
  assert (0 < List.length dg) as Ldg by (destruct dg; [congruence | simpl; lia]).
  assert (charsIn body isSpace P0 T0) as Cgap
      by (apply (seg_at _ _ _ _ _ _ _ E0 Wgap); subst T0 P0; pos_len).
  assert (charsIn body isWordChar T0 L1) as Clab
      by (apply (seg_at _ _ _ _ _ _ _ E1 (label_word _ Wlab));
          subst L1 T0 P0; pos_len).
  assert (charsIn body isSpace L1 T) as Csp0
      by (apply (seg_at _ _ _ _ _ _ _ E2 Wsp0); subst T L1 T0 P0; pos_len).
  assert (charsIn body isSpace S1 N) as Csp1
      by (apply (seg_at _ _ _ _ _ _ _ E4 Wsp1);
          subst N S1 T L1 T0 P0; pos_len).
  assert (nth_error body N = Some n0) as Cn0
      by (apply (char_at _ _ _ _ _ E5); subst N S1 T L1 T0 P0; pos_len).
  assert (charsIn body isWordChar (S N) S2) as Cnm
      by (apply (seg_at _ _ _ _ _ _ _ E6 Wnm);
          subst S2 N S1 T L1 T0 P0; pos_len).
  assert (charsIn body isSpace S2 Q) as Csp2
      by (apply (seg_at _ _ _ _ _ _ _ E7 Wsp2);
          subst Q S2 N S1 T L1 T0 P0; pos_len).
  assert (nth_error body Q = Some c_equals) as Ceq
      by (apply (char_at _ _ _ _ _ E8); subst Q S2 N S1 T L1 T0 P0; pos_len).
  assert (charsIn body isSpace (S Q) A) as Csp3
      by (apply (seg_at _ _ _ _ _ _ _ E9 Wsp3);
          subst A Q S2 N S1 T L1 T0 P0; pos_len).
  assert (charsIn body isDigit A B) as Cdg
      by (apply (seg_at _ _ _ _ _ _ _ E10 Wdg);
          subst B A Q S2 N S1 T L1 T0 P0; pos_len).
  assert (charsIn body isSpace B P1a) as Csp4
      by (apply (seg_at _ _ _ _ _ _ _ E11 Wsp4);
          subst P1a B A Q S2 N S1 T L1 T0 P0; pos_len).
  assert (charsIn body isSpace P2 P) as Csp5
      by (apply (seg_at _ _ _ _ _ _ _ E13 Wsp5);
          subst P P2 P1a B A Q S2 N S1 T L1 T0 P0; pos_len).
  assert (nth_error body P = Some c_semicolon) as Csemi
      by (apply (char_at _ _ _ _ _ E14);
          subst P P2 P1a B A Q S2 N S1 T L1 T0 P0; pos_len).
  (* the label *)
  assert (L1 = T0
          \/ exists s, (s = "optional" \/ s = "required" \/ s = "repeated")%string
                       /\ L1 = T0 + List.length (str s)
                       /\ forall j, j < List.length (str s) ->
                                    nth_error body (T0 + j) = nth_error (str s) j)
    as Hlab.
  { pose proof (lit_at _ _ _ _ T0 E1 ltac:(subst T0 P0; pos_len)) as Hlit.
    destruct Wlab as [->|[->|[->| ->]]];
      [left; subst L1; simpl; lia
      |right; exists "optional"%string
      |right; exists "required"%string
      |right; exists "repeated"%string];
      (split; [tauto|]); (split; [reflexivity | exact Hlit]). }
  (* the type *)
  assert (T < S1
          /\ ((T < S1 /\ charsIn body isTypeChar T S1)
              \/ ((forall j, j < 4 ->
                             nth_error body (T + j) = nth_error (str "map<") j)
                  /\ T + 4 < S1 - 1
                  /\ charsIn body (isNot c_gt) (T + 4) (S1 - 1)
                  /\ nth_error body (S1 - 1) = Some c_gt))
          /\ charsIn body (isNot c_equals) T S1
          /\ (forall m, T <= m < S1 -> nth_error body m = Some c_lt ->
                        exists g, m < g < S1 /\ nth_error body g = Some c_gt))
    as (HTS1 & Hty & CtyEq & CtyLt).
  { destruct ty as [s|inner]; cbn [typeText wellFormedType] in Etyt, Wty.
    - destruct Wty as [Ws Wne]. rewrite <- Etyt in Ws, Wne.
      assert (0 < List.length tyt) as Lty
          by (destruct tyt; [congruence | simpl; lia]).
      assert (charsIn body isPlainTypeChar T S1) as Cty
          by (apply (seg_at _ _ _ _ _ _ _ E3 Ws);
              subst S1 T L1 T0 P0; pos_len).
      split; [subst S1; lia|]. split; [|split].
      + left. split; [subst S1; lia|].
        exact (charsIn_weaken body _ _ _ _ plain_type Cty).
      + apply (charsIn_weaken body isPlainTypeChar); [|exact Cty].
        intros c Hc. apply (plainType_not c_equals c);
          [left; reflexivity | exact Hc].
      + intros m Hm Hc. exfalso. destruct (Cty m Hm) as (c & Hc' & Hpc).
        rewrite Hc in Hc'. inversion Hc'; subst c. discriminate.
    - destruct Wty as (Wne & Wgt & Weq).
      assert (0 < List.length inner) as Lin
          by (destruct inner; [congruence | simpl; lia]).
      assert (List.length tyt = 4 + List.length inner + 1) as Ltyt
          by (rewrite Etyt; repeat rewrite length_app; simpl; lia).
      rewrite Etyt in E3.
      pose proof (inner_seg _ _ _ _ _ E3) as Em1.
      pose proof (next_seg _ _ _ _ Em1) as Em2.
      pose proof (inner_seg _ _ _ _ _ Em2) as Em3.
      pose proof (next_seg _ _ _ _ Em3) as Em4.
      pose proof (lit_at _ _ _ _ T Em1 ltac:(subst T L1 T0 P0; pos_len))
        as Hlit.
      assert (charsIn body (isNot c_gt) (T + 4) (S1 - 1)) as Cin
          by (apply (seg_at _ _ _ _ _ _ _ Em3 (not_in_allOf _ _ Wgt));
              subst S1 T L1 T0 P0; rewrite ?Ltyt; pos_len).
      assert (charsIn body (isNot c_equals) (T + 4) (S1 - 1)) as CinEq
          by (apply (seg_at _ _ _ _ _ _ _ Em3 (not_in_allOf _ _ Weq));
              subst S1 T L1 T0 P0; rewrite ?Ltyt; pos_len).
      assert (nth_error body (S1 - 1) = Some c_gt) as Hgt
          by (apply (char_at _ _ _ _ _ Em4);
              subst S1 T L1 T0 P0; rewrite ?Ltyt; pos_len).
      split; [subst S1; lia|]. split; [|split].
      + right. split; [exact Hlit|]. split; [subst S1; lia|].
        split; [exact Cin | exact Hgt].
      + intros k Hk.
        destruct (Nat.lt_ge_cases k (T + 4)) as [H4|H4].
        * replace k with (T + (k - T)) by lia.
          rewrite Hlit by (simpl; lia).
          destruct (k - T) as [|[|[|[|n]]]] eqn:E; [| | | |lia];
            eexists; (split; [reflexivity|]); reflexivity.
        * destruct (Nat.eq_dec k (S1 - 1)) as [->|Hne];
            [exists c_gt; split; [exact Hgt | reflexivity]|].
          apply CinEq. subst S1. lia.
      + intros m Hm Hc. exists (S1 - 1).
        split; [|exact Hgt].
        assert (m <> S1 - 1) by (intros ->; rewrite Hgt in Hc; discriminate).
        subst S1. lia. }
  (* what follows the tag *)
  assert (exists P1, B <= P1 /\ charsIn body isSpace B P1 /\ tailAt body P1 P)
    as (P1 & HBP1 & CP1 & Htail).
  { destruct opt as [o|]; cbn [optionsText wellFormedOptions] in Eot, Wopt.
    - assert (List.length ot = 1 + List.length o + 1) as Lot
          by (rewrite Eot; pos_len).
      rewrite Eot in E12.
      pose proof (next_seg body _ [c_lbracket] _ E12) as Eo1.
      pose proof (inner_seg _ _ _ _ _ Eo1) as Eo2.
      pose proof (next_seg _ _ _ _ Eo2) as Eo3.
      exists P1a. split; [subst P1a; lia|]. split; [exact Csp4|].
      right. split.
      { apply (char_at _ _ _ _ _ E12).
        subst P1a B A Q S2 N S1 T L1 T0 P0; pos_len. }
      exists (S P1a + List.length o). split; [lia|]. split.
      { apply (seg_at _ _ _ _ _ _ _ Eo2 (not_in_allOf _ _ Wopt));
          subst P1a B A Q S2 N S1 T L1 T0 P0; pos_len. }
      split.
      { apply (char_at _ _ _ _ _ Eo3).
        subst P1a B A Q S2 N S1 T L1 T0 P0; pos_len. }
      split; [subst P P2; lia|]. split; [|exact Csemi].
      replace (S (S P1a + List.length o)) with P2 by (subst P2; lia).
      exact Csp5.
    - assert (List.length ot = 0) as Lot by (rewrite Eot; reflexivity).
      exists P. split; [subst P P2 P1a; lia|]. split.
      + apply (charsIn_join body _ _ P1a); [exact Csp4|].
        replace P1a with P2 by (subst P2; lia). exact Csp5.
      + left. split; [exact Csemi | reflexivity]. }
  (* a line start in the white space before the field *)
  assert (exists K0, P0 <= K0 <= T0 /\ atLineStart body K0 = true
                     /\ charsIn body isSpace K0 T0) as (K0 & HK0 & Hbol & CK0).
  { destruct Hstart as [Hpre|Hline].
    - exists 0. subst T0 P0. rewrite Hpre in *. simpl List.length in *.
      split; [lia|]. split; [reflexivity | exact Cgap].
    - apply Exists_exists in Hline. destruct Hline as (lt & Hin & Hlt').
      apply in_split in Hin. destruct Hin as (g1 & g2 & Hg).
      exists (S (P0 + List.length g1)).
      assert (List.length gap = List.length g1 + S (List.length g2)) as Lg
          by (rewrite Hg, length_app; reflexivity).
      split; [subst T0; lia|]. split.
      + simpl. rewrite Hg in E0. rewrite <- app_assoc in E0.
        pose proof (next_seg _ _ _ _ E0) as Eg.
        rewrite (char_at _ _ _ lt _ Eg);
          [exact Hlt' | subst P0; pos_len].
      + intros k Hk. apply Cgap. subst T0. lia. }
  (* the characters before the [=] of the field *)
  assert (charsIn body isSpaceOrWord P0 T) as Ca.
  { apply (charsIn_join body _ _ T0);
      [exact (charsIn_weaken body _ _ _ _ space_spaceOrWord Cgap)|].
    apply (charsIn_join body _ _ L1);
      [exact (charsIn_weaken body _ _ _ _ word_spaceOrWord Clab)|].
    exact (charsIn_weaken body _ _ _ _ space_spaceOrWord Csp0). }
  assert (charsIn body isSpaceOrWord S1 Q) as Cb.
  { apply (charsIn_join body _ _ N);
      [exact (charsIn_weaken body _ _ _ _ space_spaceOrWord Csp1)|].
    apply (charsIn_join body _ _ (S N)).
    { apply (charsIn_one body _ _ n0 Cn0).
      apply word_spaceOrWord, ident_word. exact Wn0. }
    apply (charsIn_join body _ _ S2);
      [exact (charsIn_weaken body _ _ _ _ word_spaceOrWord Cnm)|].
    exact (charsIn_weaken body _ _ _ _ space_spaceOrWord Csp2). }
  assert (forall j, P0 <= j < Q -> nth_error body j <> Some c_equals) as HnoEq.
  { assert (charsIn body (isNot c_equals) P0 Q) as Cno.
    { apply (charsIn_join body _ _ T).
      { apply (charsIn_weaken body isSpaceOrWord); [|exact Ca].
        intros c Hc. apply (spaceOrWord_not c_equals c);
          [left; reflexivity | exact Hc]. }
      apply (charsIn_join body _ _ S1); [exact CtyEq|].
      apply (charsIn_weaken body isSpaceOrWord); [|exact Cb].
      intros c Hc. apply (spaceOrWord_not c_equals c);
        [left; reflexivity | exact Hc]. }
    intros j Hj Hc. destruct (Cno j Hj) as (c & Hc' & Hpc).
    rewrite Hc in Hc'. inversion Hc'; subst c. discriminate. }
  assert (forall m, P0 <= m < Q -> nth_error body m = Some c_lt ->
                    exists g, m < g < Q /\ nth_error body g = Some c_gt)
    as Hmap.
  { intros m Hm Hc.
    assert (forall lo hi, charsIn body isSpaceOrWord lo hi -> lo <= m < hi ->
                          False) as Hx.
    { intros lo hi HP Hr. destruct (HP m Hr) as (c & Hc' & Hpc).
      rewrite Hc in Hc'. inversion Hc'; subst c. discriminate. }
    destruct (Nat.lt_ge_cases m T) as [H1|H1];
      [exfalso; exact (Hx _ _ Ca ltac:(lia))|].
    destruct (Nat.lt_ge_cases m S1) as [H2|H2];
      [|exfalso; exact (Hx _ _ Cb ltac:(lia))].
    destruct (CtyLt m ltac:(lia) Hc) as (g & Hg & Hgc).
    exists g. split; [subst N S2 Q; lia | exact Hgc]. }
  assert (P < inputLength body) as Hlen
      by (apply nth_error_Some; congruence).
  destruct (field_match_exists body K0 T0 L1 T S1 N S2 Q A B P1 P n0)
    as [y0 Hy0];
    try assumption; try (subst T S1 N S2 Q A B; lia).
  assert (K0 <= Q) as HK0Q by (subst Q S2 N T L1; lia).
  destruct (exec_finds body fieldRegex P0 K0 y0) as (found & y & Hex & Hf);
    [lia | exact Hy0|].
  pose proof (exec_spec _ _ _ _ _ Hex) as (_ & Hm & _).
  destruct (field_match_unique body P0 Q A B P1 P found y) as [Htok Hend];
    try assumption; try (subst A B; lia).
  exists found, y. split; [exact Hex|]. split; [|split].
  - rewrite Htok. f_equal; subst B A Q S2 N S1 T L1 T0 P0; lia.
  - rewrite Hend. subst P P2 P1a B A Q S2 N S1 T L1 T0 P0. lia.
  - rewrite Hend. subst P P2 P1a B A. lia.
Qed.

Lemma field_in_context_eq (body pre rest : jsstring) (f : fieldLine) :
  body = pre ++ fieldSource f ++ rest ->
  wellFormedField f -> pre = [] \/ startsLine f ->
  exists found y,
    exec body fieldRegex (List.length pre) = Some (found, y)
    /\ numberToken (found, y)
       = (List.length pre + List.length (fieldLead f),
          List.length pre + List.length (fieldLead f)
          + List.length (fl_digits f))
    /\ endIndex y = List.length pre + List.length (fieldSource f)
    /\ found < endIndex y.
Proof. intros ->. apply field_in_context. Qed.

(** The results of the search over a body of well-formed fields. *)
Lemma collect_fields (body trail : jsstring) :
  allOf isSpace trail ->
  forall fs pre fuel rs,
    body = pre ++ sourceOf fs ++ trail ->
    Forall wellFormedField fs ->
    match fs with [] => True | f :: _ => pre = [] \/ startsLine f end ->
    Forall startsLine (tl fs) ->
    collect body fuel fieldRegex (List.length pre) = Some rs ->
    map numberToken rs = tokensOf fs (List.length pre).
Proof.
  intros Htrail.
  induction fs as [|f fs IH]; intros pre fuel rs Hbody Hwf Hfirst Hrest Hcol.
  - assert (exec body fieldRegex (List.length pre) = None) as E.
    { unfold exec. apply tryFrom_none. intros k y Hk Hm.
      destruct (field_match_parts _ _ _ Hm)
        as (w1 & _ & _ & _ & _ & Hp & _).
      destruct (prefix_parts _ _ _ Hp)
        as (a & b & q & Hxa & Hab & Hbq & _ & _ & _ & _ & Hq & _).
      simpl in Hxa. rewrite Hbody in Hq. simpl in Hq.
      rewrite nth_error_app2 in Hq by lia.
      apply nth_error_In in Hq.
      unfold allOf in Htrail. rewrite Forall_forall in Htrail.
      apply Htrail in Hq. discriminate. }
    destruct fuel; simpl in Hcol; rewrite E in Hcol; inversion Hcol;
      reflexivity.
  - apply Forall_cons_iff in Hwf. destruct Hwf as [Hf Hwf'].
    destruct (field_in_context_eq body pre (sourceOf fs ++ trail) f)
      as (found & y & Hex & Htok & Hend & Hlt');
      try assumption.
    { rewrite Hbody. unfold sourceOf. simpl.
      rewrite <- app_assoc. reflexivity. }
    destruct fuel as [|fuel]; simpl in Hcol; rewrite Hex in Hcol;
      [discriminate|].
    destruct (Nat.eqb (endIndex y) found) eqn:Ee;
      [apply Nat.eqb_eq in Ee; lia|].
    destruct (collect body fuel fieldRegex (endIndex y)) as [rs'|] eqn:Ec;
      [|discriminate].
    inversion Hcol; subst rs. simpl map. rewrite Htok. simpl tokensOf.
    f_equal.
    replace (List.length pre + List.length (fieldLead f)
             + List.length (fl_digits f) + List.length (fieldTail f))
      with (List.length (pre ++ fieldSource f))
      by (unfold fieldSource; repeat rewrite length_app; lia).
    apply (IH (pre ++ fieldSource f) fuel rs').
    + rewrite Hbody. unfold sourceOf. simpl.
      repeat rewrite <- app_assoc. reflexivity.
    + exact Hwf'.
    + simpl in Hrest. destruct fs as [|f' fs']; [exact I|].
      right. inversion Hrest; assumption.
    + simpl in Hrest. destruct fs as [|f' fs']; [constructor|].
      inversion Hrest; assumption.
    + rewrite <- Ec. f_equal. rewrite Hend, length_app. reflexivity.
Qed.

Lemma substring_seg (body l1 seg l2 : jsstring) (a b : nat) :
  body = l1 ++ seg ++ l2 ->
  a = List.length l1 -> b = List.length l1 + List.length seg ->
  substring body a b = seg.
Proof.
  intros -> -> ->. unfold substring.
  rewrite skipn_app, Nat.sub_diag, skipn_all. simpl.
  replace (List.length l1 + List.length seg - List.length l1)
    with (List.length seg) by lia.
  rewrite firstn_app, Nat.sub_diag, firstn_all. simpl.
  apply app_nil_r.
Qed.

(** Replacing the tags of the fields gives the renumbered fields. *)
Lemma splice_fields (body trail : jsstring) :
  forall fs pre n from,
    body = pre ++ sourceOf fs ++ trail ->
    from <= List.length pre ->
    spliceTokens body (tokensOf fs (List.length pre)) n from
    = substring body from (List.length pre) ++ renumberedFrom n fs ++ trail.
Proof.
  induction fs as [|f fs IH]; intros pre n from Hbody Hfrom; simpl.
  - rewrite <- (firstn_skipn (List.length pre - from) (skipn from body)) at 1.
    unfold substring. f_equal.
    rewrite skipn_skipn.
    replace (List.length pre - from + from) with (List.length pre) by lia.
    rewrite Hbody. simpl.
    rewrite skipn_app, Nat.sub_diag, skipn_all. reflexivity.
  - assert (body = (pre ++ fieldSource f) ++ sourceOf fs ++ trail) as Hbody'
        by (rewrite Hbody; unfold sourceOf; simpl;
            repeat rewrite <- app_assoc; reflexivity).
    replace (List.length pre + List.length (fieldLead f)
             + List.length (fl_digits f) + List.length (fieldTail f))
      with (List.length (pre ++ fieldSource f))
      by (unfold fieldSource; repeat rewrite length_app; lia).
    rewrite (IH (pre ++ fieldSource f) (S n) _ Hbody')
      by (unfold fieldSource; repeat rewrite length_app; lia).
    rewrite <- (substring_app body from (List.length pre)
                              (List.length pre + List.length (fieldLead f)))
      by lia.
    rewrite (substring_seg body pre (fieldLead f)
                           (fl_digits f ++ fieldTail f ++ sourceOf fs ++ trail)
                           (List.length pre)
                           (List.length pre + List.length (fieldLead f)));
      [|rewrite Hbody; unfold sourceOf, fieldSource; simpl;
        repeat rewrite <- app_assoc; reflexivity
       |reflexivity|reflexivity].
    rewrite (substring_seg body (pre ++ fieldLead f ++ fl_digits f)
                           (fieldTail f) (sourceOf fs ++ trail)
                           (List.length pre + List.length (fieldLead f)
                            + List.length (fl_digits f))
                           (List.length (pre ++ fieldSource f)));
      [|rewrite Hbody; unfold sourceOf, fieldSource; simpl;
        repeat rewrite <- app_assoc; reflexivity
       |repeat rewrite length_app; lia
       |unfold fieldSource; repeat rewrite length_app; lia].
    unfold fieldRenumbered. repeat rewrite <- app_assoc. reflexivity.
Qed.

(** The fields of a body get the tags 1, 2, ... in order. *)
Lemma renumber_fields (fs : list fieldLine) (trail : jsstring) :
  Forall wellFormedField fs -> Forall startsLine (tl fs) ->
  allOf isSpace trail ->
  renumberMessageBody (sourceOf fs ++ trail) = renumberedFrom 1 fs ++ trail.
Proof.
  intros Hwf Hlines Htrail.
  set (body := sourceOf fs ++ trail).
  rewrite renumberMessageBody_splice.
  assert (numberTokens body = tokensOf fs 0) as ->.
  { unfold numberTokens, results.
    destruct (collect_total body fieldRegex (S (inputLength body)) 0)
      as [rs Hrs]; [lia|].
    rewrite Hrs.
    apply (collect_fields body trail Htrail fs [] (S (inputLength body)) rs);
      try assumption; [reflexivity|].
    destruct fs; [exact I | left; reflexivity]. }
  pose proof (splice_fields body trail fs [] 1 0 eq_refl (Nat.le_refl 0)) as H.
  simpl List.length in H. rewrite H. reflexivity.
Qed.

(** *** Bodies without a line terminator *)

Lemma no_line_start (body : jsstring) (k : nat) :
  Forall (fun c => isLineTerminator c = false) body ->
  atLineStart body k = true -> k = 0.
Proof.
  intros Hb. destruct k as [|k]; [reflexivity|]. simpl.
  destruct (nth_error body k) as [c|] eqn:E; [|discriminate].
  rewrite Forall_forall in Hb. apply nth_error_In in E.
  rewrite (Hb c E). discriminate.
Qed.

Lemma chain_single_line (body : jsstring) (rs : list (nat * mstate)) :
  Forall (fun c => isLineTerminator c = false) body ->
  forall lastIndex, chain body fieldRegex lastIndex rs ->
                    List.length rs <= 1 /\ (0 < lastIndex -> rs = []).
Proof.
  intros Hb lastIndex Hc. destruct Hc as [|li found y rs Hle Hm He Hrest].
  - split; [simpl; lia | reflexivity].
  - pose proof (field_match_start _ _ _ Hm) as [Hbol _].
    apply (no_line_start body found Hb) in Hbol. subst found.
    destruct (field_match_shape _ _ _ Hm) as (a & b & _ & _ & _ & H1 & H2 & H3 & _).
    split; [|lia].
    destruct Hrest as [|li' found' y' rs' Hle' Hm' _ _]; [simpl; lia|].
    pose proof (field_match_start _ _ _ Hm') as [Hbol' _].
    apply (no_line_start body found' Hb) in Hbol'. lia.
Qed.

Lemma single_line_tokens (body : jsstring) :
  Forall (fun c => isLineTerminator c = false) body ->
  List.length (numberTokens body) <= 1.
Proof.
  intros Hb. unfold numberTokens, results.
  destruct (collect body _ fieldRegex 0) as [rs|] eqn:E; [|simpl; lia].
  apply collect_chain in E. rewrite length_map.
  exact (proj1 (chain_single_line body rs Hb 0 E)).
Qed.

(** *** Tags that are already in order *)

Lemma uint_digits (d : Decimal.uint) :
  allOf isDigit (str (NilEmpty.string_of_uint d)).
Proof.
  induction d; simpl; try (constructor; [reflexivity | exact IHd]).
  constructor.
Qed.

Lemma little_succ_nonnil (d : Decimal.uint) :
  Decimal.Little.succ d <> Decimal.Nil.
Proof. destruct d; discriminate. Qed.

Lemma to_little_uint_nonnil (n : nat) : forall acc,
  acc <> Decimal.Nil -> Nat.to_little_uint n acc <> Decimal.Nil.
Proof.
  induction n as [|n IH]; intros acc H; simpl; [exact H|].
  apply IH. apply little_succ_nonnil.
Qed.

Lemma to_uint_nonnil (n : nat) : Nat.to_uint n <> Decimal.Nil.
Proof.
  unfold Nat.to_uint. intros H.
  assert (Decimal.nb_digits (Nat.to_little_uint n Decimal.zero) = 0) as H0
      by (rewrite <- DecimalFacts.nb_digits_rev, H; reflexivity).
  apply DecimalFacts.nb_digits_0 in H0. revert H0.
  apply to_little_uint_nonnil. discriminate.
Qed.

Lemma String_of_nat_digits (n : nat) :
  allOf isDigit (String_of_nat n) /\ String_of_nat n <> [].
Proof.
  unfold String_of_nat. split; [apply uint_digits|].
  pose proof (to_uint_nonnil n) as H.
  destruct (Nat.to_uint n); [congruence | | | | | | | | | |]; discriminate.
Qed.

Lemma retag_wellFormed (n : nat) (f : fieldLine) :
  wellFormedField f -> wellFormedField (retag n f).
Proof.
  intros [Wgap Wlab Wsp0 Wty Wsp1 Wsp1ne Wn0 Wnm Wsp2 Wsp3 Wdg Wdgne Wsp4
          Wopt Wsp5].
  destruct (String_of_nat_digits n) as [Hd Hne].
  constructor; simpl; assumption.
Qed.

Lemma retagFrom_wellFormed (fs : list fieldLine) : forall n,
  Forall wellFormedField fs -> Forall wellFormedField (retagFrom n fs).
Proof.
  induction fs as [|f fs IH]; intros n H; simpl; [constructor|].
  apply Forall_cons_iff in H. destruct H as [Hf Hfs].
  constructor; [apply retag_wellFormed; exact Hf | apply IH; exact Hfs].
Qed.

Lemma retagFrom_startsLine (fs : list fieldLine) : forall n,
  Forall startsLine fs -> Forall startsLine (retagFrom n fs).
Proof.
  induction fs as [|f fs IH]; intros n H; simpl; [constructor|].
  apply Forall_cons_iff in H. destruct H as [Hf Hfs].
  constructor; [exact Hf | apply IH; exact Hfs].
Qed.

Lemma retagFrom_source (fs : list fieldLine) : forall n,
  sourceOf (retagFrom n fs) = renumberedFrom n fs.
Proof.
  induction fs as [|f fs IH]; intros n; [reflexivity|].
  unfold sourceOf in *. simpl. rewrite IH. reflexivity.
Qed.

Lemma retagFrom_renumbered (fs : list fieldLine) : forall n m,
  renumberedFrom n (retagFrom m fs) = renumberedFrom n fs.
Proof.
  induction fs as [|f fs IH]; intros n m; [reflexivity|].
  simpl. rewrite IH. reflexivity.
Qed.

(** Renumbering a body of well-formed fields a second time changes
    nothing. *)
Lemma renumber_fields_twice (fs : list fieldLine) (trail : jsstring) :
  Forall wellFormedField fs -> Forall startsLine (tl fs) ->
  allOf isSpace trail ->
  renumberMessageBody (renumberedFrom 1 fs ++ trail)
  = renumberedFrom 1 fs ++ trail.
Proof.
  intros Hwf Hlines Htrail.
  rewrite <- (retagFrom_source fs 1).
  rewrite renumber_fields.
  - rewrite retagFrom_renumbered, retagFrom_source. reflexivity.
  - apply retagFrom_wellFormed. exact Hwf.
  - destruct fs as [|f fs]; [constructor|]. simpl in *.
    apply retagFrom_startsLine. exact Hlines.
  - exact Htrail.
Qed.

End FieldLineFacts.

(** * Message headers, and field declarations as text for the brace matcher *)

Module FlatMessageFacts.

Import Brace BraceFacts RegExpFacts FieldFacts MatcherFacts FieldLineFacts.
Import SpanFacts RewriterFacts Lexical LexicalFacts.

Section Text.

Variable text : jsstring.

(** The parts of a match of the message pattern. *)
Lemma msg_match_shape (k : nat) (y : mstate) :
  matchAt text msgRegex k = Matched y ->
  atWordBoundary text k = true
  /\ charsIn text isWordChar k (k + 7)
  /\ exists p1 p2 e,
       k + 7 < p1 /\ charsIn text isSpace (k + 7) p1
       /\ p1 < p2 /\ charsIn text isWordChar p1 p2
       /\ p2 <= e /\ charsIn text isSpace p2 e
       /\ nth_error text e = Some c_lbrace
       /\ endIndex y = S e.
Proof.
  intros H. apply compile_sound in H. destruct H as (y' & Hd & Hy).
  inversion Hy; subst y'; clear Hy.
  destruct Hd as (z0 & [Hwb ->] & z1 & Hl & z2 & Hw1 & z3 & (w & Hid & ->)
                  & z4 & Hw2 & Hb & ->).
  simpl in Hwb. split; [exact Hwb|].
  pose proof (litChars_denote text _ _ _ Hl) as [El _]. simpl in El.
  assert (charsIn text isWordChar k (k + 7)) as Cl.
  { rewrite <- El.
    apply (lit_chars_in text (str "message") isWordChar _ _
                        ltac:(repeat constructor) Hl). }
  split; [exact Cl|].
  destruct Hw1 as (s & (c & Hc & Hsc & ->) & Hit).
  pose proof (iter_mono _ (denote_mono text ws) _ _ Hit) as M1.
  pose proof (iter_class text _ _ _ Hit) as C1. simpl in M1, C1.
  destruct Hid as (u & (ci & Hci & Hpi & ->) & Hnm).
  pose proof (iter_mono _ (denote_mono text (Class isWordChar)) _ _ Hnm) as M2.
  pose proof (iter_class text _ _ _ Hnm) as C2. simpl in M2, C2.
  pose proof (iter_mono _ (denote_mono text ws) _ _ Hw2) as M3.
  pose proof (iter_class text _ _ _ Hw2) as C3. simpl in M3, C3.
  exists (endIndex z2), (endIndex w), (endIndex z4). simpl.
  rewrite El in *.
  split; [lia|]. split.
  { apply (charsIn_join text _ _ (S (k + 7)));
      [exact (charsIn_one text _ _ _ Hc Hsc) | exact C1]. }
  split; [lia|]. split.
  { apply (charsIn_join text _ _ (S (endIndex z2))); [|exact C2].
    apply (charsIn_one text _ _ ci Hci).
    unfold isIdentStart in Hpi. unfold isWordChar.
    apply orb_true_iff in Hpi. destruct Hpi as [->| ->];
      [reflexivity | rewrite orb_true_r; reflexivity]. }
  split; [exact M3|]. split; [exact C3|]. split; [exact Hb | reflexivity].
Qed.

(** No opening brace inside a match of the message pattern but its last
    character. *)
Lemma msg_match_inside (k : nat) (y : mstate) :
  matchAt text msgRegex k = Matched y ->
  forall j, k <= j -> S j < endIndex y -> nth_error text j <> Some c_lbrace.
Proof.
  intros H j Hk Hj Hb.
  destruct (msg_match_shape _ _ H)
    as (_ & Ckw & p1 & p2 & e & Hk7 & Csp & Hp12 & Cid & Hp2e & Cws & _ & Hend).
  assert (forall P a b, charsIn text P a b -> a <= j < b ->
                        P c_lbrace = false -> False) as Hx.
  { intros P a b HP Hab Hn. destruct (HP j Hab) as (c & Hc & Hpc).
    rewrite Hb in Hc. inversion Hc; subst c. congruence. }
  destruct (Nat.lt_ge_cases j (k + 7)) as [H1|H1];
    [exact (Hx _ _ _ Ckw ltac:(lia) eq_refl)|].
  destruct (Nat.lt_ge_cases j p1) as [H2|H2];
    [exact (Hx _ _ _ Csp ltac:(lia) eq_refl)|].
  destruct (Nat.lt_ge_cases j p2) as [H3|H3];
    [exact (Hx _ _ _ Cid ltac:(lia) eq_refl)|].
  exact (Hx _ _ _ Cws ltac:(lia) eq_refl).
Qed.

End Text.

Lemma word_not_space (c : char) : isWordChar c = true -> isSpace c = false.
Proof.
  intros Hw. destruct (isSpace c) eqn:Hs; [|reflexivity].
  apply space_not_typeChar in Hs. apply word_type in Hw. congruence.
Qed.

Lemma unique_char (l1 l2 : jsstring) (c : char) (e : nat) :
  ~ In c l1 -> ~ In c l2 -> nth_error (l1 ++ c :: l2) e = Some c ->
  e = List.length l1.
Proof.
  intros H1 H2 He. destruct (Nat.lt_trichotomy e (List.length l1)) as [H|[H|H]].
  - rewrite nth_error_app1 in He by exact H.
    apply nth_error_In in He. contradiction.
  - exact H.
  - rewrite nth_error_app2 in He by lia.
    destruct (e - List.length l1) as [|n] eqn:E; [lia|]. simpl in He.
    apply nth_error_In in He. contradiction.
Qed.

Lemma allOf_not_in (P : char -> bool) (s : jsstring) (c : char) :
  allOf P s -> P c = false -> ~ In c s.
Proof.
  intros Hs Hc Hin. unfold allOf in Hs. rewrite Forall_forall in Hs.
  apply Hs in Hin. congruence.
Qed.

Lemma space_brace : isSpace c_lbrace = false.
Proof. reflexivity. Qed.

Lemma word_brace : isWordChar c_lbrace = false.
Proof. reflexivity. Qed.

Lemma slice_seg (l1 seg l2 : jsstring) :
  slice (l1 ++ seg ++ l2) (Z.of_nat (List.length l1))
        (Z.of_nat (List.length l1 + List.length seg)) = seg.
Proof.
  unfold slice, clampIndex, jslength.
  repeat rewrite length_app.
  destruct (Z.of_nat (List.length l1) <? 0)%Z eqn:E1;
    [apply Z.ltb_lt in E1; lia|].
  destruct (Z.of_nat (List.length l1 + List.length seg) <? 0)%Z eqn:E2;
    [apply Z.ltb_lt in E2; lia|].
  rewrite Z.min_l by lia. rewrite Z.min_l by lia.
  rewrite Nat2Z.id.
  replace (Z.to_nat (Z.max (Z.of_nat (List.length l1 + List.length seg)
                            - Z.of_nat (List.length l1)) 0))
    with (List.length seg) by lia.
  rewrite skipn_app, Nat.sub_diag, skipn_all. simpl.
  rewrite firstn_app, Nat.sub_diag, firstn_all. simpl. apply app_nil_r.
Qed.

Lemma slice_prefix (l1 l2 : jsstring) :
  slice (l1 ++ l2) 0 (Z.of_nat (List.length l1)) = l1.
Proof.
  pose proof (slice_seg [] l1 l2) as H. simpl in H. exact H.
Qed.

Lemma sliceFrom_suffix (l1 l2 : jsstring) :
  sliceFrom (l1 ++ l2) (Z.of_nat (List.length l1)) = l2.
Proof.
  unfold sliceFrom, jslength.
  pose proof (slice_seg l1 l2 []) as H. rewrite app_nil_r in H.
  rewrite length_app. exact H.
Qed.

Lemma jsstring_eqb_true (a b : jsstring) : jsstring_eqb a b = true -> a = b.
Proof.
  unfold jsstring_eqb. destruct (list_eq_dec N.eq_dec a b);
    [tauto | discriminate].
Qed.

Lemma msgRegex_optsGroupFree : optsGroupFree msgRegex.
Proof. simpl. tauto. Qed.

(** *** Field declarations are lexically well formed *)

Ltac plain_class :=
  unfold isPlain, c_lbrace, c_rbrace, c_dquote, c_squote, c_slash;
  repeat (rewrite andb_true_iff || rewrite negb_true_iff
          || rewrite N.eqb_neq); lia.

Lemma space_plain (c : char) : isSpace c = true -> isPlain c = true.
Proof. intros H. apply isSpace_range in H. plain_class. Qed.

Lemma typeChar_plain (c : char) : isTypeChar c = true -> isPlain c = true.
Proof.
  intros H.
  assert ((46 <= c <= 122)%N /\ c <> 47%N) as [H1 H2].
  { revert H.
    unfold isTypeChar, isLetter, isUpper, isLower, isDigit, between.
    repeat (rewrite andb_true_iff || rewrite orb_true_iff
            || rewrite N.eqb_eq || rewrite N.leb_le). lia. }
  plain_class.
Qed.

Lemma plain_balanced (s : jsstring) : allOf isPlain s -> balanced s.
Proof.
  induction 1 as [|c s Hc _ IH]; [constructor|].
  apply bal_plain; assumption.
Qed.

Lemma plain_brace : isPlain c_lbrace = false.
Proof. reflexivity. Qed.

Lemma word_plain (c : char) : isWordChar c = true -> isPlain c = true.
Proof. intros H. apply typeChar_plain, word_type. exact H. Qed.

Lemma digit_plain (c : char) : isDigit c = true -> isPlain c = true.
Proof.
  intros H. apply typeChar_plain. unfold isTypeChar. rewrite H.
  rewrite !orb_true_r. reflexivity.
Qed.

Lemma balanced_app (a b : jsstring) :
  balanced a -> balanced b -> balanced (a ++ b).
Proof.
  intros Ha Hb. induction Ha as [|c a Hc _ IH|c a H1 H2 _ IH|c a Hc _ IH
                                  |c a Hc _ IH|s a Hs _ IH|s a Hs _ IH
                                  |a1 a2 Ha1 _ _ IH2].
  - exact Hb.
  - apply bal_plain; assumption.
  - apply bal_slash; assumption.
  - simpl. rewrite <- app_assoc. simpl. apply bal_line; assumption.
  - simpl. rewrite <- app_assoc. simpl. apply bal_block; assumption.
  - simpl. rewrite <- app_assoc. simpl. apply bal_dquote; assumption.
  - simpl. rewrite <- app_assoc. simpl. apply bal_squote; assumption.
  - simpl. rewrite <- app_assoc. simpl. apply bal_nest; assumption.
Qed.

Lemma lexical_app (a b : jsstring) : lexical a -> lexical b -> lexical (a ++ b).
Proof.
  intros [Ha Na] [Hb Nb]. split; [apply balanced_app; assumption|].
  intros Hin. apply in_app_or in Hin. tauto.
Qed.

Lemma lexical_cons (c : char) (s : jsstring) :
  isPlain c = true -> lexical s -> lexical (c :: s).
Proof.
  intros Hc [Hs Ns]. split; [apply bal_plain; assumption|].
  intros [E|Hin]; [|exact (Ns Hin)].
  rewrite E, plain_brace in Hc. discriminate.
Qed.

Lemma plain_lexical (s : jsstring) : allOf isPlain s -> lexical s.
Proof.
  intros H. split; [apply plain_balanced; exact H|].
  exact (allOf_not_in _ _ _ H plain_brace).
Qed.

Lemma field_lexical (f : fieldLine) :
  wellFormedField f -> lexicalField f -> lexical (fieldSource f).
Proof.
  intros [Wgap Wlab Wsp0 Wty Wsp1 _ Wn0 Wnm Wsp2 Wsp3 Wdg _ Wsp4 Wopt Wsp5]
         [Lty Lopt].
  assert (forall s, allOf isSpace s -> lexical s) as Hsp
      by (intros s Hs; apply plain_lexical;
          exact (allOf_weaken _ _ _ space_plain Hs)).
  assert (forall s, allOf isWordChar s -> lexical s) as Hw
      by (intros s Hs; apply plain_lexical;
          exact (allOf_weaken _ _ _ word_plain Hs)).
  assert (lexical (typeText (fl_type f))) as Hty.
  { destruct (fl_type f) as [s|inner]; simpl in *.
    - destruct Wty as [Ws _]. apply plain_lexical.
      apply (allOf_weaken isPlainTypeChar); [|exact Ws].
      intros c Hc. apply typeChar_plain, plain_type. exact Hc.
    - repeat (apply lexical_cons; [reflexivity|]).
      apply lexical_app; [exact Lty|].
      apply plain_lexical. repeat constructor. }
  assert (lexical (optionsText (fl_options f))) as Hopt.
  { destruct (fl_options f) as [o|]; simpl in *.
    - apply lexical_cons; [reflexivity|].
      apply lexical_app; [exact Lopt|].
      apply plain_lexical. repeat constructor.
    - apply plain_lexical. constructor. }
  unfold fieldSource, fieldLead, fieldTail.
  repeat (apply lexical_app || (apply lexical_cons; [reflexivity|])
          || (apply Hsp; assumption));
    try assumption.
  - apply Hw, label_word. exact Wlab.
  - apply lexical_cons; [apply word_plain, ident_word; exact Wn0|].
    repeat (apply lexical_app || (apply lexical_cons; [reflexivity|])
            || (apply Hsp; assumption)).
    apply Hw. exact Wnm.
  - apply plain_lexical. exact (allOf_weaken _ _ _ digit_plain Wdg).
  - apply plain_lexical. repeat constructor.
Qed.

Lemma fields_lexical (fs : list fieldLine) (trail : jsstring) :
  Forall wellFormedField fs -> Forall lexicalField fs ->
  allOf isSpace trail ->
  lexical (sourceOf fs ++ trail).
Proof.
  intros Hwf Hlex Htrail. apply lexical_app.
  - induction Hwf as [|f fs Hf _ IH]; [apply plain_lexical; constructor|].
    apply Forall_cons_iff in Hlex. destruct Hlex as [Lf Lfs].
    unfold sourceOf. simpl. apply lexical_app;
      [apply field_lexical; assumption | apply IH; exact Lfs].
  - apply plain_lexical. exact (allOf_weaken _ _ _ space_plain Htrail).
Qed.

Lemma retagFrom_lexical (fs : list fieldLine) : forall n,
  Forall lexicalField fs -> Forall lexicalField (retagFrom n fs).
Proof.
  induction fs as [|f fs IH]; intros n H; simpl; [constructor|].
  apply Forall_cons_iff in H. destruct H as [Hf Hfs].
  constructor; [exact Hf | apply IH; exact Hfs].
Qed.

(** *** A message header in a text *)

Section Document.

Variables before ws1 name ws2 body after : jsstring.
Variable n0 : char.

Hypothesis Hword : ~ endsWord before.
Hypothesis Hheader : wellFormedHeader ws1 n0 name ws2.

Let header := messageHeader ws1 n0 name ws2.
Let text := before ++ header ++ c_lbrace :: body ++ c_rbrace :: after.
Let hs := List.length before.
Let sp := hs + 7.
Let ns := sp + List.length ws1.
Let ne := S ns + List.length name.
Let ob := ne + List.length ws2.

Ltac doc_eq :=
  subst text header; unfold messageHeader; simpl;
  repeat (rewrite <- app_assoc || rewrite <- app_comm_cons); simpl;
  reflexivity.

Ltac doc_len :=
  subst ob ne ns sp hs; simpl;
  repeat (rewrite length_app || rewrite length_cons); simpl; lia.

Lemma doc_keyword (j : nat) :
  j < 7 -> nth_error text (hs + j) = nth_error (str "message") j.
Proof.
  intros Hj. subst text header hs. unfold messageHeader.
  rewrite nth_error_app2 by lia.
  replace (List.length before + j - List.length before) with j by lia.
  rewrite <- app_assoc. rewrite nth_error_app1 by (simpl; lia). reflexivity.
Qed.

Lemma doc_ws1 : charsIn text isSpace sp ns.
Proof.
  apply (seg_at text (before ++ str "message") ws1
                (n0 :: name ++ ws2 ++ c_lbrace :: body ++ c_rbrace :: after));
    [doc_eq | exact (wh_ws1 _ _ _ _ Hheader) | doc_len | doc_len].
Qed.

Lemma doc_n0 : nth_error text ns = Some n0.
Proof.
  apply (char_at text (before ++ str "message" ++ ws1)
                 (name ++ ws2 ++ c_lbrace :: body ++ c_rbrace :: after));
    [doc_eq | doc_len].
Qed.

Lemma doc_name : charsIn text isWordChar (S ns) ne.
Proof.
  apply (seg_at text (before ++ str "message" ++ ws1 ++ [n0]) name
                (ws2 ++ c_lbrace :: body ++ c_rbrace :: after));
    [doc_eq | exact (wh_name _ _ _ _ Hheader) | doc_len | doc_len].
Qed.

Lemma doc_ws2 : charsIn text isSpace ne ob.
Proof.
  apply (seg_at text (before ++ str "message" ++ ws1 ++ n0 :: name) ws2
                (c_lbrace :: body ++ c_rbrace :: after));
    [doc_eq | exact (wh_ws2 _ _ _ _ Hheader) | doc_len | doc_len].
Qed.

Lemma doc_split :
  text = (before ++ header) ++ c_lbrace :: body ++ c_rbrace :: after.
Proof. subst text. rewrite <- app_assoc. reflexivity. Qed.

Lemma doc_ob : ob = List.length (before ++ header).
Proof. subst header. unfold messageHeader. doc_len. Qed.

Lemma doc_brace : nth_error text ob = Some c_lbrace.
Proof.
  apply (char_at text (before ++ header) (body ++ c_rbrace :: after));
    [apply doc_split | apply doc_ob].
Qed.

(** A match that ends at the brace of the header starts at its keyword. *)
Lemma doc_match_local (k : nat) (y : mstate) :
  matchAt text msgRegex k = Matched y -> endIndex y = S ob -> k = hs.
Proof.
  intros Hm Hy. destruct (msg_match_shape _ _ _ Hm)
    as (_ & Ckw & p1 & p2 & e & Hk7 & Csp & Hp12 & Cid & Hp2e & Cws & Hb & Hend).
  assert (e = ob) by lia. subst e.
  assert (0 < List.length ws1) as Lws1.
  { destruct Hheader as [_ Hne _ _ _]. destruct ws1; [congruence | simpl; lia]. }
  assert (isWordChar n0 = true) as Wn0
      by (apply ident_word; exact (wh_n0 _ _ _ _ Hheader)).
  pose proof doc_ws1 as F2. pose proof doc_n0 as F3.
  pose proof doc_name as F4. pose proof doc_ws2 as F5.
  assert (forall j lo hi lo' hi',
             charsIn text isWordChar lo hi -> lo <= j < hi ->
             charsIn text isSpace lo' hi' -> lo' <= j < hi' -> False) as Hx.
  { intros j lo hi lo' hi' Hw Hj Hs Hj'.
    destruct (Hw j Hj) as (c & Hc & Hwc). destruct (Hs j Hj') as (c' & Hc' & Hsc).
    rewrite Hc in Hc'. inversion Hc'; subst c'.
    apply word_not_space in Hwc. congruence. }
  assert (charsIn text isWordChar ns (S ns)) as F3'
      by (exact (charsIn_one text _ _ n0 F3 Wn0)).
  assert (ne <= ob) as Hneob by (subst ob; lia).
  assert (S ns <= ne) as Hnsne by (subst ne; lia).
  (* the name of the match is the name of the header *)
  assert (p1 = ns) as ->.
  { destruct (Nat.lt_trichotomy p1 ns) as [H|[H|H]]; [|exact H|]; exfalso.
    - (* the white space before the name would be inside the name *)
      assert (ns < p2).
      { destruct (Nat.lt_ge_cases ns p2) as [Hl|Hl]; [exact Hl | exfalso].
        exact (Hx ns ns (S ns) p2 ob F3' ltac:(lia) Cws ltac:(lia)). }
      exact (Hx (ns - 1) p1 p2 sp ns Cid ltac:(subst sp ns; lia) F2
                ltac:(subst ns; lia)).
    - destruct (Nat.lt_ge_cases p1 ne) as [Hl|Hl].
      + assert (charsIn text isWordChar ns ne) as F34
            by (exact (charsIn_join text _ _ _ _ F3' F4)).
        exact (Hx (p1 - 1) ns ne (k + 7) p1 F34 ltac:(lia) Csp ltac:(lia)).
      + exact (Hx p1 p1 p2 ne ob Cid ltac:(lia) F5 ltac:(lia)). }
  assert (charsIn text isWordChar hs (hs + 7)) as Fkw.
  { intros j Hj. replace j with (hs + (j - hs)) by lia.
    rewrite doc_keyword by lia.
    destruct (nth_error (str "message") (j - hs)) as [c|] eqn:E;
      [|apply nth_error_None in E; simpl in E; lia].
    exists c. split; [reflexivity|].
    apply nth_error_In in E. simpl in E.
    repeat (destruct E as [<-|E]; [reflexivity|]). destruct E. }
  destruct (Nat.lt_trichotomy k hs) as [H|[H|H]]; [|exact H|]; exfalso.
  - exact (Hx (hs + 6) hs (hs + 7) (k + 7) ns Fkw ltac:(lia) Csp
              ltac:(subst ns sp; lia)).
  - exact (Hx (k + 6) k (k + 7) sp ns Ckw ltac:(lia) F2
              ltac:(subst sp; lia)).
Qed.

(** The message pattern matches at the keyword. *)
Lemma doc_match_exists : exists y, matchAt text msgRegex hs = Matched y.
Proof.
  pose proof doc_ws1 as F2. pose proof doc_n0 as F3.
  pose proof doc_name as F4. pose proof doc_ws2 as F5.
  pose proof doc_brace as F6.
  assert (0 < List.length ws1) as Lws1.
  { destruct Hheader as [_ Hne _ _ _]. destruct ws1; [congruence | simpl; lia]. }
  assert (ob < inputLength text) as Hlen
      by (apply nth_error_Some; congruence).
  assert (atWordBoundary text hs = true) as Hwb.
  { unfold atWordBoundary, wordCharAt.
    pose proof (doc_keyword 0 ltac:(lia)) as H0. rewrite Nat.add_0_r in H0.
    rewrite H0. simpl.
    destruct hs as [|h] eqn:Eh; [reflexivity|].
    destruct (nth_error text h) as [c|] eqn:Ec; [|reflexivity].
    destruct (isWordChar c) eqn:Ew; [|reflexivity].
    exfalso. apply Hword.
    destruct (exists_last (l := before)) as (b & c' & Eb).
    { intros E. subst hs. rewrite E in Eh. discriminate. }
    exists b, c'. split; [exact Eb|].
    assert (h = List.length b) as Eh'.
    { subst hs. rewrite Eb, length_app in Eh. simpl in Eh. lia. }
    assert (nth_error text h = Some c') as Ec'.
    { apply (char_at text b (header ++ c_lbrace :: body ++ c_rbrace :: after));
        [|exact Eh'].
      unfold text. rewrite Eb. rewrite <- app_assoc. reflexivity. }
    rewrite Ec' in Ec. inversion Ec; subst c. exact Ew. }
  eapply (matchAt_complete text msgRegex hs);
    [exact msgRegex_optsGroupFree | subst ob ne ns sp; lia |].
  exists (mkState hs noCaptures). split; [split; [exact Hwb | reflexivity]|].
  exists (mkState sp noCaptures). split.
  { apply (litChars_intro text (str "message") hs noCaptures).
    intros j Hj. apply doc_keyword. exact Hj. }
  exists (mkState ns noCaptures).
  split; [apply plus_class_range; [subst ns; lia | exact F2]|].
  eexists. split.
  { eexists. split; [|reflexivity].
    exists (mkState (S ns) noCaptures).
    split; [exists n0; repeat split;
            [exact F3 | exact (wh_n0 _ _ _ _ Hheader)]|].
    apply (star_class_range text isWordChar noCaptures (S ns) ne);
      [subst ne; lia | exact F4]. }
  eexists. split.
  { apply (star_class_range text isSpace _ ne ob); [subst ob; lia | exact F5]. }
  split; [exact F6 | reflexivity].
Qed.

End Document.

Lemma jsstring_eqb_refl (a : jsstring) : jsstring_eqb a a = true.
Proof.
  unfold jsstring_eqb. destruct (list_eq_dec N.eq_dec a a);
    [reflexivity | congruence].
Qed.

End FlatMessageFacts.


(** * Messages one after the other *)

Module SiblingFacts.

Import Brace BraceFacts RegExpFacts FieldFacts MatcherFacts FieldLineFacts.
Import SpanFacts RewriterFacts Lexical LexicalFacts FlatMessageFacts.

Lemma endsWord_app (pre before : jsstring) :
  ~ endsWord pre -> ~ endsWord before -> ~ endsWord (pre ++ before).
Proof.
  intros Hp Hb (b & c & E & Hc).
  destruct before as [|x before'] using rev_ind.
  - rewrite app_nil_r in E. apply Hp. exists b, c. split; assumption.
  - rewrite app_assoc in E. apply app_inj_tail in E. destruct E as [_ ->].
    apply Hb. exists before', c. split; [reflexivity | exact Hc].
Qed.

Lemma endsWord_block (pre : jsstring) (m : messageBlock) (body : jsstring) :
  ~ endsWord (pre ++ blockWith m body).
Proof.
  intros (b & c & E & Hc). unfold blockWith in E.
  replace (pre ++ blockHead m ++ c_lbrace :: body ++ [c_rbrace])
    with ((pre ++ blockHead m ++ c_lbrace :: body) ++ [c_rbrace]) in E
    by (repeat (rewrite <- app_assoc || rewrite <- app_comm_cons); reflexivity).
  apply app_inj_tail in E. destruct E as [_ <-]. discriminate.
Qed.

Lemma head_no_brace (m : messageBlock) :
  wellFormedBlock m -> ~ In c_lbrace (blockHead m).
Proof.
  intros [Hbefore _ [W1 _ Wn Wnm W2] _ _] Hin.
  unfold blockHead, messageHeader in Hin.
  apply in_app_or in Hin. destruct Hin as [Hin|Hin]; [exact (Hbefore Hin)|].
  repeat (apply in_app_or in Hin; destruct Hin as [Hin|Hin]).
  - simpl in Hin. intuition discriminate.
  - exact (allOf_not_in _ _ _ W1 space_brace Hin).
  - destruct Hin as [E|Hin].
    + apply ident_word in Wn. rewrite E in Wn. discriminate.
    + apply in_app_or in Hin. destruct Hin as [Hin|Hin].
      * exact (allOf_not_in _ _ _ Wnm word_brace Hin).
      * exact (allOf_not_in _ _ _ W2 space_brace Hin).
Qed.

Lemma blockWith_length (m : messageBlock) (body : jsstring) :
  List.length (blockWith m body)
  = List.length (blockHead m) + 1 + List.length body + 1.
Proof.
  unfold blockWith. repeat (rewrite length_app || rewrite length_cons).
  simpl. lia.
Qed.

Lemma blockHead_length (m : messageBlock) :
  List.length (blockHead m)
  = List.length (mb_before m) + 7 + List.length (mb_ws1 m) + 1
    + List.length (mb_name m) + List.length (mb_ws2 m).
Proof.
  unfold blockHead, messageHeader.
  repeat (rewrite length_app || rewrite length_cons). simpl. lia.
Qed.

(** *** One message inside a text *)

Section Block.

Variables pre rest : jsstring.
Variable m : messageBlock.

Hypothesis Hpre : ~ endsWord pre.
Hypothesis Hm : wellFormedBlock m.

Let text := pre ++ blockSource m ++ rest.
Let hs := List.length pre + List.length (mb_before m).
Let ob := List.length pre + List.length (blockHead m).

Lemma block_text :
  text = (pre ++ mb_before m)
           ++ messageHeader (mb_ws1 m) (mb_n0 m) (mb_name m) (mb_ws2 m)
           ++ c_lbrace :: mb_body m ++ c_rbrace :: rest.
Proof.
  subst text. unfold blockSource, blockWith, blockHead.
  repeat (rewrite <- app_assoc || rewrite <- app_comm_cons). reflexivity.
Qed.

Lemma block_ob :
  ob = S (List.length (pre ++ mb_before m) + 7 + List.length (mb_ws1 m))
       + List.length (mb_name m) + List.length (mb_ws2 m).
Proof. subst ob. rewrite blockHead_length, length_app. lia. Qed.

Lemma block_match_exists : exists y, matchAt text msgRegex hs = Matched y.
Proof.
  rewrite block_text. subst hs. rewrite <- length_app.
  apply doc_match_exists; [|exact (wb_header _ Hm)].
  apply endsWord_app; [exact Hpre | exact (wb_word _ Hm)].
Qed.

Lemma block_match_local (k : nat) (y : mstate) :
  matchAt text msgRegex k = Matched y -> endIndex y = S ob -> k = hs.
Proof.
  rewrite block_text, block_ob. subst hs. rewrite <- length_app.
  apply doc_match_local. exact (wb_header _ Hm).
Qed.

Lemma block_brace_at : nth_error text ob = Some c_lbrace.
Proof. rewrite block_text, block_ob. apply doc_brace. Qed.

(** The only opening brace of the message. *)
Lemma block_brace (e : nat) :
  nth_error text e = Some c_lbrace ->
  List.length pre <= e < List.length pre + List.length (blockSource m) ->
  e = ob.
Proof.
  intros He Hr. subst text ob.
  rewrite nth_error_app2 in He by lia.
  rewrite nth_error_app1 in He by lia.
  unfold blockSource, blockWith in He.
  apply unique_char in He; [lia | exact (head_no_brace _ Hm)|].
  intros Hin. apply in_app_or in Hin. destruct Hin as [Hin|[Hin|[]]];
    [exact (wb_body _ Hm Hin) | discriminate].
Qed.

Lemma block_close :
  findMatchingBrace text (Z.of_nat ob)
  = Z.of_nat (ob + 1 + List.length (mb_body m)).
Proof.
  assert (text = (pre ++ blockHead m)
                   ++ c_lbrace :: mb_body m ++ c_rbrace :: rest) as ->.
  { subst text. unfold blockSource, blockWith.
    repeat (rewrite <- app_assoc || rewrite <- app_comm_cons). reflexivity. }
  subst ob. rewrite <- length_app.
  apply matched_balanced. exact (wb_bal _ Hm).
Qed.

End Block.


(** *** The spans of a document of messages *)

Lemma siblings_cons (m : messageBlock) (ms : list messageBlock) :
  siblings (m :: ms) = blockSource m ++ siblings ms.
Proof. reflexivity. Qed.

Lemma siblings_length (ms : list messageBlock) :
  List.length ms <= List.length (siblings ms).
Proof.
  induction ms as [|m ms IH]; [apply Nat.le_refl|].
  rewrite siblings_cons, length_app. unfold blockSource.
  rewrite blockWith_length. simpl. lia.
Qed.

Section Spans.

Variable after : jsstring.
Hypothesis Hafter : ~ In c_lbrace after.

(** The loop of the span finder on messages one after the other, entered
    before the first of them. *)
Lemma findRanges_siblings (ms : list messageBlock) :
  forall pre lastIndex fuel,
    Forall wellFormedBlock ms -> ~ endsWord pre ->
    List.length ms <= fuel -> lastIndex <= List.length pre ->
    (forall k y, lastIndex <= k ->
                 matchAt (pre ++ siblings ms ++ after) msgRegex k = Matched y ->
                 List.length pre < endIndex y) ->
    findRanges fuel (pre ++ siblings ms ++ after) lastIndex
    = Some (spansFrom (List.length pre) ms).
Proof.
  induction ms as [|m ms IH]; intros pre lastIndex fuel Hwf Hpre Hfuel Hlast Hno.
  - assert (exec (pre ++ siblings [] ++ after) msgRegex lastIndex = None) as E.
    { unfold exec. apply tryFrom_none. intros k y Hk Hmt.
      pose proof (Hno k y ltac:(lia) Hmt) as Hlt.
      apply msg_match_brace in Hmt. destruct Hmt as (e & He & _ & Hc).
      simpl in Hc. rewrite nth_error_app2 in Hc by lia.
      apply nth_error_In in Hc. exact (Hafter Hc). }
    destruct fuel; simpl; simpl in E; rewrite E; reflexivity.
  - apply Forall_cons_iff in Hwf. destruct Hwf as [Hm Hwf].
    set (rest := siblings ms ++ after).
    assert (pre ++ siblings (m :: ms) ++ after = pre ++ blockSource m ++ rest)
      as Etext by (rewrite siblings_cons, <- app_assoc; reflexivity).
    rewrite Etext in *.
    set (text := pre ++ blockSource m ++ rest) in *.
    set (hs := List.length pre + List.length (mb_before m)).
    set (ob := List.length pre + List.length (blockHead m)).
    assert (hs <= ob) as Hhsob
        by (subst hs ob; rewrite blockHead_length; lia).
    pose proof (block_brace_at pre rest m) as Hbrace. fold text ob in Hbrace.
    assert (ob < inputLength text) as Hlen
        by (apply nth_error_Some; rewrite Hbrace; discriminate).
    destruct (block_match_exists pre rest m Hpre Hm) as [y0 Hy0].
    fold text hs in Hy0.
    destruct (exec_finds text msgRegex lastIndex hs y0) as (found & y & Hex & Hf);
      [subst hs; lia | exact Hy0|].
    pose proof (exec_spec _ _ _ _ _ Hex) as (_ & Hmt & _).
    destruct (openPos_last _ _ _ Hmt) as (e & He & Hfe & Hc & Hopen).
    assert (e = ob) as ->.
    { pose proof (Hno found y ltac:(lia) Hmt) as Hlt.
      destruct (Nat.lt_trichotomy e ob) as [H|[H|H]]; [|exact H|]; exfalso.
      - assert (e = ob); [|lia].
        apply (block_brace pre rest m Hm e Hc).
        subst ob. unfold blockSource. rewrite blockWith_length. lia.
      - exact (msg_match_inside text found y Hmt ob ltac:(lia) ltac:(lia)
                                Hbrace). }
    assert (found = hs) as ->
        by (exact (block_match_local pre rest m Hm found y Hmt He)).
    pose proof (block_close pre rest m Hm) as Hclose. fold text ob in Hclose.
    destruct fuel as [|fuel]; [simpl in Hfuel; lia|].
    cbn [findRanges]. rewrite Hex.
    fold (openPosOf text hs y). rewrite Hopen, Hclose.
    destruct (Z.of_nat (ob + 1 + List.length (mb_body m)) =? -1)%Z eqn:E;
      [apply Z.eqb_eq in E; lia|].
    assert (text = (pre ++ blockSource m) ++ siblings ms ++ after) as Etext'
        by (subst text rest; rewrite <- app_assoc; reflexivity).
    rewrite Etext'.
    rewrite (IH (pre ++ blockSource m) (hs + 1) fuel).
    + cbn [option_map spansFrom]. rewrite length_app. reflexivity.
    + exact Hwf.
    + apply endsWord_block.
    + simpl in Hfuel. lia.
    + rewrite length_app. unfold blockSource. rewrite blockWith_length.
      subst hs. rewrite blockHead_length. lia.
    + rewrite <- Etext'. intros k y' Hk Hmt'.
      destruct (msg_match_brace _ _ _ Hmt') as (e' & He' & Hke' & Hc').
      rewrite length_app.
      destruct (Nat.lt_ge_cases (List.length pre + List.length (blockSource m))
                                (endIndex y')) as [Hl|Hl]; [exact Hl | exfalso].
      assert (e' = ob) as ->.
      { apply (block_brace pre rest m Hm e' Hc'). subst hs. lia. }
      pose proof (block_match_local pre rest m Hm k y' Hmt' He') as Ek.
      fold hs in Ek. lia.
Qed.

Lemma spans_siblings (ms : list messageBlock) :
  Forall wellFormedBlock ms ->
  findMessageSpans (siblings ms ++ after) = spansFrom 0 ms.
Proof.
  intros Hwf. unfold findMessageSpans, findMessageSpans_opt.
  rewrite (findRanges_siblings ms [] 0 _ Hwf); try reflexivity.
  - intros (b & c & E & _). destruct b; discriminate.
  - rewrite length_app. pose proof (siblings_length ms). lia.
  - intros k y _ Hmt. apply msg_match_brace in Hmt.
    destruct Hmt as (e & -> & _). simpl. lia.
Qed.

End Spans.


(** *** The order of the rewriting *)

Lemma insertRange_last (x : range) (l : list range) :
  Forall (opensBefore x) l -> insertRange x l = l ++ [x].
Proof.
  induction 1 as [|y l Hy _ IH]; [reflexivity|].
  simpl. unfold compareRanges. unfold opensBefore in Hy.
  destruct (open y - open x <=? 0)%Z eqn:E; [apply Z.leb_le in E; lia|].
  rewrite IH. reflexivity.
Qed.

(** Spans recorded in the order of the text are rewritten from the last
    to the first. *)
Lemma sortRanges_ascending (l : list range) :
  StronglySorted opensBefore l -> sortRanges l = rev l.
Proof.
  induction 1 as [|x l _ IH Hx]; [reflexivity|].
  change (sortRanges (x :: l)) with (insertRange x (sortRanges l)).
  rewrite IH. simpl. apply insertRange_last.
  apply Forall_rev. exact Hx.
Qed.

Lemma spansFrom_open (ms : list messageBlock) : forall off,
  Forall (fun r => (Z.of_nat off <= open r)%Z) (spansFrom off ms).
Proof.
  induction ms as [|m ms IH]; intros off; simpl; constructor.
  - simpl. lia.
  - eapply Forall_impl; [|apply IH]. simpl. intros r Hr. lia.
Qed.

Lemma spansFrom_sorted (ms : list messageBlock) : forall off,
  StronglySorted opensBefore (spansFrom off ms).
Proof.
  induction ms as [|m ms IH]; intros off; simpl; constructor.
  - apply IH.
  - eapply Forall_impl; [|apply spansFrom_open].
    unfold opensBefore, blockSource. simpl. rewrite blockWith_length.
    intros r Hr. lia.
Qed.

(** *** The rewriting *)

(** One iteration of the second loop, on a span of the current text. *)
Lemma rewrite_body (l1 body l2 : jsstring) (flag : bool) :
  rewriteRange ((l1 ++ [c_lbrace]) ++ body ++ l2, flag)
               (mkRange (Z.of_nat (List.length l1))
                        (Z.of_nat (List.length l1 + 1 + List.length body)))
  = ((l1 ++ [c_lbrace]) ++ renumberMessageBody body ++ l2,
     negb (jsstring_eqb (renumberMessageBody body) body) || flag).
Proof.
  unfold rewriteRange. cbn [open close].
  assert (List.length (l1 ++ [c_lbrace]) = List.length l1 + 1) as Elen
      by (rewrite length_app; reflexivity).
  assert (slice ((l1 ++ [c_lbrace]) ++ body ++ l2) (Z.of_nat (List.length l1) + 1)
                (Z.of_nat (List.length l1 + 1 + List.length body))
          = body) as ->.
  { replace (Z.of_nat (List.length l1) + 1)%Z
      with (Z.of_nat (List.length (l1 ++ [c_lbrace]))) by lia.
    rewrite <- Elen. apply slice_seg. }
  destruct (jsstring_eqb (renumberMessageBody body) body) eqn:Eq; cbn [negb orb].
  - apply jsstring_eqb_true in Eq. rewrite Eq. reflexivity.
  - f_equal.
    replace (Z.of_nat (List.length l1) + 1)%Z
      with (Z.of_nat (List.length (l1 ++ [c_lbrace]))) by lia.
    rewrite slice_prefix. f_equal. f_equal.
    rewrite app_assoc.
    replace (List.length l1 + 1 + List.length body)
      with (List.length ((l1 ++ [c_lbrace]) ++ body))
      by (rewrite (length_app (l1 ++ [c_lbrace])); lia).
    apply sliceFrom_suffix.
Qed.

Lemma rewrite_siblings (after : jsstring) (ms : list messageBlock) :
  forall pre,
    fold_left rewriteRange (rev (spansFrom (List.length pre) ms))
              (pre ++ siblings ms ++ after, false)
    = (pre ++ siblingsResult ms ++ after, existsb bodyChanged ms).
Proof.
  induction ms as [|m ms IH]; intros pre; [reflexivity|].
  cbn [spansFrom rev]. rewrite fold_left_app. cbn [fold_left].
  rewrite <- (length_app pre (blockSource m)).
  replace (pre ++ siblings (m :: ms) ++ after)
    with ((pre ++ blockSource m) ++ siblings ms ++ after)
    by (rewrite siblings_cons; repeat rewrite <- app_assoc; reflexivity).
  rewrite IH.
  replace ((pre ++ blockSource m) ++ siblingsResult ms ++ after)
    with (((pre ++ blockHead m) ++ [c_lbrace]) ++ mb_body m
            ++ c_rbrace :: siblingsResult ms ++ after)
    by (unfold blockSource, blockWith;
        repeat (rewrite <- app_assoc || rewrite <- app_comm_cons);
        reflexivity).
  rewrite <- (length_app pre (blockHead m)).
  rewrite rewrite_body. f_equal.
  change (siblingsResult (m :: ms)) with (blockResult m ++ siblingsResult ms).
  unfold blockResult, blockWith.
  repeat (rewrite <- app_assoc || rewrite <- app_comm_cons). reflexivity.
Qed.

(** [processProtoText] on messages one after the other. *)
Lemma process_siblings (ms : list messageBlock) (after : jsstring) :
  Forall wellFormedBlock ms -> ~ In c_lbrace after ->
  processProtoText (siblings ms ++ after)
  = (siblingsResult ms ++ after, existsb bodyChanged ms).
Proof.
  intros Hwf Hafter. unfold processProtoText.
  rewrite (spans_siblings after Hafter ms Hwf).
  rewrite sortRanges_ascending by apply spansFrom_sorted.
  exact (rewrite_siblings after ms []).
Qed.


(** *** Messages made of field declarations *)

Lemma not_endsWord (s : jsstring) :
  match rev s with
  | [] => true
  | c :: _ => negb (isWordChar c)
  end = true ->
  ~ endsWord s.
Proof.
  intros H (b & c & -> & Hc). rewrite rev_app_distr in H. simpl in H.
  rewrite Hc in H. discriminate.
Qed.

Lemma fieldBlock_wellFormed (f : fieldMessage) :
  wellFormedFieldMessage f ->
  wellFormedBlock (fieldBlock f (sourceOf (fm_fields f) ++ fm_trail f)).
Proof.
  intros [Hb Hw Hh Hf Hx _ Ht].
  destruct (fields_lexical _ _ Hf Hx Ht) as [Hbal Hno].
  constructor; simpl; assumption.
Qed.

Lemma fieldBlock_result (f : fieldMessage) :
  wellFormedFieldMessage f ->
  blockResult (fieldBlock f (sourceOf (fm_fields f) ++ fm_trail f))
  = fieldMessageNumbered f.
Proof.
  intros [_ _ _ Hf _ Hl Ht]. unfold blockResult, fieldMessageNumbered. simpl.
  rewrite renumber_fields by assumption. reflexivity.
Qed.

Lemma retagMessage_wellFormed (f : fieldMessage) :
  wellFormedFieldMessage f -> wellFormedFieldMessage (retagMessage f).
Proof.
  intros [Hb Hw Hh Hf Hx Hl Ht]. constructor; simpl; try assumption.
  - apply retagFrom_wellFormed. exact Hf.
  - apply retagFrom_lexical. exact Hx.
  - destruct (fm_fields f) as [|x fs]; [constructor|]. simpl in *.
    apply retagFrom_startsLine. exact Hl.
Qed.

Lemma retagMessage_source (f : fieldMessage) :
  fieldMessageSource (retagMessage f) = fieldMessageNumbered f.
Proof.
  unfold fieldMessageSource, fieldMessageNumbered. simpl.
  rewrite retagFrom_source. reflexivity.
Qed.

Lemma retagMessage_numbered (f : fieldMessage) :
  fieldMessageNumbered (retagMessage f) = fieldMessageNumbered f.
Proof.
  unfold fieldMessageNumbered. simpl.
  rewrite retagFrom_renumbered. reflexivity.
Qed.

Lemma process_fieldDocument (fms : list fieldMessage) (after : jsstring) :
  Forall wellFormedFieldMessage fms -> ~ In c_lbrace after ->
  processProtoText (fieldDocument fms after)
  = (numberedDocument fms after,
     negb (forallb (fun f => jsstring_eqb (fieldMessageNumbered f)
                                          (fieldMessageSource f)) fms)).
Proof.
  intros Hwf Hafter.
  set (ms := map (fun f => fieldBlock f (sourceOf (fm_fields f) ++ fm_trail f))
                 fms).
  assert (fieldDocument fms after = siblings ms ++ after) as ->.
  { unfold fieldDocument, siblings. subst ms. rewrite map_map. reflexivity. }
  rewrite process_siblings; [|subst ms|exact Hafter].
  - f_equal.
    + unfold numberedDocument, siblingsResult. subst ms. rewrite map_map.
      f_equal. f_equal. apply map_ext_in. intros f Hin.
      apply fieldBlock_result. rewrite Forall_forall in Hwf. exact (Hwf f Hin).
    + subst ms. clear Hafter. induction Hwf as [|f fms Hf _ IH]; [reflexivity|].
      cbn [map existsb forallb]. rewrite IH, negb_andb. f_equal.
      unfold bodyChanged. cbn [mb_body fieldBlock]. f_equal.
      destruct Hf as [_ _ _ Hf _ Hl Ht].
      rewrite renumber_fields by assumption.
      unfold fieldMessageNumbered, fieldMessageSource, blockSource, blockWith.
      cbn [mb_body fieldBlock].
      unfold jsstring_eqb.
      destruct (list_eq_dec N.eq_dec _ _) as [E|E];
        destruct (list_eq_dec N.eq_dec _ _) as [E'|E']; try reflexivity;
        exfalso.
      * apply E'. rewrite E. reflexivity.
      * apply E. apply app_inv_head in E'. inversion E' as [E2].
        apply app_inv_tail in E2. exact E2.
  - apply Forall_map. eapply Forall_impl; [|exact Hwf].
    intros f Hf. apply fieldBlock_wellFormed. exact Hf.
Qed.

Lemma process_numberedDocument (fms : list fieldMessage) (after : jsstring) :
  Forall wellFormedFieldMessage fms -> ~ In c_lbrace after ->
  processProtoText (numberedDocument fms after)
  = (numberedDocument fms after, false).
Proof.
  intros Hwf Hafter.
  assert (numberedDocument fms after
          = fieldDocument (map retagMessage fms) after) as E.
  { unfold numberedDocument, fieldDocument. rewrite map_map.
    f_equal. f_equal. apply map_ext. intros f.
    symmetry. apply retagMessage_source. }
  rewrite E at 1. rewrite process_fieldDocument; [|apply Forall_map|exact Hafter].
  - f_equal.
    + unfold numberedDocument. rewrite map_map. f_equal. f_equal.
      apply map_ext. exact retagMessage_numbered.
    + apply negb_false_iff, forallb_forall. intros x Hx.
      apply in_map_iff in Hx. destruct Hx as (f & <- & _).
      rewrite retagMessage_numbered, retagMessage_source.
      apply jsstring_eqb_refl.
  - eapply Forall_impl; [|exact Hwf].
    intros f Hf. apply retagMessage_wellFormed. exact Hf.
Qed.

End SiblingFacts.

(** * What a run can change *)

Module ChangeFacts.

Import Brace BraceFacts RegExpFacts FieldFacts SpanFacts RewriterFacts.
Import FieldLineFacts.

Lemma nonDigits_app (a b : jsstring) :
  nonDigits (a ++ b) = nonDigits a ++ nonDigits b.
Proof. apply filter_app. Qed.

Lemma nonDigits_digits (s : jsstring) : allOf isDigit s -> nonDigits s = [].
Proof.
  induction 1 as [|c s Hc _ IH]; [reflexivity|].
  simpl. rewrite Hc. exact IH.
Qed.

Section Body.

Variable body : jsstring.

Lemma substring_digits (a b : nat) :
  (forall k, a <= k < b ->
             exists d, nth_error body k = Some d /\ isDigit d = true) ->
  allOf isDigit (substring body a b).
Proof.
  intros H. unfold allOf. apply Forall_forall. intros x Hx.
  apply In_nth_error in Hx. destruct Hx as [i Hi].
  unfold substring in Hi. rewrite nth_error_firstn in Hi.
  destruct (i <? b - a) eqn:E; [|discriminate].
  apply Nat.ltb_lt in E. rewrite nth_error_skipn in Hi.
  destruct (H (a + i) ltac:(lia)) as (d & Hd & Hdd).
  rewrite Hd in Hi. inversion Hi; subst x. exact Hdd.
Qed.

Lemma skipn_split (from a : nat) :
  from <= a -> skipn from body = substring body from a ++ skipn a body.
Proof.
  intros H. unfold substring.
  replace (skipn a body) with (skipn (a - from) (skipn from body))
    by (rewrite skipn_skipn; f_equal; lia).
  symmetry. apply firstn_skipn.
Qed.

Lemma nonDigits_splice (toks : list (nat * nat)) : forall counter from,
  tokensFrom body from toks ->
  nonDigits (spliceTokens body toks counter from)
  = nonDigits (skipn from body).
Proof.
  induction toks as [|[a b] toks IH]; intros counter from H; [reflexivity|].
  simpl in H. destruct H as (Hfa & Hab & Hd & Hrest).
  cbn [spliceTokens].
  rewrite (skipn_split from a Hfa), (skipn_split a b) by lia.
  rewrite !nonDigits_app, (IH _ _ Hrest).
  rewrite (nonDigits_digits _ (proj1 (String_of_nat_digits counter))).
  rewrite (nonDigits_digits _ (substring_digits a b Hd)).
  reflexivity.
Qed.

(** Renumbering a body changes digits only. *)
Lemma nonDigits_renumber :
  nonDigits (renumberMessageBody body) = nonDigits body.
Proof.
  rewrite renumberMessageBody_splice.
  exact (nonDigits_splice _ 1 0 (numberTokens_ok body)).
Qed.

End Body.

Lemma clampIndex_range (len k : Z) :
  (0 <= len -> 0 <= clampIndex len k <= len)%Z.
Proof.
  unfold clampIndex. destruct (k <? 0)%Z eqn:E;
    [apply Z.ltb_lt in E | apply Z.ltb_ge in E]; lia.
Qed.

Lemma slice_head (t : jsstring) (a : Z) :
  slice t 0 a = firstn (Z.to_nat (clampIndex (jslength t) a)) t.
Proof.
  unfold slice. pose proof (clampIndex_range (jslength t) a) as H.
  unfold jslength in *.
  replace (clampIndex (Z.of_nat (List.length t)) 0) with 0%Z
    by (unfold clampIndex; simpl; lia).
  simpl skipn. f_equal. lia.
Qed.

Lemma slice_tail (t : jsstring) (b : Z) :
  sliceFrom t b = skipn (Z.to_nat (clampIndex (jslength t) b)) t.
Proof.
  unfold sliceFrom, slice. pose proof (clampIndex_range (jslength t) b) as H.
  unfold jslength in *.
  replace (clampIndex (Z.of_nat (List.length t)) (Z.of_nat (List.length t)))
    with (Z.of_nat (List.length t))
    by (unfold clampIndex;
        destruct (Z.of_nat (List.length t) <? 0)%Z eqn:E;
        [apply Z.ltb_lt in E|]; lia).
  apply firstn_all2. rewrite length_skipn. lia.
Qed.

(** The three parts that an iteration of the second loop puts together. *)
Lemma slice_parts (t : jsstring) (a b : Z) :
  slice t a b <> [] -> slice t 0 a ++ slice t a b ++ sliceFrom t b = t.
Proof.
  intros Hne. rewrite slice_head, slice_tail. unfold slice in *.
  pose proof (clampIndex_range (jslength t) a ltac:(unfold jslength; lia)) as Ha.
  pose proof (clampIndex_range (jslength t) b ltac:(unfold jslength; lia)) as Hb.
  set (ca := clampIndex (jslength t) a) in *.
  set (cb := clampIndex (jslength t) b) in *.
  assert (ca < cb)%Z as Hlt.
  { destruct (Z.lt_ge_cases ca cb) as [H|H]; [exact H|].
    exfalso. apply Hne. replace (Z.to_nat (Z.max (cb - ca) 0)) with 0 by lia.
    reflexivity. }
  replace (Z.to_nat (Z.max (cb - ca) 0)) with (Z.to_nat cb - Z.to_nat ca)
    by lia.
  replace (skipn (Z.to_nat cb) t)
    with (skipn (Z.to_nat cb - Z.to_nat ca) (skipn (Z.to_nat ca) t))
    by (rewrite skipn_skipn; f_equal; lia).
  rewrite firstn_skipn. apply firstn_skipn.
Qed.

(** An iteration of the second loop that changes the text rebuilds it
    around the renumbered body. *)
Lemma rewriteRange_changed (result : jsstring) (flag : bool) (r : range) :
  let body := slice result (open r + 1) (close r) in
  negb (jsstring_eqb (renumberMessageBody body) body) = true ->
  result = slice result 0 (open r + 1) ++ body ++ sliceFrom result (close r)
  /\ rewriteRange (result, flag) r
     = (slice result 0 (open r + 1) ++ renumberMessageBody body
          ++ sliceFrom result (close r), true).
Proof.
  intros body H. split.
  - symmetry. apply slice_parts. fold body. intros E. rewrite E in H.
    discriminate.
  - unfold rewriteRange. fold body. rewrite H. reflexivity.
Qed.

Lemma rewriteRange_same (result : jsstring) (flag : bool) (r : range) :
  let body := slice result (open r + 1) (close r) in
  negb (jsstring_eqb (renumberMessageBody body) body) = false ->
  rewriteRange (result, flag) r = (result, flag).
Proof. intros body H. unfold rewriteRange. fold body. rewrite H. reflexivity. Qed.

Lemma rewriteRange_nonDigits (st : jsstring * bool) (r : range) :
  nonDigits (fst (rewriteRange st r)) = nonDigits (fst st).
Proof.
  destruct st as [result flag].
  destruct (negb (jsstring_eqb
                    (renumberMessageBody (slice result (open r + 1) (close r)))
                    (slice result (open r + 1) (close r)))) eqn:E.
  - destruct (rewriteRange_changed result flag r E) as [E1 ->].
    cbn [fst]. rewrite E1 at 4.
    rewrite !nonDigits_app, nonDigits_renumber. reflexivity.
  - rewrite (rewriteRange_same result flag r E). reflexivity.
Qed.

Lemma rewrite_nonDigits (ranges : list range) : forall st,
  nonDigits (fst (fold_left rewriteRange ranges st)) = nonDigits (fst st).
Proof.
  induction ranges as [|r ranges IH]; intros st; [reflexivity|].
  cbn [fold_left]. rewrite IH. apply rewriteRange_nonDigits.
Qed.

(** *** Texts without the keyword *)

Lemma startsWith_chars (s : jsstring) : forall t,
  (forall j, j < List.length s -> nth_error t j = nth_error s j) ->
  startsWith s t = true.
Proof.
  induction s as [|c s IH]; intros t H; [reflexivity|].
  pose proof (H 0 ltac:(simpl; lia)) as H0.
  destruct t as [|d t]; [discriminate|]. simpl in H0. inversion H0; subst d.
  simpl. rewrite N.eqb_refl. apply IH.
  intros j Hj. apply (H (S j)). simpl. lia.
Qed.

Lemma includes_at (s : jsstring) (k : nat) : forall t,
  (forall j, j < List.length s -> nth_error t (k + j) = nth_error s j) ->
  includes s t = true.
Proof.
  induction k as [|k IH]; intros t H.
  - destruct t; simpl; rewrite (startsWith_chars s _ H); reflexivity.
  - destruct t as [|d t].
    + destruct s as [|c s]; [reflexivity|].
      specialize (H 0 ltac:(simpl; lia)). discriminate.
    + simpl. rewrite (IH t); [apply orb_true_r|].
      intros j Hj. exact (H j Hj).
Qed.

(** A match of the message pattern starts with the keyword. *)
Lemma msg_match_keyword (text : jsstring) (k : nat) (y : mstate) :
  matchAt text msgRegex k = Matched y ->
  forall j, j < 7 -> nth_error text (k + j) = nth_error (str "message") j.
Proof.
  intros H. apply compile_sound in H. destruct H as (y' & Hd & _).
  destruct Hd as (z0 & [_ ->] & z1 & Hl & _).
  exact (proj2 (litChars_denote text _ _ _ Hl)).
Qed.

Lemma no_keyword_no_span (text : jsstring) :
  includes (str "message") text = false -> findMessageSpans text = [].
Proof.
  intros Hn. unfold findMessageSpans, findMessageSpans_opt.
  assert (exec text msgRegex 0 = None) as E.
  { unfold exec. apply tryFrom_none. intros k y _ H.
    pose proof (includes_at (str "message") k text
                            (msg_match_keyword text k y H)) as Hi.
    congruence. }
  simpl. rewrite E. reflexivity.
Qed.

(** *** The text before the first opening brace *)

Lemma rewriteRange_prefix (st : jsstring * bool) (r : range) (p : nat) :
  (Z.of_nat p <= open r)%Z ->
  firstn (S p) (fst (rewriteRange st r)) = firstn (S p) (fst st).
Proof.
  intros Hp. destruct st as [result flag].
  destruct (negb (jsstring_eqb
                    (renumberMessageBody (slice result (open r + 1) (close r)))
                    (slice result (open r + 1) (close r)))) eqn:E.
  - destruct (rewriteRange_changed result flag r E) as [E1 ->].
    cbn [fst].
    assert (List.length (slice result 0 (open r + 1)) = S (Z.to_nat (open r)))
      as Elen.
    { assert (slice result (open r + 1) (close r) <> []) as Hne
          by (intros E0; rewrite E0 in E; discriminate).
      rewrite slice_head. unfold slice in Hne.
      pose proof (clampIndex_range (jslength result) (close r)
                                   ltac:(unfold jslength; lia)) as Hc.
      assert (clampIndex (jslength result) (open r + 1) = open r + 1)%Z as Eo.
      { unfold clampIndex in *.
        destruct (open r + 1 <? 0)%Z eqn:E0; [apply Z.ltb_lt in E0; lia|].
        destruct (Z.le_gt_cases (open r + 1) (jslength result)) as [H|H];
          [lia|].
        exfalso. apply Hne.
        rewrite (Z.min_r (open r + 1) (jslength result)) by lia.
        rewrite skipn_all2 by (unfold jslength; lia).
        apply firstn_nil. }
      rewrite Eo in *. rewrite length_firstn.
      unfold jslength in *.
      destruct (Z.le_gt_cases (open r + 1) (Z.of_nat (List.length result)))
        as [H|H]; [lia|].
      exfalso. apply Hne. rewrite skipn_all2 by lia. apply firstn_nil. }
    set (h := slice result 0 (open r + 1)) in *.
    set (b := slice result (open r + 1) (close r)) in *.
    set (tl := sliceFrom result (close r)) in *.
    rewrite E1. rewrite !(firstn_app (S p)), Elen.
    replace (S p - S (Z.to_nat (open r))) with 0 by lia.
    reflexivity.
  - rewrite (rewriteRange_same result flag r E). reflexivity.
Qed.

Lemma rewrite_prefix (p : nat) (ranges : list range) : forall st,
  Forall (fun r => (Z.of_nat p <= open r)%Z) ranges ->
  firstn (S p) (fst (fold_left rewriteRange ranges st)) = firstn (S p) (fst st).
Proof.
  induction ranges as [|r ranges IH]; intros st H; [reflexivity|].
  apply Forall_cons_iff in H. destruct H as [Hr H].
  cbn [fold_left]. rewrite (IH _ H). apply rewriteRange_prefix. exact Hr.
Qed.

Lemma spans_after_brace (text : jsstring) (p : nat) :
  noBraceBefore text p ->
  Forall (fun r => (Z.of_nat p <= open r)%Z)
         (sortRanges (findMessageSpans text)).
Proof.
  intros Hp. apply Forall_forall. intros r Hr.
  apply (proj1 (In_sortRanges _ _)) in Hr.
  unfold findMessageSpans, findMessageSpans_opt in Hr.
  destruct (findRanges _ text 0) as [l|] eqn:E; [|destruct Hr].
  destruct (findRanges_spans text _ _ _ E r Hr) as (Ho & _).
  unfold charAt in Ho. destruct (open r <? 0)%Z eqn:E0; [discriminate|].
  apply Z.ltb_ge in E0.
  destruct (Z.lt_ge_cases (open r) (Z.of_nat p)) as [H|H]; [|lia].
  exfalso. exact (Hp (Z.to_nat (open r)) ltac:(lia) Ho).
Qed.

End ChangeFacts.

(** * Line comments between field declarations *)

Module CommentFacts.

Import RegExpFacts FieldFacts MatcherFacts FieldLineFacts.








End CommentFacts.

(** * Line comments in a body *)



(** * Further properties *)

Import Lexical LexicalFacts RewriterFacts MatcherFacts FieldLineFacts.
Import FlatMessageFacts SiblingFacts ChangeFacts.


(** X2.  In every state in which a scan runs its loop body at most one of
    the four flags is set: the scanner is in exactly one mode. *)
Theorem one_mode_at_a_time (text : jsstring) (openPos : Z) (s : scan)
        (Hs : In s (scanStates text openPos)) :
  (flagCount s <= 1)%nat.
Proof.
  revert s Hs. apply (visited_invariant (fun s => (flagCount s <= 1)%nat) text).
  - intros s s'. apply step_flags.
  - unfold flagCount, init. simpl. lia.
Qed.

(** A state inside the block comment of [bracesInComment]. *)
Lemma one_mode_at_a_time_witness :
  (flagCount (mkScan 3 1 false true false false) <= 1)%nat.
Proof.
  apply (one_mode_at_a_time bracesInComment 0).
  vm_compute. right; right; left; reflexivity.
Defined.

(** X3.  When the text between an opening brace and a closing brace is
    lexically well formed (comments and strings closed, braces paired),
    [findMatchingBrace] from the opening brace returns the offset of that
    closing brace, whatever stands before and after. *)
Theorem balanced_body_is_matched (pre b rest : jsstring)
        (Hb : balanced b) :
  findMatchingBrace (pre ++ c_lbrace :: b ++ c_rbrace :: rest)
                    (Z.of_nat (List.length pre))
  = Z.of_nat (List.length pre + 1 + List.length b).
Proof. apply matched_balanced. exact Hb. Qed.

(** A closing brace inside a block comment, before the real one. *)
Lemma balanced_body_is_matched_witness :
  findMatchingBrace (str "x{/*}*/}y") 1 = 7%Z.
Proof.
  assert (balanced (str "/*}*/")) as Hb.
  { apply (bal_block [c_rbrace] []); [|constructor].
    apply bb_char; [discriminate | constructor]. }
  exact (balanced_body_is_matched (str "x") (str "/*}*/") (str "y") Hb).
Defined.

(** X4.  After an opening brace and well-formed text, a line comment, a
    block comment or a string that is still open at the end of the text
    hides everything in it: [findMatchingBrace] returns -1 even when
    closing braces follow. *)
Theorem unterminated_comment_or_string (pre b c : jsstring)
        (Hb : balanced b) :
  (Forall (fun x => x <> c_lf) c ->
   findMatchingBrace (pre ++ c_lbrace :: b ++ c_slash :: c_slash :: c)
                     (Z.of_nat (List.length pre)) = (-1)%Z)
  /\ (blockBody c ->
      findMatchingBrace (pre ++ c_lbrace :: b ++ c_slash :: c_star :: c)
                        (Z.of_nat (List.length pre)) = (-1)%Z)
  /\ (stringBody c_dquote c ->
      findMatchingBrace (pre ++ c_lbrace :: b ++ c_dquote :: c)
                        (Z.of_nat (List.length pre)) = (-1)%Z)
  /\ (stringBody c_squote c ->
      findMatchingBrace (pre ++ c_lbrace :: b ++ c_squote :: c)
                        (Z.of_nat (List.length pre)) = (-1)%Z).
Proof.
  repeat split; intros Hc; apply findMatchingBrace_run;
    rewrite (scan_opening pre b _ Hb).
  - replace (pre ++ c_lbrace :: b ++ c_slash :: c_slash :: c)
      with ((pre ++ c_lbrace :: b) ++ c_slash :: c_slash :: c) by list_eq.
    one_step. rewrite !isChar_same. simpl.
    rewrite (at_next2 _ c_slash c_slash) by reflexivity.
    replace ((pre ++ c_lbrace :: b) ++ c_slash :: c_slash :: c)
      with (((pre ++ c_lbrace :: b) ++ [c_slash; c_slash]) ++ c) by list_eq.
    apply line_to_end. exact Hc.
  - replace (pre ++ c_lbrace :: b ++ c_slash :: c_star :: c)
      with ((pre ++ c_lbrace :: b) ++ c_slash :: c_star :: c) by list_eq.
    one_step. rewrite !isChar_same. simpl.
    rewrite (at_next2 _ c_slash c_star) by reflexivity.
    replace ((pre ++ c_lbrace :: b) ++ c_slash :: c_star :: c)
      with (((pre ++ c_lbrace :: b) ++ [c_slash; c_star]) ++ c) by list_eq.
    apply block_to_end. exact Hc.
  - replace (pre ++ c_lbrace :: b ++ c_dquote :: c)
      with ((pre ++ c_lbrace :: b) ++ c_dquote :: c) by list_eq.
    one_step. rewrite !isChar_same. simpl.
    rewrite (at_next _ c_dquote) by reflexivity.
    replace ((pre ++ c_lbrace :: b) ++ c_dquote :: c)
      with (((pre ++ c_lbrace :: b) ++ [c_dquote]) ++ c) by list_eq.
    apply dquote_to_end. exact Hc.
  - replace (pre ++ c_lbrace :: b ++ c_squote :: c)
      with ((pre ++ c_lbrace :: b) ++ c_squote :: c) by list_eq.
    one_step. rewrite !isChar_same. simpl.
    rewrite (at_next _ c_squote) by reflexivity.
    replace ((pre ++ c_lbrace :: b) ++ c_squote :: c)
      with (((pre ++ c_lbrace :: b) ++ [c_squote]) ++ c) by list_eq.
    apply squote_to_end. exact Hc.
Qed.

(** A closing brace after [//], after an open block comment and inside
    open strings. *)
Lemma unterminated_comment_or_string_witness :
  findMatchingBrace (str "{ a; // }") 0 = (-1)%Z
  /\ findMatchingBrace (str "{ a; /* }") 0 = (-1)%Z
  /\ findMatchingBrace (str "{ a; ' }") 0 = (-1)%Z.
Proof.
  assert (balanced (str " a; ")) as Hb by (repeat (apply bal_plain; [reflexivity|]); constructor).
  assert (Forall (fun x => x <> c_lf) (str " }")) as H1
      by (repeat constructor; discriminate).
  assert (blockBody (str " }")) as H2
      by (repeat (apply bb_char; [discriminate|]); constructor).
  assert (stringBody c_squote (str " }")) as H3
      by (repeat (apply sb_char; [discriminate | discriminate |]); constructor).
  destruct (unterminated_comment_or_string [] (str " a; ") (str " }") Hb)
    as (L & B & _ & Q).
  split; [exact (L H1) | split; [exact (B H2) | exact (Q H3)]].
Defined.

(** X5.  Every span that the span finder records lies inside the text, has
    an opening brace at [open] and a closing brace at [close], with
    [open < close], and [close] is what [findMatchingBrace] returns from
    [open]. *)
Theorem recorded_spans_are_brace_pairs (text : jsstring) (r : range)
        (Hr : In r (findMessageSpans text)) :
  (0 <= open r < close r)%Z /\ (close r < jslength text)%Z
  /\ charAt text (open r) = Some c_lbrace
  /\ charAt text (close r) = Some c_rbrace
  /\ findMatchingBrace text (open r) = close r.
Proof.
  unfold findMessageSpans, findMessageSpans_opt in Hr.
  destruct (findRanges _ text 0) as [l|] eqn:E; [|destruct Hr].
  destruct (findRanges_spans text _ _ _ E r Hr) as (Ho & Hc & Hm).
  pose proof (charAt_Some_range _ _ _ Ho) as Hrange.
  destruct (result_range text (open r)) as [Hn|(H1 & H2 & H3)];
    rewrite Hm in *; [contradiction|].
  repeat split; try assumption; lia.
Qed.

(** The span of the message [B] of [unclosedDoc]. *)
Lemma recorded_spans_are_brace_pairs_witness :
  (0 <= 22 < 37)%Z /\ (37 < jslength unclosedDoc)%Z
  /\ charAt unclosedDoc 22 = Some c_lbrace
  /\ charAt unclosedDoc 37 = Some c_rbrace
  /\ findMatchingBrace unclosedDoc 22 = 37%Z.
Proof.
  apply (recorded_spans_are_brace_pairs unclosedDoc (mkRange 22 37)).
  vm_compute. left. reflexivity.
Defined.

(** X6.  [sortRanges] returns the spans it is given, each as often as it
    occurs, ordered by descending [open]: a span whose opening brace lies
    further in the text is rewritten earlier. *)
Theorem sortRanges_orders_by_descending_open (l : list range) :
  Permutation l (sortRanges l)
  /\ StronglySorted beforeInOrder (sortRanges l).
Proof.
  split; [apply sortRanges_perm | apply sortRanges_sorted].
Qed.

(** X7.  When [processProtoText] reports [changed = false], its result is
    the text it was given.  The converse fails: there is a text for which
    the flag is true and the result is the input, the pass over an outer
    message undoing the change made in a nested one. *)
Theorem unchanged_flag_means_same_text :
  (forall text, snd (processProtoText text) = false ->
                fst (processProtoText text) = text)
  /\ exists text, processProtoText text = (text, true).
Proof.
  split.
  - intros text. unfold processProtoText. apply rewrite_unchanged.
  - exists restoredDoc. vm_compute. reflexivity.
Qed.

(** A document with one message and no field. *)
Lemma unchanged_flag_means_same_text_witness :
  fst (processProtoText (str "message M { }")) = str "message M { }".
Proof.
  apply (proj1 unchanged_flag_means_same_text).
  vm_compute. reflexivity.
Defined.

(** X8.  A text without an opening brace, or without the word [message],
    has no span: [processProtoText] returns it as it is, with
    [changed = false]. *)
Theorem text_without_message_is_unchanged (text : jsstring)
        (Hn : ~ In c_lbrace text \/ includes (str "message") text = false) :
  findMessageSpans text = [] /\ processProtoText text = (text, false).
Proof.
  assert (findMessageSpans text = []) as E
      by (destruct Hn as [Hn|Hn];
          [exact (no_brace_no_span text Hn) | exact (no_keyword_no_span text Hn)]).
  split; [exact E|]. unfold processProtoText. rewrite E. reflexivity.
Qed.

(** An enumeration, whose values look like tags. *)
Lemma text_without_message_is_unchanged_witness :
  processProtoText (unlines ["enum E {"; "  A = 7;"; "  B = 9;"; "}"]%string)
  = (unlines ["enum E {"; "  A = 7;"; "  B = 9;"; "}"]%string, false).
Proof.
  apply text_without_message_is_unchanged.
  right. reflexivity.
Defined.

(** X9.  A body that has no [=], or no semicolon, or no digit has no field
    declaration: [renumberMessageBody] returns it as it is. *)
Theorem body_without_field_is_unchanged (body : jsstring)
        (H : ~ In c_equals body \/ ~ In c_semicolon body
             \/ Forall (fun c => isDigit c = false) body) :
  renumberMessageBody body = body.
Proof.
  apply no_results. intros k y _ Hm.
  destruct (field_match_needs _ _ _ Hm) as (He & Hs & Hd).
  destruct H as [H|[H|H]]; [exact (H He) | exact (H Hs)|].
  apply Exists_exists in Hd. destruct Hd as (d & Hin & Hdd).
  rewrite Forall_forall in H. rewrite (H d Hin) in Hdd. discriminate.
Qed.

(** A declaration whose tag is missing. *)
Lemma body_without_field_is_unchanged_witness :
  renumberMessageBody (str "  string name = ;") = str "  string name = ;".
Proof.
  apply body_without_field_is_unchanged.
  right; right. repeat constructor.
Defined.

(** X10.  In a body made of well-formed field declarations (a label or
    none, a type name or a map type, a name, [=], the digits of the tag,
    options in brackets or none, the semicolon), the first at the start of
    the body and every other one after a line terminator, followed by
    white space, [renumberMessageBody] replaces the tags by 1, 2, ... in
    order and leaves everything else as it is. *)
Theorem fields_are_numbered_in_order
        (fs : list fieldLine) (trail : jsstring)
        (Hwf : Forall wellFormedField fs)
        (Hlines : Forall startsLine (tl fs))
        (Htrail : allOf isSpace trail) :
  renumberMessageBody (sourceOf fs ++ trail) = renumberedFrom 1 fs ++ trail.
Proof. apply renumber_fields; assumption. Qed.

(** The three example fields are well formed. *)
Lemma exampleFields_wellFormed :
  wellFormedField nameField /\ wellFormedField idField
  /\ wellFormedField okField
  /\ lexicalField nameField /\ lexicalField idField /\ lexicalField okField.
Proof.
  repeat split; try exact I; simpl;
    try discriminate; try reflexivity;
    try (unfold isLabel; auto; fail);
    try (repeat constructor; fail);
    try (simpl; intuition discriminate; fail).
Qed.

(** Three fields with the tags 5, 12 and 13. *)
Lemma fields_are_numbered_in_order_witness :
  renumberMessageBody
    ([c_lf] ++ unlines ["  string name = 5;";
                        "  repeated int32 id=12 [packed = true];";
                        "map<string, bool> ok=13;"]%string)
  = [c_lf] ++ unlines ["  string name = 1;";
                       "  repeated int32 id=2 [packed = true];";
                       "map<string, bool> ok=3;"]%string.
Proof.
  destruct exampleFields_wellFormed as (W1 & W2 & W3 & _).
  assert (Forall wellFormedField [nameField; idField; okField]) as Hwf
      by (constructor; [exact W1 | constructor; [exact W2 | constructor;
            [exact W3 | constructor]]]).
  assert (Forall startsLine (tl [nameField; idField; okField])) as Hlines
      by (repeat constructor).
  assert (allOf isSpace [c_lf]) as Htrail by (repeat constructor).
  exact (fields_are_numbered_in_order [nameField; idField; okField] [c_lf]
                                      Hwf Hlines Htrail).
Defined.

(** X11.  A document of messages one after the other, none nested in
    another: before each message text without an opening brace that does
    not end in a word character, then the keyword, white space, a name,
    optional white space, an opening brace, a body that is lexically well
    formed and has no opening brace, and the closing brace; after the last
    message text without an opening brace.  [processProtoText] replaces
    the body of every message by [renumberMessageBody] of that body and
    leaves the rest of the document as it is; [changed] is true exactly
    when the body of some message differs. *)
Theorem sibling_messages_are_rewritten_one_by_one
        (ms : list messageBlock) (after : jsstring)
        (Hwf : Forall wellFormedBlock ms)
        (Hafter : ~ In c_lbrace after) :
  processProtoText (siblings ms ++ after)
  = (siblingsResult ms ++ after, existsb bodyChanged ms).
Proof. apply process_siblings; assumption. Qed.

Lemma sibling_messages_are_rewritten_one_by_one_witness :
  processProtoText
    (str "message A {int32 a = 4; // }" ++ [c_lf]
         ++ str "} message B{bool b = 1;}")
  = (str "message A {int32 a = 1; // }" ++ [c_lf]
         ++ str "} message B{bool b = 1;}", true).
Proof.
  assert (wellFormedBlock commentBlock) as H1.
  { constructor.
    - intros [].
    - apply not_endsWord. reflexivity.
    - constructor; try discriminate; try reflexivity; repeat constructor.
    - simpl. intuition discriminate.
    - repeat (apply bal_plain; [reflexivity|]).
      apply (bal_line (str " }") []); repeat constructor; discriminate. }
  assert (wellFormedBlock numberedBlock) as H2.
  { constructor.
    - simpl. intuition discriminate.
    - apply not_endsWord. reflexivity.
    - constructor; try discriminate; try reflexivity; repeat constructor.
    - simpl. intuition discriminate.
    - repeat (apply bal_plain; [reflexivity|]). constructor. }
  assert (Forall wellFormedBlock [commentBlock; numberedBlock]) as Hwf
      by (constructor; [exact H1 | constructor; [exact H2 | constructor]]).
  refine (eq_trans
            (sibling_messages_are_rewritten_one_by_one
               [commentBlock; numberedBlock] [] Hwf (fun H => H)) _).
  vm_compute. reflexivity.
Defined.

(** X12.  In a document of messages one after the other whose bodies are
    sequences of well-formed field declarations, each on a line of its
    own, with lexically well-formed map types and options,
    [processProtoText] numbers the fields of every message 1, 2, ... in
    order, starting at 1 again in each message, and changes nothing
    else. *)
Theorem fields_of_every_message_start_at_one
        (fms : list fieldMessage) (after : jsstring)
        (Hwf : Forall wellFormedFieldMessage fms)
        (Hafter : ~ In c_lbrace after) :
  fst (processProtoText (fieldDocument fms after))
  = numberedDocument fms after.
Proof. rewrite process_fieldDocument by assumption. reflexivity. Qed.

(** The hypotheses of X12 and X15 on [twoMessages]. *)
Lemma twoMessages_wellFormed :
  Forall wellFormedFieldMessage twoMessages /\ ~ In c_lbrace [c_lf].
Proof.
  destruct exampleFields_wellFormed as (W1 & W2 & W3 & L1 & L2 & L3).
  split; [|simpl; intuition discriminate].
  constructor; [|constructor; [|constructor]]; constructor; simpl.
  - intros [].
  - apply not_endsWord. reflexivity.
  - constructor; try discriminate; try reflexivity; repeat constructor.
  - constructor; [exact W1 | constructor; [exact W2 | constructor]].
  - constructor; [exact L1 | constructor; [exact L2 | constructor]].
  - repeat constructor.
  - repeat constructor.
  - intuition discriminate.
  - apply not_endsWord. reflexivity.
  - constructor; try discriminate; try reflexivity; repeat constructor.
  - constructor; [exact W3 | constructor].
  - constructor; [exact L3 | constructor].
  - constructor.
  - repeat constructor.
Qed.

Lemma fields_of_every_message_start_at_one_witness :
  fst (processProtoText
         (unlines ["message A {"; "  string name = 5;";
                   "  repeated int32 id=12 [packed = true];"; "}";
                   "message B{"; "map<string, bool> ok=13;"; "}"]%string))
  = unlines ["message A {"; "  string name = 1;";
             "  repeated int32 id=2 [packed = true];"; "}";
             "message B{"; "map<string, bool> ok=1;"; "}"]%string.
Proof.
  destruct twoMessages_wellFormed as [Hwf Hafter].
  exact (fields_of_every_message_start_at_one twoMessages [c_lf] Hwf Hafter).
Defined.

(** X13.  Every match of the field pattern begins at a line start: at the
    start of the body or right after a line terminator.  So in a body
    without line terminator at most one declaration, the one at the start
    of the body, is renumbered. *)
Theorem matches_begin_at_line_starts (body : jsstring) :
  (forall lastIndex found y,
      exec body fieldRegex lastIndex = Some (found, y) ->
      atLineStart body found = true)
  /\ (Forall (fun c => isLineTerminator c = false) body ->
      (List.length (numberTokens body) <= 1)%nat).
Proof.
  split.
  - intros lastIndex found y H. apply exec_spec in H.
    destruct H as (_ & Hm & _).
    exact (proj1 (FieldFacts.field_match_start _ _ _ Hm)).
  - apply single_line_tokens.
Qed.

(** Two declarations on one line. *)
Lemma matches_begin_at_line_starts_witness :
  (List.length (numberTokens (str "string a = 5; int32 b = 7;")) <= 1)%nat.
Proof.
  apply (proj2 (matches_begin_at_line_starts _)).
  repeat constructor.
Defined.

(** X14.  [findMatchingBrace] does not look at the text before the offset
    it is given: the scan starts in mode [Normal] whatever precedes, and
    with more text in front the result moves by the length of that text. *)
Theorem findMatchingBrace_ignores_text_before (pre t : jsstring) (k : nat) :
  findMatchingBrace (pre ++ t) (Z.of_nat (List.length pre + k))
  = shiftResult (List.length pre) (findMatchingBrace t (Z.of_nat k)).
Proof. apply findMatchingBrace_shift. Qed.

(** X15.  On well-formed fields a second run changes nothing:
    renumbering the renumbered body of a message gives it back, and
    [processProtoText] on its own result, for a document of messages one
    after the other with such bodies, returns that result with
    [changed = false]. *)
Theorem second_run_changes_nothing
        (fms : list fieldMessage) (after : jsstring)
        (Hwf : Forall wellFormedFieldMessage fms)
        (Hafter : ~ In c_lbrace after) :
  Forall (fun f =>
            let body := sourceOf (fm_fields f) ++ fm_trail f in
            renumberMessageBody (renumberMessageBody body)
            = renumberMessageBody body) fms
  /\ processProtoText (fst (processProtoText (fieldDocument fms after)))
     = (fst (processProtoText (fieldDocument fms after)), false).
Proof.
  split.
  - eapply Forall_impl; [|exact Hwf]. intros f [_ _ _ Hf _ Hl Ht]. simpl.
    rewrite renumber_fields by assumption.
    apply renumber_fields_twice; assumption.
  - rewrite process_fieldDocument by assumption. simpl fst.
    apply process_numberedDocument; assumption.
Qed.

Lemma second_run_changes_nothing_witness :
  processProtoText (fst (processProtoText (fieldDocument twoMessages [c_lf])))
  = (fst (processProtoText (fieldDocument twoMessages [c_lf])), false).
Proof.
  destruct twoMessages_wellFormed as [Hwf Hafter].
  exact (proj2 (second_run_changes_nothing twoMessages [c_lf] Hwf Hafter)).
Defined.

(** X16.  Whatever the text, a run changes decimal digits only: the body
    that [renumberMessageBody] returns and the text that [processProtoText]
    returns are, once their digits are removed, the body and the text that
    were given. *)
Theorem only_digits_change (text : jsstring) :
  nonDigits (renumberMessageBody text) = nonDigits text
  /\ nonDigits (fst (processProtoText text)) = nonDigits text.
Proof.
  split; [apply nonDigits_renumber|].
  unfold processProtoText. apply (rewrite_nonDigits _ (text, false)).
Qed.

(** X17.  The text up to the first opening brace, that brace included, is
    never changed. *)
Theorem text_up_to_first_brace_is_kept (pre rest : jsstring)
        (Hpre : ~ In c_lbrace pre) :
  firstn (S (List.length pre)) (fst (processProtoText (pre ++ rest)))
  = firstn (S (List.length pre)) (pre ++ rest).
Proof.
  unfold processProtoText.
  apply (rewrite_prefix (List.length pre) _ (pre ++ rest, false)).
  apply spans_after_brace. intros k Hk Hc.
  rewrite nth_error_app1 in Hc by exact Hk.
  apply nth_error_In in Hc. exact (Hpre Hc).
Qed.

(** A field declaration outside of any message keeps its tag. *)
Lemma text_up_to_first_brace_is_kept_witness :
  firstn 18 (fst (processProtoText (str "v = 2; message M {a b=5;}")))
  = str "v = 2; message M {".
Proof.
  apply (text_up_to_first_brace_is_kept (str "v = 2; message M ")
                                        (str "{a b=5;}")).
  simpl. intuition discriminate.
Defined.
